(** * Murxla: sampling primitives of the solver manager and the command line

    A shallow embedding of the parts of Murxla, a model-based API fuzzer for
    SMT solvers, that own the option-selection state, the sort database, the
    sat bookkeeping, symbol generation, operator-kind selection and the
    command-line front end, with the properties proved about them.

    Embedded sources:
    - solver_manager.cpp, namespace [murxla]          (module [Murxla])
    - solver_manager.cpp, namespace [smtmbt], the earlier revision of the
      same file, where it differs                      (module [SmtMbt])
    - main.cpp, options.hpp, config.hpp, except.cpp    (module [Cli])

    Conventions.  A failing C++ [assert] and an operation with undefined
    behaviour are outcomes of the embedded function.  Unsigned counters are
    integers reduced modulo their width.  Hash containers are finite maps
    and sets; where the code iterates over one, the iteration sequence is
    the one of the finite map. *)

From Stdlib Require Import ZArith String Ascii List Lia DecimalString.
From Stdlib Require Import Sorted.
From Stdlib Require HexadecimalString.
From stdpp Require Import base gmap strings list fin_maps.
Import ListNotations.

Local Open Scope string_scope.
Local Open Scope list_scope.
Local Open Scope Z_scope.

(* ====================================================================== *)
(** * Outcomes of embedded functions *)
(* ====================================================================== *)

(** What a call of an embedded member function can do: return normally,
    stop at a failed [assert], or run into undefined behaviour (division
    by zero, indexing an empty vector). *)
Inductive outcome (A : Type) : Type :=
| Returns (a : A)
| AssertionFailed (which : string)
| Undefined (why : string).
Arguments Returns {A} a.
Arguments AssertionFailed {A} which.
Arguments Undefined {A} why.

#[global] Instance outcome_ret : MRet outcome := λ A a, Returns a.
#[global] Instance outcome_bind : MBind outcome := λ A B k m,
  match m with
  | Returns a => k a
  | AssertionFailed w => AssertionFailed w
  | Undefined w => Undefined w
  end.

(** [assert(c)] as a computation. *)
Definition assert_that (c : bool) (which : string) : outcome unit :=
  if c then Returns tt else AssertionFailed which.

Definition is_returns {A : Type} (m : outcome A) : bool :=
  match m with Returns _ => true | _ => false end.

(** Unsigned fixed-width arithmetic. *)
Definition UINT32_MOD : Z := 2 ^ 32.
Definition UINT64_MOD : Z := 2 ^ 64.
Definition wrap32 (z : Z) : Z := z mod UINT32_MOD.
Definition wrap64 (z : Z) : Z := z mod UINT64_MOD.

(** Decimal rendering of an unsigned counter, as [operator<<] prints it. *)
Definition decimal (z : Z) : string :=
  NilZero.string_of_uint (N.to_uint (Z.to_N z)).

(* ====================================================================== *)
(** * Random number generator *)
(* ====================================================================== *)

Module Rng.

(** Modelled from the spec: class [RNGenerator] (rng.hpp, rng.cpp) is not
    among the embedded sources.  Section 4.1 describes it as a
    deterministic seeded generator through which all sampling goes,
    offering [pick<u32>(lo,hi)], [flip_coin(p=0.5)], [pick_from_set],
    [pick_from_map] (ignoring values), [pick_simple_symbol(len)] and
    [pick_piped_symbol(len)] (printable bytes inside pipes).  The engine is
    the infinite sequence of its raw outputs with a cursor; every
    deterministic generator is an instance.  Distributions are not
    represented: a draw is whatever the engine yields next. *)
Record RNGenerator : Type := mkRng {
  engine : nat → Z;
  cursor : nat
}.

Definition advance (r : RNGenerator) : RNGenerator :=
  {| engine := engine r; cursor := S (cursor r) |}.

(** Modelled from the spec: [pick<uint32_t>()], the next raw output as a
    32-bit value. *)
Definition pick_uint32 (r : RNGenerator) : Z * RNGenerator :=
  (wrap32 (engine r (cursor r)), advance r).

(** Modelled from the spec: [pick<uint32_t>(lo, hi)], a value of the closed
    interval. *)
Definition pick_range (r : RNGenerator) (lo hi : Z) : Z * RNGenerator :=
  let '(v, r') := pick_uint32 r in
  (lo + v mod (hi - lo + 1), r').

(** Modelled from the spec: [flip_coin()], one draw deciding the outcome. *)
Definition flip_coin (r : RNGenerator) : bool * RNGenerator :=
  let '(v, r') := pick_uint32 r in (Z.odd v, r').

(** Modelled from the spec: [pick_from_set] and [pick_from_map], which
    advance an iterator by [pick() % size].  The container is given by its
    iteration sequence; an empty container makes the modulus zero. *)
Definition pick_from_set {A : Type} (r : RNGenerator) (xs : list A)
  : outcome (A * RNGenerator) :=
  let '(v, r') := pick_uint32 r in
  match xs !! Z.to_nat (v mod Z.of_nat (length xs)) with
  | Some x => Returns (x, r')
  | None => Undefined "pick_from_set: modulus zero"
  end.

(** Modelled from the spec: the characters of simple symbols. *)
Definition simple_alphabet : list ascii :=
  list_ascii_of_string
    "abcdefghijklmnopqrstuvwxyzABCDEFGHIJKLMNOPQRSTUVWXYZ0123456789_".

(** Modelled from the spec: the printable characters a piped symbol may
    hold. *)
Definition printable_alphabet : list ascii :=
  filter (λ c, c ≠ "|"%char ∧ c ≠ "\"%char)
         (map (λ n, ascii_of_nat (32 + n)) (seq 0 95)).

(** Modelled from the spec: [len] characters, one draw each. *)
Fixpoint pick_chars (alphabet : list ascii) (len : nat) (r : RNGenerator)
  : string * RNGenerator :=
  match len with
  | O => (EmptyString, r)
  | S n =>
      let '(v, r1) := pick_uint32 r in
      let c := nth (Z.to_nat (v mod Z.of_nat (length alphabet)))
                   alphabet "a"%char in
      let '(s, r2) := pick_chars alphabet n r1 in
      (String c s, r2)
  end.

(** Modelled from the spec: [pick_simple_symbol(len)], [len] characters of
    the simple alphabet. *)
Definition pick_simple_symbol (r : RNGenerator) (len : Z)
  : string * RNGenerator :=
  pick_chars simple_alphabet (Z.to_nat len) r.

(** Modelled from the spec: [pick_piped_symbol(len)], [len] printable
    characters between pipes. *)
Definition pick_piped_symbol (r : RNGenerator) (len : Z)
  : string * RNGenerator :=
  let '(s, r') := pick_chars printable_alphabet (Z.to_nat len) r in
  ("|" +:+ s +:+ "|", r').

Definition is_piped (s : string) : bool := String.prefix "|" s.

(** A generator that replays a finite list of raw outputs, then zeros. *)
Definition replay (outputs : list Z) : RNGenerator :=
  {| engine := λ i, nth i outputs 0; cursor := 0 |}.

End Rng.
Import Rng.

(* ====================================================================== *)
(** * Enumerations shared by the solver manager and the command line *)
(* ====================================================================== *)

(** Modelled from the spec: [enum SortKind] is declared in sort.hpp, which is
    not among the embedded sources.  Section 3 lists the tags; [SORT_ANY] is
    the last enumerator (the solver manager iterates [i < SORT_ANY]). *)
Inductive SortKind : Set :=
| SORT_ARRAY | SORT_BAG | SORT_BOOL | SORT_BV | SORT_DT | SORT_FP | SORT_FUN
| SORT_INT | SORT_REAL | SORT_RM | SORT_REGLAN | SORT_SEQ | SORT_SET
| SORT_STRING | SORT_UNINTERPRETED | SORT_ANY.

#[global] Instance SortKind_eq_dec : EqDecision SortKind.
Proof. solve_decision. Defined.

Definition SortKind_to_nat (k : SortKind) : nat :=
  match k with
  | SORT_ARRAY => 0 | SORT_BAG => 1 | SORT_BOOL => 2 | SORT_BV => 3
  | SORT_DT => 4 | SORT_FP => 5 | SORT_FUN => 6 | SORT_INT => 7
  | SORT_REAL => 8 | SORT_RM => 9 | SORT_REGLAN => 10 | SORT_SEQ => 11
  | SORT_SET => 12 | SORT_STRING => 13 | SORT_UNINTERPRETED => 14
  | SORT_ANY => 15
  end%nat.

Definition SortKind_of_nat (n : nat) : SortKind :=
  match n with
  | 0 => SORT_ARRAY | 1 => SORT_BAG | 2 => SORT_BOOL | 3 => SORT_BV
  | 4 => SORT_DT | 5 => SORT_FP | 6 => SORT_FUN | 7 => SORT_INT
  | 8 => SORT_REAL | 9 => SORT_RM | 10 => SORT_REGLAN | 11 => SORT_SEQ
  | 12 => SORT_SET | 13 => SORT_STRING | 14 => SORT_UNINTERPRETED
  | _ => SORT_ANY
  end%nat.

#[global] Instance SortKind_countable : Countable SortKind.
Proof.
  apply (inj_countable' SortKind_to_nat SortKind_of_nat).
  intros []; reflexivity.
Defined.

(** The theory identifiers named by main.cpp and options.hpp ([enum
    TheoryId] itself lives in theory.hpp); [THEORY_ALL] closes the range. *)
Inductive TheoryId : Set :=
| THEORY_ARRAY | THEORY_BAG | THEORY_BOOL | THEORY_BV | THEORY_DT | THEORY_FP
| THEORY_INT | THEORY_QUANT | THEORY_REAL | THEORY_SEQ | THEORY_SET
| THEORY_STRING | THEORY_TRANSCENDENTAL | THEORY_UF | THEORY_ALL.

#[global] Instance TheoryId_eq_dec : EqDecision TheoryId.
Proof. solve_decision. Defined.

Definition TheoryId_to_nat (t : TheoryId) : nat :=
  match t with
  | THEORY_ARRAY => 0 | THEORY_BAG => 1 | THEORY_BOOL => 2 | THEORY_BV => 3
  | THEORY_DT => 4 | THEORY_FP => 5 | THEORY_INT => 6 | THEORY_QUANT => 7
  | THEORY_REAL => 8 | THEORY_SEQ => 9 | THEORY_SET => 10
  | THEORY_STRING => 11 | THEORY_TRANSCENDENTAL => 12 | THEORY_UF => 13
  | THEORY_ALL => 14
  end%nat.

Definition TheoryId_of_nat (n : nat) : TheoryId :=
  match n with
  | 0 => THEORY_ARRAY | 1 => THEORY_BAG | 2 => THEORY_BOOL | 3 => THEORY_BV
  | 4 => THEORY_DT | 5 => THEORY_FP | 6 => THEORY_INT | 7 => THEORY_QUANT
  | 8 => THEORY_REAL | 9 => THEORY_SEQ | 10 => THEORY_SET
  | 11 => THEORY_STRING | 12 => THEORY_TRANSCENDENTAL | 13 => THEORY_UF
  | _ => THEORY_ALL
  end%nat.

#[global] Instance TheoryId_countable : Countable TheoryId.
Proof.
  apply (inj_countable' TheoryId_to_nat TheoryId_of_nat).
  intros []; reflexivity.
Defined.

(* ====================================================================== *)
(** * Data of the solver manager *)
(* ====================================================================== *)

(** [AbsSort] (solver.hpp), seen through its accessors.  [sort_native]
    stands for the wrapped back-end object: [hash] and [equals] delegate to
    it, so it is the key under which a [SortSet] interns a sort.  [get_id]
    and [get_kind] read the mutable members [d_id] and [d_kind]; [is_int],
    [get_bv_size] and [get_sorts] report what the back-end object and the
    member [d_sorts] hold. *)
Record AbsSort : Type := mkSort {
  sort_native : nat;
  get_id : Z;
  get_kind : SortKind;
  is_int : bool;
  get_bv_size : Z;
  get_sorts : list nat
}.

Definition set_id (s : AbsSort) (id : Z) : AbsSort :=
  {| sort_native := sort_native s; get_id := id; get_kind := get_kind s;
     is_int := is_int s; get_bv_size := get_bv_size s;
     get_sorts := get_sorts s |}.

Definition set_kind (s : AbsSort) (k : SortKind) : AbsSort :=
  {| sort_native := sort_native s; get_id := get_id s; get_kind := k;
     is_int := is_int s; get_bv_size := get_bv_size s;
     get_sorts := get_sorts s |}.

(** A sort as [Solver::mk_sort] and [Solver::get_sort] hand it out: kind
    [SORT_ANY] and id 0 (solver.hpp, comment of [get_sort]). *)
Definition fresh_sort (native : nat) (int : bool) (bv_size : Z)
    (children : list nat) : AbsSort :=
  mkSort native 0 SORT_ANY int bv_size children.

(** [SortSet = std::unordered_set<Sort>]: at most one sort per back-end
    object. *)
Abbreviation SortSet := (gmap nat AbsSort).

Definition sortset_insert (s : AbsSort) (set : SortSet) : SortSet :=
  match set !! sort_native s with
  | Some _ => set
  | None => <[sort_native s := s]> set
  end.

(** [Op::Kind]: the three kinds the solver manager names, and all others. *)
Inductive OpKind : Set :=
| UNDEFINED | FORALL | EXISTS | OpNamed (name : string).

#[global] Instance OpKind_eq_dec : EqDecision OpKind.
Proof. solve_decision. Defined.

#[global] Instance OpKind_countable : Countable OpKind.
Proof.
  apply (inj_countable'
           (λ k, match k with
                 | UNDEFINED => inl 0%nat | FORALL => inl 1%nat
                 | EXISTS => inl 2%nat | OpNamed s => inr s
                 end)
           (λ x, match x with
                 | inl 0%nat => UNDEFINED | inl 1%nat => FORALL
                 | inl _ => EXISTS | inr s => OpNamed s
                 end)).
  intros []; reflexivity.
Defined.

(** [Op] (op.hpp): the members [pick_op_kind] reads.  [get_arg_sort_kind]
    is the accessor of the argument sort kind at a position. *)
Record Op : Type := mkOp {
  d_kind : OpKind;
  d_arity : Z;
  d_theory : TheoryId;
  get_arg_sort_kind : nat → SortKind
}.

(** Modelled from the spec: [TermDb] (term_db.hpp) is not among the embedded
    sources.  Section 3 gives it per-sort-kind views of the terms created so
    far; the solver manager only asks whether a term of a sort kind, a
    variable, or a quantifier body exists. *)
Record TermDb : Type := mkTermDb {
  db_has_term : SortKind → bool;
  db_has_var : bool;
  db_has_quant_body : bool
}.

(** [SolverOption] (solver_option.hpp): name, conflicting and required
    option names, and the value generator. *)
Record SolverOption : Type := mkSolverOption {
  get_name : string;
  get_conflicts : list string;
  get_depends : list string;
  pick_value : RNGenerator → string * RNGenerator
}.

(** The members of [SolverManager] the embedded functions touch. *)
Record SolverManager : Type := mkSolverManager {
  d_arith_subtyping : bool;
  d_simple_symbols : bool;
  d_rng : RNGenerator;
  d_solver_options : list SolverOption;
  d_used_solver_options : gset string;
  d_op_kinds : list Op;
  d_term_db : TermDb;
  d_sorts : SortSet;
  d_sort_kind_to_sorts : gmap SortKind SortSet;
  d_assumptions : gset nat;
  d_n_sorts : Z;
  d_n_symbols : Z;
  d_stats_sorts : Z;
  d_sat_called : bool
}.

Definition with_rng (st : SolverManager) (r : RNGenerator) : SolverManager :=
  mkSolverManager (d_arith_subtyping st) (d_simple_symbols st) r
    (d_solver_options st) (d_used_solver_options st) (d_op_kinds st)
    (d_term_db st) (d_sorts st) (d_sort_kind_to_sorts st)
    (d_assumptions st) (d_n_sorts st) (d_n_symbols st) (d_stats_sorts st)
    (d_sat_called st).

Definition with_used_solver_options (st : SolverManager) (u : gset string)
  : SolverManager :=
  mkSolverManager (d_arith_subtyping st) (d_simple_symbols st) (d_rng st)
    (d_solver_options st) u (d_op_kinds st)
    (d_term_db st) (d_sorts st) (d_sort_kind_to_sorts st)
    (d_assumptions st) (d_n_sorts st) (d_n_symbols st) (d_stats_sorts st)
    (d_sat_called st).

Definition with_sorts (st : SolverManager) (sorts : SortSet) (n stats : Z)
  : SolverManager :=
  mkSolverManager (d_arith_subtyping st) (d_simple_symbols st) (d_rng st)
    (d_solver_options st) (d_used_solver_options st) (d_op_kinds st)
    (d_term_db st) sorts (d_sort_kind_to_sorts st)
    (d_assumptions st) n (d_n_symbols st) stats (d_sat_called st).

Definition with_sort_kind_to_sorts (st : SolverManager)
    (m : gmap SortKind SortSet) : SolverManager :=
  mkSolverManager (d_arith_subtyping st) (d_simple_symbols st) (d_rng st)
    (d_solver_options st) (d_used_solver_options st) (d_op_kinds st)
    (d_term_db st) (d_sorts st) m
    (d_assumptions st) (d_n_sorts st) (d_n_symbols st) (d_stats_sorts st)
    (d_sat_called st).

Definition with_assumptions (st : SolverManager) (a : gset nat)
  : SolverManager :=
  mkSolverManager (d_arith_subtyping st) (d_simple_symbols st) (d_rng st)
    (d_solver_options st) (d_used_solver_options st) (d_op_kinds st)
    (d_term_db st) (d_sorts st) (d_sort_kind_to_sorts st)
    a (d_n_sorts st) (d_n_symbols st) (d_stats_sorts st) (d_sat_called st).

Definition with_sat_called (st : SolverManager) (b : bool) : SolverManager :=
  mkSolverManager (d_arith_subtyping st) (d_simple_symbols st) (d_rng st)
    (d_solver_options st) (d_used_solver_options st) (d_op_kinds st)
    (d_term_db st) (d_sorts st) (d_sort_kind_to_sorts st)
    (d_assumptions st) (d_n_sorts st) (d_n_symbols st) (d_stats_sorts st) b.

Definition with_n_symbols (st : SolverManager) (n : Z) : SolverManager :=
  mkSolverManager (d_arith_subtyping st) (d_simple_symbols st) (d_rng st)
    (d_solver_options st) (d_used_solver_options st) (d_op_kinds st)
    (d_term_db st) (d_sorts st) (d_sort_kind_to_sorts st)
    (d_assumptions st) (d_n_sorts st) n (d_stats_sorts st) (d_sat_called st).

(** The state right after construction or [reset()], for a configuration. *)
Definition initial (arith_subtyping simple_symbols : bool) (rng : RNGenerator)
    (options : list SolverOption) (ops : list Op) (db : TermDb)
  : SolverManager :=
  mkSolverManager arith_subtyping simple_symbols rng options ∅ ops db
    ∅ ∅ ∅ 0 0 0 false.

(* ====================================================================== *)
(** * solver_manager.cpp, namespace murxla *)
(* ====================================================================== *)

Module Murxla.

(** config.hpp *)
Definition MURXLA_SYMBOL_LEN_MAX : Z := 128.

(** ** [SolverManager::add_sort] *)

(** The disjunction asserted before the lookup in [d_sorts]. *)
Definition kinds_compatible (subtyping : bool) (sort_kind : SortKind)
    (sort : AbsSort) : bool :=
  (subtyping && bool_decide (sort_kind = SORT_REAL)
     && bool_decide (get_kind sort = SORT_INT))
  || (subtyping && bool_decide (sort_kind = SORT_INT)
        && bool_decide (get_kind sort = SORT_REAL))
  || (bool_decide (sort_kind = SORT_BOOL)
        && bool_decide (get_kind sort = SORT_BV)
        && bool_decide (get_bv_size sort = 1))
  || (bool_decide (sort_kind = SORT_BV)
        && bool_decide (get_kind sort = SORT_BOOL))
  || bool_decide (get_kind sort = sort_kind).

(** The disjunction asserted on the sort found in [d_sorts]; it also
    admits arrays registered as binary functions and conversely. *)
Definition kinds_compatible_found (subtyping : bool) (sort_kind : SortKind)
    (sort : AbsSort) : bool :=
  (subtyping && bool_decide (sort_kind = SORT_REAL)
     && bool_decide (get_kind sort = SORT_INT))
  || (subtyping && bool_decide (sort_kind = SORT_INT)
        && bool_decide (get_kind sort = SORT_REAL))
  || (bool_decide (sort_kind = SORT_BOOL)
        && bool_decide (get_kind sort = SORT_BV)
        && bool_decide (get_bv_size sort = 1))
  || (bool_decide (sort_kind = SORT_BV)
        && bool_decide (get_kind sort = SORT_BOOL))
  || (bool_decide (sort_kind = SORT_ARRAY)
        && bool_decide (get_kind sort = SORT_FUN)
        && bool_decide (length (get_sorts sort) = 2%nat))
  || (bool_decide (sort_kind = SORT_FUN)
        && bool_decide (get_kind sort = SORT_ARRAY)
        && bool_decide (length (get_sorts sort) = 2%nat))
  || bool_decide (get_kind sort = sort_kind).

Definition int_consistent (sort_kind : SortKind) (sort : AbsSort) : bool :=
  (negb (bool_decide (sort_kind = SORT_INT))
     && negb (bool_decide (get_kind sort = SORT_INT)))
  || is_int sort.

(** [add_sort(Sort& sort, SortKind sort_kind)].  The reference parameter
    is returned next to the new state: after the call it designates the
    interned sort.  [assert(sort.get())] holds for every value of
    [AbsSort]. *)
Definition add_sort (st : SolverManager) (sort : AbsSort)
    (sort_kind : SortKind) : outcome (AbsSort * SolverManager) :=
  _ ← assert_that (negb (bool_decide (sort_kind = SORT_ANY)))
        "sort_kind != SORT_ANY";
  sort ← (if bool_decide (get_kind sort = SORT_ANY)
          then _ ← assert_that (bool_decide (get_id sort = 0))
                     "sort->get_id() == 0";
               Returns (set_kind sort sort_kind)
          else Returns sort);
  _ ← assert_that (int_consistent sort_kind sort) "is_int";
  _ ← assert_that (kinds_compatible (d_arith_subtyping st) sort_kind sort)
        "sort kind";
  '(sort, st) ←
    match d_sorts st !! sort_native sort with
    | None =>
        let n := wrap64 (d_n_sorts st + 1) in
        let sort := set_id sort n in
        Returns (sort,
                 with_sorts st (<[sort_native sort := sort]> (d_sorts st))
                            n (wrap64 (d_stats_sorts st + 1)))
    | Some found =>
        _ ← assert_that (int_consistent sort_kind found) "is_int";
        _ ← assert_that
              (kinds_compatible_found (d_arith_subtyping st) sort_kind found)
              "sort kind";
        Returns (found, st)
    end;
  _ ← assert_that (negb (bool_decide (get_id sort = 0))) "sort->get_id()";
  _ ← assert_that (negb (bool_decide (sort_kind = SORT_ARRAY))
                   || negb (bool_decide (get_sorts sort = [])))
        "array sorts";
  let sorts := default ∅ (d_sort_kind_to_sorts st !! sort_kind) in
  let sorts :=
    match sorts !! sort_native sort with
    | None => sortset_insert sort sorts
    | Some _ => sorts
    end in
  Returns (sort,
           with_sort_kind_to_sorts st
             (<[sort_kind := sorts]> (d_sort_kind_to_sorts st))).

(** A sequence of [add_sort] calls, stopping at the first one that does
    not return. *)
Fixpoint add_sorts (st : SolverManager) (calls : list (AbsSort * SortKind))
  : outcome SolverManager :=
  match calls with
  | [] => Returns st
  | (sort, sort_kind) :: rest =>
      '(_, st') ← add_sort st sort sort_kind;
      add_sorts st' rest
  end.

(** ** [SolverManager::reset_sat] *)

Definition clear_assumptions (st : SolverManager) : SolverManager :=
  with_assumptions st ∅.

Definition reset_sat (st : SolverManager) : SolverManager :=
  let st := if d_sat_called st then clear_assumptions st else st in
  with_sat_called st false.

(** ** [SolverManager::pick_symbol] *)

Definition pick_symbol (st : SolverManager) : string * SolverManager :=
  if d_simple_symbols st then
    ("_x" +:+ decimal (d_n_symbols st),
     with_n_symbols st (wrap64 (d_n_symbols st + 1)))
  else
    let '(len, r1) := pick_range (d_rng st) 0 MURXLA_SYMBOL_LEN_MAX in
    (* len && d_rng.flip_coin(): the coin is flipped only for len != 0 *)
    let '(piped, r2) :=
      if bool_decide (len = 0) then (false, r1) else flip_coin r1 in
    let '(s, r3) :=
      if piped then pick_piped_symbol r2 len else pick_simple_symbol r2 len in
    (s, with_rng st r3).

(** ** [SolverManager::pick_option] *)

(** The loop over [get_conflicts()] with its [break]. *)
Fixpoint has_conflict (used : gset string) (conflicts : list string) : bool :=
  match conflicts with
  | [] => false
  | conflict :: rest =>
      if bool_decide (conflict ∈ used) then true else has_conflict used rest
  end.

(** The loop over [get_depends()] with its [break]. *)
Fixpoint lacks_depend (used : gset string) (depends : list string) : bool :=
  match depends with
  | [] => false
  | depend :: rest =>
      if bool_decide (depend ∈ used) then lacks_depend used rest else true
  end.

(** The loop over [d_solver_options] filling the vector [available]. *)
Fixpoint collect_available (used : gset string) (opts : list SolverOption)
    (available : list SolverOption) : list SolverOption :=
  match opts with
  | [] => available
  | option :: rest =>
      if has_conflict used (get_conflicts option)
      then collect_available used rest available
      else if lacks_depend used (get_depends option)
      then collect_available used rest available
      else collect_available used rest (available ++ [option])
  end.

Definition available_options (st : SolverManager) : list SolverOption :=
  collect_available (d_used_solver_options st) (d_solver_options st) [].

Definition pick_option (st : SolverManager)
  : outcome ((string * string) * SolverManager) :=
  match d_solver_options st with
  | [] => Returns (("", ""), st)
  | _ =>
      let available := available_options st in
      let '(v, r1) := pick_uint32 (d_rng st) in
      if bool_decide (length available = 0%nat)
      then Undefined "pick_option: modulo by available.size() == 0"
      else
        match available !! Z.to_nat (v mod Z.of_nat (length available)) with
        | None => Undefined "pick_option: index out of bounds"
        | Some option =>
            let name := get_name option in
            let used :=
              if bool_decide (name ∈ d_used_solver_options st)
              then d_used_solver_options st
              else {[name]} ∪ d_used_solver_options st in
            let '(value, r2) := pick_value option r1 in
            Returns ((name, value),
                     with_used_solver_options (with_rng st r2) used)
        end
  end.

(** ** [SolverManager::pick_op_kind] *)

Definition has_term (st : SolverManager) (sort_kind : SortKind) : bool :=
  db_has_term (d_term_db st) sort_kind.

(** The loop [for (i = 0; i < op.d_arity; ++i)] with its [break]; [n]
    counts the positions still to visit. *)
Fixpoint args_have_terms (st : SolverManager) (op : Op) (i n : nat) : bool :=
  match n with
  | O => true
  | S n' =>
      if has_term st (get_arg_sort_kind op i)
      then args_have_terms st op (S i) n'
      else false
  end.

Definition op_has_terms (st : SolverManager) (op : Op) : bool :=
  if (d_arity op <? 0)%Z
  then has_term st (get_arg_sort_kind op 0)
  else args_have_terms st op 0 (Z.to_nat (d_arity op)).

Definition quantifier_blocked (st : SolverManager) (op : Op) : bool :=
  (bool_decide (d_kind op = FORALL) || bool_decide (d_kind op = EXISTS))
  && (negb (db_has_var (d_term_db st))
      || negb (db_has_quant_body (d_term_db st))).

(** The loop over the operator table filling
    [std::unordered_map<TheoryId, OpKindSet> kinds]. *)
Fixpoint collect_kinds (st : SolverManager) (ops : list Op)
    (kinds : gmap TheoryId (gset OpKind)) : gmap TheoryId (gset OpKind) :=
  match ops with
  | [] => kinds
  | op :: rest =>
      if quantifier_blocked st op then collect_kinds st rest kinds
      else if op_has_terms st op
      then collect_kinds st rest
             (<[d_theory op :=
                  {[d_kind op]} ∪ default ∅ (kinds !! d_theory op)]> kinds)
      else collect_kinds st rest kinds
  end.

Definition pick_op_kind (st : SolverManager) (with_terms : bool)
  : outcome (OpKind * SolverManager) :=
  if with_terms then
    let kinds := collect_kinds st (d_op_kinds st) ∅ in
    if bool_decide (size kinds = 0%nat)
    then Returns (UNDEFINED, st)
    else
      '(theory, r1) ← pick_from_set (d_rng st) (map fst (map_to_list kinds));
      let op_kinds := default ∅ (kinds !! theory) in
      '(kind, r2) ← pick_from_set r1 (elements op_kinds);
      Returns (kind, with_rng st r2)
  else
    '(kind, r1) ← pick_from_set (d_rng st) (map d_kind (d_op_kinds st));
    Returns (kind, with_rng st r1).

End Murxla.

(* ====================================================================== *)
(** * solver_manager.cpp, namespace smtmbt (earlier revision) *)
(* ====================================================================== *)

Module SmtMbt.

Definition SMTMBT_LEN_SYMBOL_MAX : Z := 128.

(** [add_sort(Sort& sort, SortKind sort_kind)] of this revision.  The last
    statement inserts into [d_sort_kind_to_sorts[sort_kind]] under the test
    [sorts.find(sort) != sorts.end()]. *)
Definition add_sort (st : SolverManager) (sort : AbsSort)
    (sort_kind : SortKind) : outcome (AbsSort * SolverManager) :=
  _ ← assert_that (negb (bool_decide (sort_kind = SORT_ANY)))
        "sort_kind != SORT_ANY";
  let sort := if bool_decide (get_kind sort = SORT_ANY)
              then set_kind sort sort_kind else sort in
  '(sort, st) ←
    match d_sorts st !! sort_native sort with
    | None =>
        let sort := set_kind sort sort_kind in
        let n := wrap64 (d_n_sorts st + 1) in
        let sort := set_id sort n in
        Returns (sort,
                 with_sorts st (<[sort_native sort := sort]> (d_sorts st))
                            n (wrap64 (d_stats_sorts st + 1)))
    | Some found =>
        _ ← assert_that (bool_decide (get_kind found = sort_kind))
              "(*it)->get_kind() == sort_kind";
        Returns (found, st)
    end;
  _ ← assert_that (negb (bool_decide (sort_kind = SORT_ARRAY))
                   || negb (bool_decide (get_sorts sort = [])))
        "array sorts";
  let sorts := default ∅ (d_sort_kind_to_sorts st !! sort_kind) in
  let sorts :=
    match sorts !! sort_native sort with
    | Some _ => sortset_insert sort sorts
    | None => sorts
    end in
  Returns (sort,
           with_sort_kind_to_sorts st
             (<[sort_kind := sorts]> (d_sort_kind_to_sorts st))).

Fixpoint add_sorts (st : SolverManager) (calls : list (AbsSort * SortKind))
  : outcome SolverManager :=
  match calls with
  | [] => Returns st
  | (sort, sort_kind) :: rest =>
      '(_, st') ← add_sort st sort sort_kind;
      add_sorts st' rest
  end.

(** [reset_sat()] of this revision clears without looking at the flag. *)
Definition reset_sat (st : SolverManager) : SolverManager :=
  with_sat_called (Murxla.clear_assumptions st) false.

(** [pick_symbol()] of this revision: prefix [_s]. *)
Definition pick_symbol (st : SolverManager) : string * SolverManager :=
  if d_simple_symbols st then
    ("_s" +:+ decimal (d_n_symbols st),
     with_n_symbols st (wrap64 (d_n_symbols st + 1)))
  else
    let '(len, r1) := pick_range (d_rng st) 0 SMTMBT_LEN_SYMBOL_MAX in
    let '(piped, r2) :=
      if bool_decide (len = 0) then (false, r1) else flip_coin r1 in
    let '(s, r3) :=
      if piped then pick_piped_symbol r2 len else pick_simple_symbol r2 len in
    (s, with_rng st r3).

(** [pick_option] and [pick_op_kind] read the same in both revisions (the
    operator table is the member [d_op_kinds] here and
    [d_opmgr->get_op_kinds()] there). *)
Definition pick_option := Murxla.pick_option.
Definition pick_op_kind := Murxla.pick_op_kind.

End SmtMbt.

(* ====================================================================== *)
(** * main.cpp: command line handling *)
(* ====================================================================== *)

Module Cli.

Definition endl : string := String (ascii_of_nat 10) EmptyString.

(** The exit codes main.cpp and except.cpp name ([enum ExitCode], exit.hpp). *)
Inductive ExitCode : Set := EXIT_ERROR | EXIT_ERROR_CONFIG.

(** How a function of main.cpp ends: it returns; it prints the usage text on
    stdout and calls [exit(0)]; an [ExitStream] writes [err] to stderr and
    calls [std::exit(exit_code)]; an [assert] fails; it reads outside a
    vector; or an exception leaves [main]. *)
Inductive result (A : Type) : Type :=
| Ok (a : A)
| ExitUsage
| ExitStream (exit_code : ExitCode) (err : string)
| AssertFails (which : string)
| UndefinedBehaviour (why : string)
| Throws (what : string).
Arguments Ok {A} a.
Arguments ExitUsage {A}.
Arguments ExitStream {A} exit_code err.
Arguments AssertFails {A} which.
Arguments UndefinedBehaviour {A} why.
Arguments Throws {A} what.

#[global] Instance result_ret : MRet result := λ A a, Ok a.
#[global] Instance result_bind : MBind result := λ A B k m,
  match m with
  | Ok a => k a
  | ExitUsage => ExitUsage
  | ExitStream c e => ExitStream c e
  | AssertFails w => AssertFails w
  | UndefinedBehaviour w => UndefinedBehaviour w
  | Throws w => Throws w
  end.

(** except.cpp, [ExitStream]: the constructor writes the prefix, the
    message is streamed in, the destructor flushes with [std::endl] and
    calls [std::exit(d_exit)]. *)
Definition exit_stream {A : Type} (exit_code : ExitCode) (msg : string)
  : result A :=
  ExitStream exit_code ("murxla: ERROR: " +:+ msg +:+ endl).

(** Modelled from the spec: the macro [MURXLA_EXIT_ERROR] is defined in
    except.hpp, which is not among the embedded sources.  Section 7 has
    engine-config errors reported to stderr with the prefix [ERROR:] and
    ending the process; the macro is taken to build the [ExitStream] of
    except.cpp with [EXIT_ERROR] when its condition holds, and to do nothing
    otherwise. *)
Definition MURXLA_EXIT_ERROR (cond : bool) (msg : string) : result unit :=
  if cond then exit_stream EXIT_ERROR msg else Ok tt.

(** What main.cpp takes from outside itself: the file system and process
    environment, the build configuration, and helpers declared in util.hpp
    and solver_option.hpp.  A path is given by the directory and the entry
    appended to it with [operator/=]. *)
Record Context : Type := mkContext {
  (** contents of the file if [std::ifstream] opens it in good state *)
  read_file : string → option string;
  (** [stat] reports an existing directory *)
  is_directory : string → bool;
  (** [filesystem::exists(p)]; [None] when it throws [filesystem_error] *)
  filesystem_exists : string * string → option bool;
  (** [filesystem::create_directory(p)]: whether a directory was created;
      [None] when it throws [filesystem_error] *)
  filesystem_create_directory : string * string → option bool;
  (** [split(str, delim)] of util.hpp *)
  split : string → ascii → list string;
  MURXLA_USE_BOOLECTOR : bool;
  MURXLA_USE_BITWUZLA : bool;
  MURXLA_USE_CVC5 : bool;
  MURXLA_USE_YICES : bool;
  MURXLA_CHECK_SOLVER_OPT_PREFIX : string;
  (** [open] and [close] of the shared-memory file succeed *)
  shm_open_ok : bool;
  shm_close_ok : bool;
  (** [mmap] returns a mapping and not [MAP_FAILED] *)
  shm_mmap_ok : bool;
  getpid : Z
}.

Definition SOLVER_BTOR : string := "btor".
Definition SOLVER_BZLA : string := "bzla".
Definition SOLVER_CVC5 : string := "cvc5".
Definition SOLVER_SMT2 : string := "smt2".
Definition SOLVER_YICES : string := "yices".

(** [struct Options] (options.hpp) with its default member initializers.
    [solver_profile_filename] and [fuzz_options_filter] are the two members
    main.cpp writes beyond those of the header.  [time] is a [double]: the
    field keeps the text that [atof] converts. *)
#[projections(primitive)]
Record Options : Type := mkOptions {
  seed : Z;
  verbosity : Z;
  time : string;
  max_runs : Z;
  is_seeded : bool;
  trace_seeds : bool;
  simple_symbols : bool;
  smt : bool;
  print_stats : bool;
  print_fsm : bool;
  arith_linear : bool;
  fuzz_options : bool;
  fuzz_options_filter : string;
  tmp_dir : string;
  out_dir : string;
  solver : string;
  solver_binary : string;
  solver_profile_filename : string;
  api_trace_file_name : string;
  untrace_file_name : string;
  smt2_file_name : string;
  dd : bool;
  dd_ignore_out : bool;
  dd_ignore_err : bool;
  dd_match_out : string;
  dd_match_err : string;
  dd_trace_file_name : string;
  cross_check : string;
  check_solver_name : string;
  check_solver : bool;
  solver_options : list (string * string);
  enabled_theories : list TheoryId;
  disabled_theories : gset TheoryId;
  cmd_line_trace : string
}.

Definition default_options : Options :=
  {|
    seed := 0;
    verbosity := 0;
    time := "0";
    max_runs := 0;
    is_seeded := false;
    trace_seeds := false;
    simple_symbols := true;
    smt := false;
    print_stats := false;
    print_fsm := false;
    arith_linear := false;
    fuzz_options := false;
    fuzz_options_filter := "";
    tmp_dir := "/tmp";
    out_dir := "";
    solver := "";
    solver_binary := "";
    solver_profile_filename := "";
    api_trace_file_name := "";
    untrace_file_name := "";
    smt2_file_name := "";
    dd := false;
    dd_ignore_out := false;
    dd_ignore_err := false;
    dd_match_out := "";
    dd_match_err := "";
    dd_trace_file_name := "";
    cross_check := "";
    check_solver_name := "";
    check_solver := false;
    solver_options := [];
    enabled_theories := [];
    disabled_theories := {[THEORY_BAG; THEORY_SEQ; THEORY_SET]};
    cmd_line_trace := ""
  |}.

(** Assignments to single members. *)
Definition set_seed (v : Z) (o : Options) : Options :=
  mkOptions v (verbosity o) (time o) (max_runs o) (is_seeded o)
    (trace_seeds o) (simple_symbols o) (smt o) (print_stats o) (print_fsm o)
    (arith_linear o) (fuzz_options o) (fuzz_options_filter o) (tmp_dir o)
    (out_dir o) (solver o) (solver_binary o) (solver_profile_filename o)
    (api_trace_file_name o) (untrace_file_name o) (smt2_file_name o) (dd o)
    (dd_ignore_out o) (dd_ignore_err o) (dd_match_out o) (dd_match_err o)
    (dd_trace_file_name o) (cross_check o) (check_solver_name o)
    (check_solver o) (solver_options o) (enabled_theories o)
    (disabled_theories o) (cmd_line_trace o).
Definition set_verbosity (v : Z) (o : Options) : Options :=
  mkOptions (seed o) v (time o) (max_runs o) (is_seeded o) (trace_seeds o)
    (simple_symbols o) (smt o) (print_stats o) (print_fsm o) (arith_linear o)
    (fuzz_options o) (fuzz_options_filter o) (tmp_dir o) (out_dir o)
    (solver o) (solver_binary o) (solver_profile_filename o)
    (api_trace_file_name o) (untrace_file_name o) (smt2_file_name o) (dd o)
    (dd_ignore_out o) (dd_ignore_err o) (dd_match_out o) (dd_match_err o)
    (dd_trace_file_name o) (cross_check o) (check_solver_name o)
    (check_solver o) (solver_options o) (enabled_theories o)
    (disabled_theories o) (cmd_line_trace o).
Definition set_time (v : string) (o : Options) : Options :=
  mkOptions (seed o) (verbosity o) v (max_runs o) (is_seeded o)
    (trace_seeds o) (simple_symbols o) (smt o) (print_stats o) (print_fsm o)
    (arith_linear o) (fuzz_options o) (fuzz_options_filter o) (tmp_dir o)
    (out_dir o) (solver o) (solver_binary o) (solver_profile_filename o)
    (api_trace_file_name o) (untrace_file_name o) (smt2_file_name o) (dd o)
    (dd_ignore_out o) (dd_ignore_err o) (dd_match_out o) (dd_match_err o)
    (dd_trace_file_name o) (cross_check o) (check_solver_name o)
    (check_solver o) (solver_options o) (enabled_theories o)
    (disabled_theories o) (cmd_line_trace o).
Definition set_max_runs (v : Z) (o : Options) : Options :=
  mkOptions (seed o) (verbosity o) (time o) v (is_seeded o) (trace_seeds o)
    (simple_symbols o) (smt o) (print_stats o) (print_fsm o) (arith_linear o)
    (fuzz_options o) (fuzz_options_filter o) (tmp_dir o) (out_dir o)
    (solver o) (solver_binary o) (solver_profile_filename o)
    (api_trace_file_name o) (untrace_file_name o) (smt2_file_name o) (dd o)
    (dd_ignore_out o) (dd_ignore_err o) (dd_match_out o) (dd_match_err o)
    (dd_trace_file_name o) (cross_check o) (check_solver_name o)
    (check_solver o) (solver_options o) (enabled_theories o)
    (disabled_theories o) (cmd_line_trace o).
Definition set_is_seeded (v : bool) (o : Options) : Options :=
  mkOptions (seed o) (verbosity o) (time o) (max_runs o) v (trace_seeds o)
    (simple_symbols o) (smt o) (print_stats o) (print_fsm o) (arith_linear o)
    (fuzz_options o) (fuzz_options_filter o) (tmp_dir o) (out_dir o)
    (solver o) (solver_binary o) (solver_profile_filename o)
    (api_trace_file_name o) (untrace_file_name o) (smt2_file_name o) (dd o)
    (dd_ignore_out o) (dd_ignore_err o) (dd_match_out o) (dd_match_err o)
    (dd_trace_file_name o) (cross_check o) (check_solver_name o)
    (check_solver o) (solver_options o) (enabled_theories o)
    (disabled_theories o) (cmd_line_trace o).
Definition set_trace_seeds (v : bool) (o : Options) : Options :=
  mkOptions (seed o) (verbosity o) (time o) (max_runs o) (is_seeded o) v
    (simple_symbols o) (smt o) (print_stats o) (print_fsm o) (arith_linear o)
    (fuzz_options o) (fuzz_options_filter o) (tmp_dir o) (out_dir o)
    (solver o) (solver_binary o) (solver_profile_filename o)
    (api_trace_file_name o) (untrace_file_name o) (smt2_file_name o) (dd o)
    (dd_ignore_out o) (dd_ignore_err o) (dd_match_out o) (dd_match_err o)
    (dd_trace_file_name o) (cross_check o) (check_solver_name o)
    (check_solver o) (solver_options o) (enabled_theories o)
    (disabled_theories o) (cmd_line_trace o).
Definition set_simple_symbols (v : bool) (o : Options) : Options :=
  mkOptions (seed o) (verbosity o) (time o) (max_runs o) (is_seeded o)
    (trace_seeds o) v (smt o) (print_stats o) (print_fsm o) (arith_linear o)
    (fuzz_options o) (fuzz_options_filter o) (tmp_dir o) (out_dir o)
    (solver o) (solver_binary o) (solver_profile_filename o)
    (api_trace_file_name o) (untrace_file_name o) (smt2_file_name o) (dd o)
    (dd_ignore_out o) (dd_ignore_err o) (dd_match_out o) (dd_match_err o)
    (dd_trace_file_name o) (cross_check o) (check_solver_name o)
    (check_solver o) (solver_options o) (enabled_theories o)
    (disabled_theories o) (cmd_line_trace o).
Definition set_smt (v : bool) (o : Options) : Options :=
  mkOptions (seed o) (verbosity o) (time o) (max_runs o) (is_seeded o)
    (trace_seeds o) (simple_symbols o) v (print_stats o) (print_fsm o)
    (arith_linear o) (fuzz_options o) (fuzz_options_filter o) (tmp_dir o)
    (out_dir o) (solver o) (solver_binary o) (solver_profile_filename o)
    (api_trace_file_name o) (untrace_file_name o) (smt2_file_name o) (dd o)
    (dd_ignore_out o) (dd_ignore_err o) (dd_match_out o) (dd_match_err o)
    (dd_trace_file_name o) (cross_check o) (check_solver_name o)
    (check_solver o) (solver_options o) (enabled_theories o)
    (disabled_theories o) (cmd_line_trace o).
Definition set_print_stats (v : bool) (o : Options) : Options :=
  mkOptions (seed o) (verbosity o) (time o) (max_runs o) (is_seeded o)
    (trace_seeds o) (simple_symbols o) (smt o) v (print_fsm o)
    (arith_linear o) (fuzz_options o) (fuzz_options_filter o) (tmp_dir o)
    (out_dir o) (solver o) (solver_binary o) (solver_profile_filename o)
    (api_trace_file_name o) (untrace_file_name o) (smt2_file_name o) (dd o)
    (dd_ignore_out o) (dd_ignore_err o) (dd_match_out o) (dd_match_err o)
    (dd_trace_file_name o) (cross_check o) (check_solver_name o)
    (check_solver o) (solver_options o) (enabled_theories o)
    (disabled_theories o) (cmd_line_trace o).
Definition set_print_fsm (v : bool) (o : Options) : Options :=
  mkOptions (seed o) (verbosity o) (time o) (max_runs o) (is_seeded o)
    (trace_seeds o) (simple_symbols o) (smt o) (print_stats o) v
    (arith_linear o) (fuzz_options o) (fuzz_options_filter o) (tmp_dir o)
    (out_dir o) (solver o) (solver_binary o) (solver_profile_filename o)
    (api_trace_file_name o) (untrace_file_name o) (smt2_file_name o) (dd o)
    (dd_ignore_out o) (dd_ignore_err o) (dd_match_out o) (dd_match_err o)
    (dd_trace_file_name o) (cross_check o) (check_solver_name o)
    (check_solver o) (solver_options o) (enabled_theories o)
    (disabled_theories o) (cmd_line_trace o).
Definition set_arith_linear (v : bool) (o : Options) : Options :=
  mkOptions (seed o) (verbosity o) (time o) (max_runs o) (is_seeded o)
    (trace_seeds o) (simple_symbols o) (smt o) (print_stats o) (print_fsm o) v
    (fuzz_options o) (fuzz_options_filter o) (tmp_dir o) (out_dir o)
    (solver o) (solver_binary o) (solver_profile_filename o)
    (api_trace_file_name o) (untrace_file_name o) (smt2_file_name o) (dd o)
    (dd_ignore_out o) (dd_ignore_err o) (dd_match_out o) (dd_match_err o)
    (dd_trace_file_name o) (cross_check o) (check_solver_name o)
    (check_solver o) (solver_options o) (enabled_theories o)
    (disabled_theories o) (cmd_line_trace o).
Definition set_fuzz_options (v : bool) (o : Options) : Options :=
  mkOptions (seed o) (verbosity o) (time o) (max_runs o) (is_seeded o)
    (trace_seeds o) (simple_symbols o) (smt o) (print_stats o) (print_fsm o)
    (arith_linear o) v (fuzz_options_filter o) (tmp_dir o) (out_dir o)
    (solver o) (solver_binary o) (solver_profile_filename o)
    (api_trace_file_name o) (untrace_file_name o) (smt2_file_name o) (dd o)
    (dd_ignore_out o) (dd_ignore_err o) (dd_match_out o) (dd_match_err o)
    (dd_trace_file_name o) (cross_check o) (check_solver_name o)
    (check_solver o) (solver_options o) (enabled_theories o)
    (disabled_theories o) (cmd_line_trace o).
Definition set_fuzz_options_filter (v : string) (o : Options) : Options :=
  mkOptions (seed o) (verbosity o) (time o) (max_runs o) (is_seeded o)
    (trace_seeds o) (simple_symbols o) (smt o) (print_stats o) (print_fsm o)
    (arith_linear o) (fuzz_options o) v (tmp_dir o) (out_dir o) (solver o)
    (solver_binary o) (solver_profile_filename o) (api_trace_file_name o)
    (untrace_file_name o) (smt2_file_name o) (dd o) (dd_ignore_out o)
    (dd_ignore_err o) (dd_match_out o) (dd_match_err o) (dd_trace_file_name o)
    (cross_check o) (check_solver_name o) (check_solver o) (solver_options o)
    (enabled_theories o) (disabled_theories o) (cmd_line_trace o).
Definition set_tmp_dir (v : string) (o : Options) : Options :=
  mkOptions (seed o) (verbosity o) (time o) (max_runs o) (is_seeded o)
    (trace_seeds o) (simple_symbols o) (smt o) (print_stats o) (print_fsm o)
    (arith_linear o) (fuzz_options o) (fuzz_options_filter o) v (out_dir o)
    (solver o) (solver_binary o) (solver_profile_filename o)
    (api_trace_file_name o) (untrace_file_name o) (smt2_file_name o) (dd o)
    (dd_ignore_out o) (dd_ignore_err o) (dd_match_out o) (dd_match_err o)
    (dd_trace_file_name o) (cross_check o) (check_solver_name o)
    (check_solver o) (solver_options o) (enabled_theories o)
    (disabled_theories o) (cmd_line_trace o).
Definition set_out_dir (v : string) (o : Options) : Options :=
  mkOptions (seed o) (verbosity o) (time o) (max_runs o) (is_seeded o)
    (trace_seeds o) (simple_symbols o) (smt o) (print_stats o) (print_fsm o)
    (arith_linear o) (fuzz_options o) (fuzz_options_filter o) (tmp_dir o) v
    (solver o) (solver_binary o) (solver_profile_filename o)
    (api_trace_file_name o) (untrace_file_name o) (smt2_file_name o) (dd o)
    (dd_ignore_out o) (dd_ignore_err o) (dd_match_out o) (dd_match_err o)
    (dd_trace_file_name o) (cross_check o) (check_solver_name o)
    (check_solver o) (solver_options o) (enabled_theories o)
    (disabled_theories o) (cmd_line_trace o).
Definition set_solver (v : string) (o : Options) : Options :=
  mkOptions (seed o) (verbosity o) (time o) (max_runs o) (is_seeded o)
    (trace_seeds o) (simple_symbols o) (smt o) (print_stats o) (print_fsm o)
    (arith_linear o) (fuzz_options o) (fuzz_options_filter o) (tmp_dir o)
    (out_dir o) v (solver_binary o) (solver_profile_filename o)
    (api_trace_file_name o) (untrace_file_name o) (smt2_file_name o) (dd o)
    (dd_ignore_out o) (dd_ignore_err o) (dd_match_out o) (dd_match_err o)
    (dd_trace_file_name o) (cross_check o) (check_solver_name o)
    (check_solver o) (solver_options o) (enabled_theories o)
    (disabled_theories o) (cmd_line_trace o).
Definition set_solver_binary (v : string) (o : Options) : Options :=
  mkOptions (seed o) (verbosity o) (time o) (max_runs o) (is_seeded o)
    (trace_seeds o) (simple_symbols o) (smt o) (print_stats o) (print_fsm o)
    (arith_linear o) (fuzz_options o) (fuzz_options_filter o) (tmp_dir o)
    (out_dir o) (solver o) v (solver_profile_filename o)
    (api_trace_file_name o) (untrace_file_name o) (smt2_file_name o) (dd o)
    (dd_ignore_out o) (dd_ignore_err o) (dd_match_out o) (dd_match_err o)
    (dd_trace_file_name o) (cross_check o) (check_solver_name o)
    (check_solver o) (solver_options o) (enabled_theories o)
    (disabled_theories o) (cmd_line_trace o).
Definition set_solver_profile_filename (v : string) (o : Options) : Options :=
  mkOptions (seed o) (verbosity o) (time o) (max_runs o) (is_seeded o)
    (trace_seeds o) (simple_symbols o) (smt o) (print_stats o) (print_fsm o)
    (arith_linear o) (fuzz_options o) (fuzz_options_filter o) (tmp_dir o)
    (out_dir o) (solver o) (solver_binary o) v (api_trace_file_name o)
    (untrace_file_name o) (smt2_file_name o) (dd o) (dd_ignore_out o)
    (dd_ignore_err o) (dd_match_out o) (dd_match_err o) (dd_trace_file_name o)
    (cross_check o) (check_solver_name o) (check_solver o) (solver_options o)
    (enabled_theories o) (disabled_theories o) (cmd_line_trace o).
Definition set_api_trace_file_name (v : string) (o : Options) : Options :=
  mkOptions (seed o) (verbosity o) (time o) (max_runs o) (is_seeded o)
    (trace_seeds o) (simple_symbols o) (smt o) (print_stats o) (print_fsm o)
    (arith_linear o) (fuzz_options o) (fuzz_options_filter o) (tmp_dir o)
    (out_dir o) (solver o) (solver_binary o) (solver_profile_filename o) v
    (untrace_file_name o) (smt2_file_name o) (dd o) (dd_ignore_out o)
    (dd_ignore_err o) (dd_match_out o) (dd_match_err o) (dd_trace_file_name o)
    (cross_check o) (check_solver_name o) (check_solver o) (solver_options o)
    (enabled_theories o) (disabled_theories o) (cmd_line_trace o).
Definition set_untrace_file_name (v : string) (o : Options) : Options :=
  mkOptions (seed o) (verbosity o) (time o) (max_runs o) (is_seeded o)
    (trace_seeds o) (simple_symbols o) (smt o) (print_stats o) (print_fsm o)
    (arith_linear o) (fuzz_options o) (fuzz_options_filter o) (tmp_dir o)
    (out_dir o) (solver o) (solver_binary o) (solver_profile_filename o)
    (api_trace_file_name o) v (smt2_file_name o) (dd o) (dd_ignore_out o)
    (dd_ignore_err o) (dd_match_out o) (dd_match_err o) (dd_trace_file_name o)
    (cross_check o) (check_solver_name o) (check_solver o) (solver_options o)
    (enabled_theories o) (disabled_theories o) (cmd_line_trace o).
Definition set_smt2_file_name (v : string) (o : Options) : Options :=
  mkOptions (seed o) (verbosity o) (time o) (max_runs o) (is_seeded o)
    (trace_seeds o) (simple_symbols o) (smt o) (print_stats o) (print_fsm o)
    (arith_linear o) (fuzz_options o) (fuzz_options_filter o) (tmp_dir o)
    (out_dir o) (solver o) (solver_binary o) (solver_profile_filename o)
    (api_trace_file_name o) (untrace_file_name o) v (dd o) (dd_ignore_out o)
    (dd_ignore_err o) (dd_match_out o) (dd_match_err o) (dd_trace_file_name o)
    (cross_check o) (check_solver_name o) (check_solver o) (solver_options o)
    (enabled_theories o) (disabled_theories o) (cmd_line_trace o).
Definition set_dd (v : bool) (o : Options) : Options :=
  mkOptions (seed o) (verbosity o) (time o) (max_runs o) (is_seeded o)
    (trace_seeds o) (simple_symbols o) (smt o) (print_stats o) (print_fsm o)
    (arith_linear o) (fuzz_options o) (fuzz_options_filter o) (tmp_dir o)
    (out_dir o) (solver o) (solver_binary o) (solver_profile_filename o)
    (api_trace_file_name o) (untrace_file_name o) (smt2_file_name o) v
    (dd_ignore_out o) (dd_ignore_err o) (dd_match_out o) (dd_match_err o)
    (dd_trace_file_name o) (cross_check o) (check_solver_name o)
    (check_solver o) (solver_options o) (enabled_theories o)
    (disabled_theories o) (cmd_line_trace o).
Definition set_dd_ignore_out (v : bool) (o : Options) : Options :=
  mkOptions (seed o) (verbosity o) (time o) (max_runs o) (is_seeded o)
    (trace_seeds o) (simple_symbols o) (smt o) (print_stats o) (print_fsm o)
    (arith_linear o) (fuzz_options o) (fuzz_options_filter o) (tmp_dir o)
    (out_dir o) (solver o) (solver_binary o) (solver_profile_filename o)
    (api_trace_file_name o) (untrace_file_name o) (smt2_file_name o) (dd o) v
    (dd_ignore_err o) (dd_match_out o) (dd_match_err o) (dd_trace_file_name o)
    (cross_check o) (check_solver_name o) (check_solver o) (solver_options o)
    (enabled_theories o) (disabled_theories o) (cmd_line_trace o).
Definition set_dd_ignore_err (v : bool) (o : Options) : Options :=
  mkOptions (seed o) (verbosity o) (time o) (max_runs o) (is_seeded o)
    (trace_seeds o) (simple_symbols o) (smt o) (print_stats o) (print_fsm o)
    (arith_linear o) (fuzz_options o) (fuzz_options_filter o) (tmp_dir o)
    (out_dir o) (solver o) (solver_binary o) (solver_profile_filename o)
    (api_trace_file_name o) (untrace_file_name o) (smt2_file_name o) (dd o)
    (dd_ignore_out o) v (dd_match_out o) (dd_match_err o)
    (dd_trace_file_name o) (cross_check o) (check_solver_name o)
    (check_solver o) (solver_options o) (enabled_theories o)
    (disabled_theories o) (cmd_line_trace o).
Definition set_dd_match_out (v : string) (o : Options) : Options :=
  mkOptions (seed o) (verbosity o) (time o) (max_runs o) (is_seeded o)
    (trace_seeds o) (simple_symbols o) (smt o) (print_stats o) (print_fsm o)
    (arith_linear o) (fuzz_options o) (fuzz_options_filter o) (tmp_dir o)
    (out_dir o) (solver o) (solver_binary o) (solver_profile_filename o)
    (api_trace_file_name o) (untrace_file_name o) (smt2_file_name o) (dd o)
    (dd_ignore_out o) (dd_ignore_err o) v (dd_match_err o)
    (dd_trace_file_name o) (cross_check o) (check_solver_name o)
    (check_solver o) (solver_options o) (enabled_theories o)
    (disabled_theories o) (cmd_line_trace o).
Definition set_dd_match_err (v : string) (o : Options) : Options :=
  mkOptions (seed o) (verbosity o) (time o) (max_runs o) (is_seeded o)
    (trace_seeds o) (simple_symbols o) (smt o) (print_stats o) (print_fsm o)
    (arith_linear o) (fuzz_options o) (fuzz_options_filter o) (tmp_dir o)
    (out_dir o) (solver o) (solver_binary o) (solver_profile_filename o)
    (api_trace_file_name o) (untrace_file_name o) (smt2_file_name o) (dd o)
    (dd_ignore_out o) (dd_ignore_err o) (dd_match_out o) v
    (dd_trace_file_name o) (cross_check o) (check_solver_name o)
    (check_solver o) (solver_options o) (enabled_theories o)
    (disabled_theories o) (cmd_line_trace o).
Definition set_dd_trace_file_name (v : string) (o : Options) : Options :=
  mkOptions (seed o) (verbosity o) (time o) (max_runs o) (is_seeded o)
    (trace_seeds o) (simple_symbols o) (smt o) (print_stats o) (print_fsm o)
    (arith_linear o) (fuzz_options o) (fuzz_options_filter o) (tmp_dir o)
    (out_dir o) (solver o) (solver_binary o) (solver_profile_filename o)
    (api_trace_file_name o) (untrace_file_name o) (smt2_file_name o) (dd o)
    (dd_ignore_out o) (dd_ignore_err o) (dd_match_out o) (dd_match_err o) v
    (cross_check o) (check_solver_name o) (check_solver o) (solver_options o)
    (enabled_theories o) (disabled_theories o) (cmd_line_trace o).
Definition set_cross_check (v : string) (o : Options) : Options :=
  mkOptions (seed o) (verbosity o) (time o) (max_runs o) (is_seeded o)
    (trace_seeds o) (simple_symbols o) (smt o) (print_stats o) (print_fsm o)
    (arith_linear o) (fuzz_options o) (fuzz_options_filter o) (tmp_dir o)
    (out_dir o) (solver o) (solver_binary o) (solver_profile_filename o)
    (api_trace_file_name o) (untrace_file_name o) (smt2_file_name o) (dd o)
    (dd_ignore_out o) (dd_ignore_err o) (dd_match_out o) (dd_match_err o)
    (dd_trace_file_name o) v (check_solver_name o) (check_solver o)
    (solver_options o) (enabled_theories o) (disabled_theories o)
    (cmd_line_trace o).
Definition set_check_solver_name (v : string) (o : Options) : Options :=
  mkOptions (seed o) (verbosity o) (time o) (max_runs o) (is_seeded o)
    (trace_seeds o) (simple_symbols o) (smt o) (print_stats o) (print_fsm o)
    (arith_linear o) (fuzz_options o) (fuzz_options_filter o) (tmp_dir o)
    (out_dir o) (solver o) (solver_binary o) (solver_profile_filename o)
    (api_trace_file_name o) (untrace_file_name o) (smt2_file_name o) (dd o)
    (dd_ignore_out o) (dd_ignore_err o) (dd_match_out o) (dd_match_err o)
    (dd_trace_file_name o) (cross_check o) v (check_solver o)
    (solver_options o) (enabled_theories o) (disabled_theories o)
    (cmd_line_trace o).
Definition set_check_solver (v : bool) (o : Options) : Options :=
  mkOptions (seed o) (verbosity o) (time o) (max_runs o) (is_seeded o)
    (trace_seeds o) (simple_symbols o) (smt o) (print_stats o) (print_fsm o)
    (arith_linear o) (fuzz_options o) (fuzz_options_filter o) (tmp_dir o)
    (out_dir o) (solver o) (solver_binary o) (solver_profile_filename o)
    (api_trace_file_name o) (untrace_file_name o) (smt2_file_name o) (dd o)
    (dd_ignore_out o) (dd_ignore_err o) (dd_match_out o) (dd_match_err o)
    (dd_trace_file_name o) (cross_check o) (check_solver_name o) v
    (solver_options o) (enabled_theories o) (disabled_theories o)
    (cmd_line_trace o).
Definition set_solver_options (v : list (string * string)) (o : Options) : Options :=
  mkOptions (seed o) (verbosity o) (time o) (max_runs o) (is_seeded o)
    (trace_seeds o) (simple_symbols o) (smt o) (print_stats o) (print_fsm o)
    (arith_linear o) (fuzz_options o) (fuzz_options_filter o) (tmp_dir o)
    (out_dir o) (solver o) (solver_binary o) (solver_profile_filename o)
    (api_trace_file_name o) (untrace_file_name o) (smt2_file_name o) (dd o)
    (dd_ignore_out o) (dd_ignore_err o) (dd_match_out o) (dd_match_err o)
    (dd_trace_file_name o) (cross_check o) (check_solver_name o)
    (check_solver o) v (enabled_theories o) (disabled_theories o)
    (cmd_line_trace o).
Definition set_enabled_theories (v : list TheoryId) (o : Options) : Options :=
  mkOptions (seed o) (verbosity o) (time o) (max_runs o) (is_seeded o)
    (trace_seeds o) (simple_symbols o) (smt o) (print_stats o) (print_fsm o)
    (arith_linear o) (fuzz_options o) (fuzz_options_filter o) (tmp_dir o)
    (out_dir o) (solver o) (solver_binary o) (solver_profile_filename o)
    (api_trace_file_name o) (untrace_file_name o) (smt2_file_name o) (dd o)
    (dd_ignore_out o) (dd_ignore_err o) (dd_match_out o) (dd_match_err o)
    (dd_trace_file_name o) (cross_check o) (check_solver_name o)
    (check_solver o) (solver_options o) v (disabled_theories o)
    (cmd_line_trace o).
Definition set_disabled_theories (v : gset TheoryId) (o : Options) : Options :=
  mkOptions (seed o) (verbosity o) (time o) (max_runs o) (is_seeded o)
    (trace_seeds o) (simple_symbols o) (smt o) (print_stats o) (print_fsm o)
    (arith_linear o) (fuzz_options o) (fuzz_options_filter o) (tmp_dir o)
    (out_dir o) (solver o) (solver_binary o) (solver_profile_filename o)
    (api_trace_file_name o) (untrace_file_name o) (smt2_file_name o) (dd o)
    (dd_ignore_out o) (dd_ignore_err o) (dd_match_out o) (dd_match_err o)
    (dd_trace_file_name o) (cross_check o) (check_solver_name o)
    (check_solver o) (solver_options o) (enabled_theories o) v
    (cmd_line_trace o).
Definition set_cmd_line_trace (v : string) (o : Options) : Options :=
  mkOptions (seed o) (verbosity o) (time o) (max_runs o) (is_seeded o)
    (trace_seeds o) (simple_symbols o) (smt o) (print_stats o) (print_fsm o)
    (arith_linear o) (fuzz_options o) (fuzz_options_filter o) (tmp_dir o)
    (out_dir o) (solver o) (solver_binary o) (solver_profile_filename o)
    (api_trace_file_name o) (untrace_file_name o) (smt2_file_name o) (dd o)
    (dd_ignore_out o) (dd_ignore_err o) (dd_match_out o) (dd_match_err o)
    (dd_trace_file_name o) (cross_check o) (check_solver_name o)
    (check_solver o) (solver_options o) (enabled_theories o)
    (disabled_theories o) v.

(** The options together with the two file-level statics of main.cpp that
    option parsing writes. *)
Record MainState : Type := mkMainState {
  options : Options;
  g_errors_print_csv : bool;
  g_export_errors : string
}.

Definition upd (f : Options → Options) (st : MainState) : MainState :=
  mkMainState (f (options st)) (g_errors_print_csv st) (g_export_errors st).

Definition initial_state (o : Options) : MainState := mkMainState o false "".

(** ** Text helpers of the C++ library *)

(** [std::getline(trace, line)] on a freshly opened stream. *)
Fixpoint getline (content : string) : string :=
  match content with
  | EmptyString => EmptyString
  | String c rest =>
      if Ascii.eqb c (ascii_of_nat 10) then EmptyString
      else String c (getline rest)
  end.

Definition contains_char (c : ascii) (s : string) : bool :=
  existsb (Ascii.eqb c) (list_ascii_of_string s).

(** [args[i][0]]: the first character, the terminating zero for "". *)
Definition first_char (s : string) : ascii :=
  match s with
  | EmptyString => ascii_of_nat 0
  | String c _ => c
  end.

Definition digit_value (c : ascii) : option Z :=
  let n := Z.of_nat (nat_of_ascii c) in
  if (48 <=? n) && (n <=? 57) then Some (n - 48)
  else if (97 <=? n) && (n <=? 102) then Some (n - 87)
  else if (65 <=? n) && (n <=? 70) then Some (n - 55)
  else None.

(** [std::isxdigit] *)
Definition is_xdigit (c : ascii) : bool :=
  match digit_value c with Some _ => true | None => false end.

(** [std::isspace] in the "C" locale *)
Definition is_space (c : ascii) : bool :=
  let n := nat_of_ascii c in
  ((9 <=? n) && (n <=? 13))%nat || (n =? 32)%nat.

Fixpoint skip_space (cs : list ascii) : list ascii :=
  match cs with
  | c :: rest => if is_space c then skip_space rest else cs
  | [] => []
  end.

(** The digits of [base] at the front of [cs], accumulated; [None] when
    there is none. *)
Fixpoint read_digits (base : Z) (acc : option Z) (cs : list ascii) : option Z :=
  match cs with
  | [] => acc
  | c :: rest =>
      match digit_value c with
      | Some d =>
          if d <? base
          then read_digits base (Some (default 0 acc * base + d)) rest
          else acc
      | None => acc
      end
  end.

(** [ss >> options.seed] and [ss >> std::hex >> options.seed] into a
    [uint32_t], on a text without minus sign: what the extraction stores.
    The sentry skips leading white space; when the stream ends there the
    extraction fails before anything is stored ([None]) and the variable
    keeps its value.  Otherwise a plus sign is skipped, no digit stores 0,
    a value that does not fit stores the maximum. *)
Definition extract_uint32 (base : Z) (s : string) : option Z :=
  match skip_space (list_ascii_of_string s) with
  | [] => None
  | c :: rest =>
      let cs := if Ascii.eqb c "+" then rest else c :: rest in
      match read_digits base None cs with
      | None => Some 0
      | Some v => Some (if UINT32_MOD <=? v then UINT32_MOD - 1 else v)
      end
  end.

(** [std::stoi]: throws when no conversion can be performed or the value
    is out of the range of [int]. *)
Definition stoi (s : string) : result Z :=
  let cs := skip_space (list_ascii_of_string s) in
  let '(negative, cs) :=
    match cs with
    | c :: rest =>
        if Ascii.eqb c "-" then (true, rest)
        else if Ascii.eqb c "+" then (false, rest)
        else (false, cs)
    | [] => (false, [])
    end in
  match read_digits 10 None cs with
  | None => Throws "std::invalid_argument"
  | Some v =>
      let v := if negative then - v else v in
      if (v <? - 2 ^ 31) || (2 ^ 31 <=? v) then Throws "std::out_of_range"
      else Ok v
  end.

(** ** Command-line option parsing *)

Definition arg_is (arg : string) (names : list string) : bool :=
  existsb (String.eqb arg) names.

(** [i += 1; check_next_arg(option, i, size);] followed by a read of
    [args[i]]: the argument after the current one, or the error exit. *)
Definition check_next_arg (option : string) (rest : list string)
  : result string :=
  match rest with
  | [] => exit_stream EXIT_ERROR
            ("missing argument to option '" +:+ option +:+ "'")
  | value :: _ => Ok value
  end.

(** [check_solver(const SolverKind&)]; the name [check_solver] is taken by
    the member of [Options]. *)
Definition check_solver_kind (ctx : Context) (solver_kind : string)
  : result unit :=
  if String.eqb solver_kind SOLVER_BTOR then
    if MURXLA_USE_BOOLECTOR ctx then Ok tt
    else MURXLA_EXIT_ERROR true "Boolector not configured"
  else if String.eqb solver_kind SOLVER_BZLA then
    if MURXLA_USE_BITWUZLA ctx then Ok tt
    else MURXLA_EXIT_ERROR true "Bitwuzla not configured"
  else if String.eqb solver_kind SOLVER_CVC5 then
    if MURXLA_USE_CVC5 ctx then Ok tt
    else MURXLA_EXIT_ERROR true "cvc5 not configured"
  else if String.eqb solver_kind SOLVER_YICES then
    if MURXLA_USE_YICES ctx then Ok tt
    else MURXLA_EXIT_ERROR true "Yices not configured"
  else Ok tt.

Definition is_valid_solver_str (name : string) : bool :=
  String.eqb name SOLVER_BTOR || String.eqb name SOLVER_BZLA
  || String.eqb name SOLVER_CVC5 || String.eqb name SOLVER_YICES.

(** [get_options]: the loop over [argv[1..]] that moves everything but
    [-u <file>] into [args].  [check_next_arg] is handed [args.back()]; that
    reference is read only to print the message. *)
Fixpoint get_options_scan (argv : list string) (args : list string)
    (o : Options) : result (Options * list string) :=
  match argv with
  | [] => Ok (o, args)
  | arg :: rest =>
      if arg_is arg ["-u"; "--untrace"] then
        match rest with
        | [] =>
            match last args with
            | Some option => check_next_arg option []
            | None => UndefinedBehaviour "args.back() on an empty vector"
            end ≫= λ _, Ok (o, args)
        | file :: rest' => get_options_scan rest' args (set_untrace_file_name file o)
        end
      else get_options_scan rest (args ++ [arg]) o
  end.

Definition get_options (ctx : Context) (o : Options) (argv : list string)
  : result (Options * list string) :=
  '(o, args) ← get_options_scan (tail argv) [] o;
  if String.eqb (untrace_file_name o) "" then Ok (o, args)
  else
    match read_file ctx (untrace_file_name o) with
    | None => Ok (o, args)
    | Some content =>
        let line := getline content in
        if String.prefix "set-murxla-options" line then
          match split ctx line " "%char with
          | [] => UndefinedBehaviour "opts.begin() + 1 past opts.end()"
          | _ :: opts => Ok (o, opts ++ args)
          end
        else Ok (o, args)
    end.

(** The loop body for [-o] and [--cross-check-opts]. *)
Fixpoint add_solver_options (ctx : Context) (prefix : string)
    (opts : list string) (o : Options) : result Options :=
  match opts with
  | [] => Ok o
  | opt :: rest =>
      match split ctx opt "="%char with
      | [] => add_solver_options ctx prefix rest o
      | [name; value] =>
          add_solver_options ctx prefix rest
            (set_solver_options
               (solver_options o ++ [(prefix +:+ name, value)]) o)
      | _ =>
          exit_stream EXIT_ERROR
            ("invalid solver option format: '" +:+ opt
             +:+ "', expected 'name=value'")
      end
  end.

Definition flag (st : MainState) : result (MainState * bool) := Ok (st, false).

Definition valued (arg : string) (rest : list string)
    (k : string → result MainState) : result (MainState * bool) :=
  value ← check_next_arg arg rest;
  st ← k value;
  Ok (st, true).

Definition enable_theory (t : TheoryId) (st : MainState)
  : result (MainState * bool) :=
  flag (upd (λ o, set_enabled_theories (enabled_theories o ++ [t]) o) st).

Definition disable_theory (t : TheoryId) (st : MainState)
  : result (MainState * bool) :=
  flag (upd (λ o, set_disabled_theories ({[t]} ∪ disabled_theories o) o) st).

(** One iteration of the loop of [parse_options] at [arg = args[i]], with
    [rest] the arguments after it.  The Boolean tells whether the iteration
    advanced [i] over the next argument as well. *)
Definition parse_arg (ctx : Context) (st : MainState) (arg : string)
    (rest : list string) : result (MainState * bool) :=
  if arg_is arg ["-h"; "--help"] then ExitUsage
  else if arg_is arg ["-s"; "--seed"] then
    valued arg rest (λ v,
      _ ← MURXLA_EXIT_ERROR (contains_char "-" v)
            ("invalid argument to option '" +:+ arg +:+ "': " +:+ v);
      let stored := if forallb is_xdigit (list_ascii_of_string v)
                    then extract_uint32 16 v else extract_uint32 10 v in
      Ok (upd (λ o, set_is_seeded true (set_seed (default (seed o) stored) o))
              st))
  else if arg_is arg ["-t"; "--time"] then
    valued arg rest (λ v, Ok (upd (set_time v) st))
  else if arg_is arg ["-v"; "--verbosity"] then
    flag (upd (λ o, set_verbosity (wrap32 (verbosity o + 1)) o) st)
  else if arg_is arg ["-p"; "--profile"] then
    valued arg rest (λ v, Ok (upd (set_solver_profile_filename v) st))
  else if arg_is arg ["-a"; "--api-trace"] then
    valued arg rest (λ v, Ok (upd (set_api_trace_file_name v) st))
  else if arg_is arg ["-d"; "--dd"] then
    flag (upd (set_dd true) st)
  else if arg_is arg ["--dd-match-out"] then
    valued arg rest (λ v, Ok (upd (set_dd_match_out v) st))
  else if arg_is arg ["--dd-match-err"] then
    valued arg rest (λ v, Ok (upd (set_dd_match_err v) st))
  else if arg_is arg ["--dd-ignore-out"] then
    flag (upd (set_dd_ignore_out true) st)
  else if arg_is arg ["--dd-ignore-err"] then
    flag (upd (set_dd_ignore_err true) st)
  else if arg_is arg ["-D"; "--dd-trace"] then
    valued arg rest (λ v, Ok (upd (set_dd_trace_file_name v) st))
  else if arg_is arg ["-u"; "--untrace"] then
    valued arg rest (λ v, Ok (upd (set_untrace_file_name v) st))
  else if arg_is arg ["-c"; "--cross-check"] then
    valued arg rest (λ solver,
      _ ← MURXLA_EXIT_ERROR (negb (is_valid_solver_str solver))
            ("invalid argument " +:+ solver +:+ " to option '" +:+ arg
             +:+ "'");
      _ ← check_solver_kind ctx solver;
      Ok (upd (set_cross_check solver) st))
  else if arg_is arg ["--check"] then
    let st := upd (set_check_solver true) st in
    (* size > i holds in every iteration; args[i + 1] is read unguarded *)
    match rest with
    | [] => UndefinedBehaviour "args[i + 1] past the end"
    | next :: _ =>
        if is_valid_solver_str next
        then Ok (upd (set_check_solver_name next) st, true)
        else Ok (st, false)
    end
  else if arg_is arg ["--no-check"] then
    flag (upd (set_check_solver false) st)
  else if arg_is arg ["-y"; "--random-symbols"] then
    flag (upd (set_simple_symbols false) st)
  else if arg_is arg ["-T"; "--tmp-dir"] then
    valued arg rest (λ v,
      _ ← MURXLA_EXIT_ERROR (negb (is_directory ctx v))
            ("given path is not a directory '" +:+ v +:+ "'");
      Ok (upd (set_tmp_dir v) st))
  else if arg_is arg ["-O"; "--out-dir"] then
    valued arg rest (λ v,
      _ ← MURXLA_EXIT_ERROR (negb (is_directory ctx v))
            ("given path is not a directory '" +:+ v +:+ "'");
      Ok (upd (set_out_dir v) st))
  else if arg_is arg ["--btor"] then
    _ ← check_solver_kind ctx SOLVER_BTOR; flag (upd (set_solver SOLVER_BTOR) st)
  else if arg_is arg ["--bzla"] then
    _ ← check_solver_kind ctx SOLVER_BZLA; flag (upd (set_solver SOLVER_BZLA) st)
  else if arg_is arg ["--cvc5"] then
    _ ← check_solver_kind ctx SOLVER_CVC5; flag (upd (set_solver SOLVER_CVC5) st)
  else if arg_is arg ["--yices"] then
    _ ← check_solver_kind ctx SOLVER_YICES; flag (upd (set_solver SOLVER_YICES) st)
  else if arg_is arg ["--smt2"] then
    match rest with
    | next :: _ =>
        if negb (Ascii.eqb (first_char next) "-") then
          _ ← MURXLA_EXIT_ERROR (negb (String.eqb (solver (options st)) ""))
                "multiple solvers defined";
          Ok (upd (λ o, set_solver SOLVER_SMT2 (set_solver_binary next o)) st,
              true)
        else flag (upd (set_solver SOLVER_SMT2) st)
    | [] => flag (upd (set_solver SOLVER_SMT2) st)
    end
  else if arg_is arg ["-f"; "--smt2-file"] then
    valued arg rest (λ v, Ok (upd (set_smt2_file_name v) st))
  else if arg_is arg ["-o"; "--cross-check-opts"] then
    valued arg rest (λ v,
      let prefix := if String.eqb arg "--cross-check-opts"
                    then MURXLA_CHECK_SOLVER_OPT_PREFIX ctx else "" in
      o ← add_solver_options ctx prefix (split ctx v ","%char) (options st);
      Ok (upd (λ _, o) st))
  else if arg_is arg ["-S"; "--trace-seeds"] then
    flag (upd (set_trace_seeds true) st)
  else if arg_is arg ["--stats"] then
    flag (upd (set_print_stats true) st)
  else if arg_is arg ["--print-fsm"] then
    flag (upd (set_print_fsm true) st)
  else if arg_is arg ["--csv"] then
    flag (mkMainState (options st) true (g_export_errors st))
  else if arg_is arg ["--export-errors"] then
    valued arg rest (λ v,
      Ok (mkMainState (options st) (g_errors_print_csv st) v))
  else if arg_is arg ["-m"; "--max-runs"] then
    valued arg rest (λ v,
      n ← stoi v; Ok (upd (set_max_runs (wrap32 n)) st))
  else if arg_is arg ["-l"; "--smt-lib"] then
    flag (upd (set_smt true) st)
  else if arg_is arg ["--fuzz-opts"] then
    let st := upd (set_fuzz_options true) st in
    match rest with
    | next :: _ =>
        if negb (Ascii.eqb (first_char next) "-") then
          Ok (upd (λ o,
                 let filter := fuzz_options_filter o in
                 let filter := if String.eqb filter "" then filter
                               else filter +:+ "," in
                 set_fuzz_options_filter (filter +:+ next) o) st,
              true)
        else flag st
    | [] => flag st
    end
  else if arg_is arg ["--arrays"] then enable_theory THEORY_ARRAY st
  else if arg_is arg ["--bags"] then enable_theory THEORY_BAG st
  else if arg_is arg ["--bv"] then enable_theory THEORY_BV st
  else if arg_is arg ["--dt"] then enable_theory THEORY_DT st
  else if arg_is arg ["--fp"] then enable_theory THEORY_FP st
  else if arg_is arg ["--ints"] then enable_theory THEORY_INT st
  else if arg_is arg ["--quant"] then enable_theory THEORY_QUANT st
  else if arg_is arg ["--reals"] then enable_theory THEORY_REAL st
  else if arg_is arg ["--trans"] then enable_theory THEORY_TRANSCENDENTAL st
  else if arg_is arg ["--linear"] then flag (upd (set_arith_linear true) st)
  else if arg_is arg ["--seq"] then enable_theory THEORY_SEQ st
  else if arg_is arg ["--sets"] then enable_theory THEORY_SET st
  else if arg_is arg ["--strings"] then enable_theory THEORY_STRING st
  else if arg_is arg ["--uf"] then enable_theory THEORY_UF st
  else if arg_is arg ["--no-arrays"] then disable_theory THEORY_ARRAY st
  else if arg_is arg ["--no-bv"] then disable_theory THEORY_BV st
  else if arg_is arg ["--no-bags"] then disable_theory THEORY_BAG st
  else if arg_is arg ["--no-dt"] then disable_theory THEORY_DT st
  else if arg_is arg ["--no-fp"] then disable_theory THEORY_FP st
  else if arg_is arg ["--no-ints"] then disable_theory THEORY_INT st
  else if arg_is arg ["--no-quant"] then disable_theory THEORY_QUANT st
  else if arg_is arg ["--no-reals"] then disable_theory THEORY_REAL st
  else if arg_is arg ["--no-seq"] then disable_theory THEORY_SEQ st
  else if arg_is arg ["--no-sets"] then disable_theory THEORY_SET st
  else if arg_is arg ["--no-strings"] then disable_theory THEORY_STRING st
  else if arg_is arg ["--no-trans"] then
    disable_theory THEORY_TRANSCENDENTAL st
  else if arg_is arg ["--no-uf"] then disable_theory THEORY_UF st
  else exit_stream EXIT_ERROR ("unknown option '" +:+ arg +:+ "'").

(** The loop [for (i = 0; i < size; ++i)] of [parse_options]. *)
Fixpoint parse_args (ctx : Context) (st : MainState) (args : list string)
    {struct args} : result MainState :=
  match args with
  | [] => Ok st
  | arg :: rest =>
      match parse_arg ctx st arg rest with
      | Ok (st', advanced) =>
          if advanced then
            match rest with
            | [] => Ok st'
            | _ :: rest' => parse_args ctx st' rest'
            end
          else parse_args ctx st' rest
      | ExitUsage => ExitUsage
      | ExitStream c e => ExitStream c e
      | AssertFails w => AssertFails w
      | UndefinedBehaviour w => UndefinedBehaviour w
      | Throws w => Throws w
      end
  end.

(** The loop that records the command line for tracing. *)
Fixpoint record_cmd_line (args : list string) (ss : string) : result string :=
  match args with
  | [] => Ok ss
  | arg :: rest =>
      if String.eqb arg "-u" then AssertFails "args[i] != -u"
      else if String.eqb arg "--untrace" then AssertFails "args[i] != --untrace"
      else if arg_is arg ["-s"; "--seed"; "-a"; "--api-trace"] then
        match rest with
        | [] => Ok ss
        | _ :: rest' => record_cmd_line rest' ss
        end
      else if arg_is arg ["-d"; "--dd"] then record_cmd_line rest ss
      else record_cmd_line rest (ss +:+ " " +:+ arg)
  end.

(** The assignments between the two loops. *)
Definition settle_solver (o : Options) : Options :=
  let o := if String.eqb (solver o) "" then set_solver SOLVER_SMT2 o else o in
  let o := if String.eqb (solver o) SOLVER_SMT2
           then set_check_solver_name "" (set_check_solver false o) else o in
  if check_solver o && String.eqb (check_solver_name o) ""
  then set_check_solver_name (solver o) o else o.

Definition parse_options (ctx : Context) (o : Options) (argv : list string)
  : result MainState :=
  '(o, args) ← get_options ctx o argv;
  st ← parse_args ctx (initial_state o) args;
  let st := upd settle_solver st in
  line ← record_cmd_line args "set-murxla-options";
  Ok (upd (set_cmd_line_trace line) st).

(** ** [main], up to the construction of the fuzzer *)

(** [initialize_statistics]: the result of [mmap] is not tested, [memset]
    writes through it. *)
Definition initialize_statistics (ctx : Context) : result unit :=
  _ ← MURXLA_EXIT_ERROR (negb (shm_open_ok ctx))
        "failed to create shared memory file for statistics";
  _ ← (if shm_mmap_ok ctx then Ok tt
       else UndefinedBehaviour "memset through MAP_FAILED");
  MURXLA_EXIT_ERROR (negb (shm_close_ok ctx))
    "failed to close shared memory file for statistics".

(** [create_tmp_directory]: the directory [murxla-<pid>] below [tmp_dir]
    is created unless it exists, and its path is assigned to [TMP_DIR].
    Both calls into the file system may throw; [main] calls the function
    outside its [try] block. *)
Definition create_tmp_directory (ctx : Context) (tmp_dir : string)
  : result (string * string) :=
  let p := (tmp_dir, "murxla-" +:+ decimal (getpid ctx)) in
  match filesystem_exists ctx p with
  | None => Throws "filesystem::filesystem_error"
  | Some true => Ok p
  | Some false =>
      match filesystem_create_directory ctx p with
      | None => Throws "filesystem::filesystem_error"
      | Some _ => Ok p
      end
  end.

(** Where [main] stands when it enters its [try] block: the parsed options
    and [TMP_DIR], with which [Murxla murxla(stats, options, ...)] is
    constructed.  Running, tracing, replaying and delta debugging all happen
    through that object. *)
Record FuzzerStart : Type := mkFuzzerStart {
  start_state : MainState;
  start_tmp_dir : string * string
}.

Definition main (ctx : Context) (argv : list string) : result FuzzerStart :=
  _ ← initialize_statistics ctx;
  st ← parse_options ctx default_options argv;
  TMP_DIR ← create_tmp_directory ctx (tmp_dir (options st));
  let api_trace_file_name := api_trace_file_name (options st) in
  _ ← MURXLA_EXIT_ERROR
        (negb (String.eqb api_trace_file_name "")
         && String.eqb api_trace_file_name (untrace_file_name (options st)))
        "tracing into the file that is untraced is not supported";
  Ok (mkFuzzerStart st TMP_DIR).

End Cli.

(* ====================================================================== *)
(** * Concrete configurations used in examples *)
(* ====================================================================== *)

Module Examples.

(** A value generator with the single value "true"; it draws once. *)
Definition pick_bool_value (r : RNGenerator) : string * RNGenerator :=
  ("true", advance r).

Definition opt_incremental : SolverOption :=
  mkSolverOption "incremental" [] [] pick_bool_value.
Definition opt_produce_models : SolverOption :=
  mkSolverOption "produce-models" ["no-models"] ["incremental"]
                 pick_bool_value.
Definition opt_no_models : SolverOption :=
  mkSolverOption "no-models" ["produce-models"] [] pick_bool_value.
Definition opt_unsat_cores : SolverOption :=
  mkSolverOption "produce-unsat-cores" [] ["produce-models"] pick_bool_value.

Definition no_terms : TermDb := mkTermDb (λ _, false) false false.

(** Nothing set yet; the generator yields 0, 1, 2, ... *)
Definition fresh_manager (options : list SolverOption) : SolverManager :=
  initial false true (replay [0; 1; 2; 3; 4; 5]) options [] no_terms.

(** One option, already set once. *)
Definition incremental_used : SolverManager :=
  with_used_solver_options (fresh_manager [opt_incremental])
                           {["incremental"]}.

(** Every option is filtered out from the start: each depends on an option
    that has not been set (and "incremental" is not even offered). *)
Definition all_filtered : SolverManager :=
  fresh_manager [opt_unsat_cores; opt_produce_models].

(** The state a call leaves behind ([st] itself if it does not return). *)
Definition after {A : Type} (m : outcome (A * SolverManager))
    (st : SolverManager) : SolverManager :=
  match m with Returns (_, st') => st' | _ => st end.

End Examples.

Module SatExamples.
Import Examples.

(** An assumption (term 7) has been picked, no sat call has happened. *)
Definition assumed_not_checked : SolverManager :=
  with_assumptions (fresh_manager []) {[7%nat]}.

(** Random-symbol mode with a generator whose first draw selects length 0
    and whose second draw would make [flip_coin] answer [true]. *)
Definition random_symbols_len0 : SolverManager :=
  initial false false (replay [0; 1]) [] [] no_terms.

(** Random-symbol mode: length 3, coin [true]. *)
Definition random_symbols_len3 : SolverManager :=
  initial false false (replay [3; 1; 0; 1; 2]) [] [] no_terms.

End SatExamples.

Module OpExamples.
Import Examples.

Definition op_and : Op := mkOp (OpNamed "OP_AND") (-1) THEORY_BOOL (λ _, SORT_BOOL).
Definition op_not : Op := mkOp (OpNamed "OP_NOT") 1 THEORY_BOOL (λ _, SORT_BOOL).
Definition op_bv_add : Op := mkOp (OpNamed "OP_BV_ADD") (-1) THEORY_BV (λ _, SORT_BV).
Definition op_fp_add : Op :=
  mkOp (OpNamed "OP_FP_ADD") 3 THEORY_FP
       (λ i, match i with O => SORT_RM | _ => SORT_FP end).
Definition op_forall : Op :=
  mkOp FORALL 2 THEORY_QUANT
       (λ i, match i with O => SORT_ANY | _ => SORT_BOOL end).

Definition op_table : list Op := [op_and; op_not; op_bv_add; op_fp_add; op_forall].

(** Boolean and bit-vector terms exist, no variable has been created. *)
Definition bool_bv_terms : TermDb :=
  mkTermDb (λ k, match k with
                 | SORT_BOOL | SORT_BV | SORT_ANY => true
                 | _ => false
                 end)
           false true.

Definition with_bool_bv_terms : SolverManager :=
  initial false true (replay [1; 0; 5]) [] op_table bool_bv_terms.

Definition without_terms : SolverManager :=
  initial false true (replay [1; 0; 5]) [] op_table no_terms.

End OpExamples.

Module SortExamples.
Import Examples.

(** A bit-vector sort of width 8 as the solver returns it. *)
Definition bv8 : AbsSort := fresh_sort 7 false 8 [].
(** A Boolean sort as the solver returns it. *)
Definition bool_sort : AbsSort := fresh_sort 3 false 0 [].

Definition empty_db : SolverManager := fresh_manager [].

End SortExamples.

Module CliExamples.
Import Cli.

(** The tokenizer built on [std::getline(stream, token, delim)]: fields
    between delimiters, a trailing empty field is not reported. *)
Fixpoint getline_split_go (delim : ascii) (cs : list ascii) (token : string)
  : list string :=
  match cs with
  | [] => if String.eqb token "" then [] else [token]
  | c :: rest =>
      if Ascii.eqb c delim then token :: getline_split_go delim rest ""
      else getline_split_go delim rest (token +:+ String c "")
  end.

Definition getline_split (s : string) (delim : ascii) : list string :=
  getline_split_go delim (list_ascii_of_string s) "".

(** A trace whose first line carries options. *)
Definition trace_content : string :=
  "set-murxla-options --bv -t 10" +:+ endl +:+ "1 new" +:+ endl.

(** A machine with that trace stored as [run.trace], directory [/tmp], all
    solvers built in. *)
Definition machine : Context :=
  {| read_file := λ name, if String.eqb name "run.trace"
                          then Some trace_content else None;
     is_directory := λ path, String.eqb path "/tmp";
     filesystem_exists := λ _, Some false;
     filesystem_create_directory := λ _, Some true;
     split := getline_split;
     MURXLA_USE_BOOLECTOR := true;
     MURXLA_USE_BITWUZLA := true;
     MURXLA_USE_CVC5 := true;
     MURXLA_USE_YICES := true;
     MURXLA_CHECK_SOLVER_OPT_PREFIX := "check_";
     shm_open_ok := true;
     shm_close_ok := true;
     shm_mmap_ok := true;
     getpid := 4711 |}.

Definition argv_untrace : list string :=
  ["murxla"; "-u"; "run.trace"; "--stats"; "-t"; "20"].

Definition argv_seeded : list string :=
  ["murxla"; "--cvc5"; "-s"; "1f"; "--no-fp"; "-d"; "-a"; "out.trace";
   "--stats"].

Definition argv_same_file : list string :=
  ["murxla"; "-a"; "run.trace"; "-u"; "run.trace"].

(** The argument of [--dd-match-err] is spelled like a flag. *)
Definition argv_flag_like_value : list string :=
  ["murxla"; "--dd-match-err"; "-a"; "--stats"].

(** The state a successful parse leaves ([initial_state default_options]
    when it does not succeed). *)
Definition parsed (ctx : Context) (argv : list string) : MainState :=
  match parse_options ctx default_options argv with
  | Ok st => st
  | _ => initial_state default_options
  end.

End CliExamples.

(* ====================================================================== *)
(** * Specification-side predicates *)
(* ====================================================================== *)

Module Claims.
Import Murxla.

(** An option passes both filters of [pick_option]. *)
Definition admissible (used : gset string) (option : SolverOption) : bool :=
  negb (has_conflict used (get_conflicts option))
  && negb (lacks_depend used (get_depends option)).

(** Option selection, as the specification words it: the chosen option is not yet used,
    none of its conflicts is used, all of its dependencies are used, and
    its name is used afterwards. *)
Definition pick_option_claim_as_stated : Prop :=
  ∀ st name value st',
    d_solver_options st ≠ [] →
    pick_option st = Returns ((name, value), st') →
    ∃ option,
      option ∈ d_solver_options st ∧ get_name option = name
      ∧ (name ∉ d_used_solver_options st)
      ∧ (∀ c, c ∈ get_conflicts option → c ∉ d_used_solver_options st)
      ∧ (∀ d, d ∈ get_depends option → d ∈ d_used_solver_options st)
      ∧ name ∈ d_used_solver_options st'.

(** Sat reset, as the specification words it. *)
Definition reset_sat_claim_as_stated : Prop :=
  ∀ st, d_assumptions (Murxla.reset_sat st) = ∅
        ∧ d_sat_called (Murxla.reset_sat st) = false.

(** Symbols, as the specification words it: in simple mode the symbol is "_x"
    followed by the counter, which the call increments; in random mode a
    length in [0, 128] is drawn and the coin alone decides between a piped
    and a simple symbol of that length. *)
Definition pick_symbol_claim_as_stated : Prop :=
  ∀ st,
    (d_simple_symbols st = true →
     pick_symbol st
     = ("_x" +:+ decimal (d_n_symbols st),
        with_n_symbols st (wrap64 (d_n_symbols st + 1))))
    ∧ (d_simple_symbols st = false →
       let '(len, r1) := pick_range (d_rng st) 0 MURXLA_SYMBOL_LEN_MAX in
       let '(coin, r2) := flip_coin r1 in
       0 ≤ len ≤ 128
       ∧ (pick_symbol st).1
         = if coin then (pick_piped_symbol r2 len).1
           else (pick_simple_symbol r2 len).1).

(** [n] successive calls of [pick_symbol]. *)
Fixpoint pick_symbols (n : nat) (st : SolverManager)
  : list string * SolverManager :=
  match n with
  | O => ([], st)
  | S n' =>
      let '(s, st1) := pick_symbol st in
      let '(ss, st2) := pick_symbols n' st1 in
      (s :: ss, st2)
  end.

(** An operator survives both tests of the loop in [pick_op_kind]. *)
Definition qualifies (st : SolverManager) (op : Op) : bool :=
  negb (quantifier_blocked st op) && op_has_terms st op.

(** A term exists for the sort kind of every argument position the loop
    inspects: position 0 for operators of negative (variadic) arity,
    positions [0 .. d_arity - 1] otherwise. *)
Definition args_covered (st : SolverManager) (op : Op) : Prop :=
  if (d_arity op <? 0)%Z
  then has_term st (get_arg_sort_kind op 0) = true
  else ∀ i : nat, (i < Z.to_nat (d_arity op))%nat →
                  has_term st (get_arg_sort_kind op i) = true.

(** [kind] is recorded under [theory] in the map [kinds]. *)
Definition kind_in (kinds : gmap TheoryId (gset OpKind)) (theory : TheoryId)
    (kind : OpKind) : Prop :=
  ∃ ks, kinds !! theory = Some ks ∧ kind ∈ ks.

(** The sort database is coherent: ids lie in [1, d_n_sorts], no stored sort
    is unclassified, every stored sort is listed under its own kind, and the
    per-kind sets hold nothing but stored sorts. *)
Definition sort_db_invariant (st : SolverManager) : Prop :=
  0 ≤ d_n_sorts st < UINT64_MOD
  ∧ (∀ h s, d_sorts st !! h = Some s →
            sort_native s = h
            ∧ 1 ≤ get_id s ≤ d_n_sorts st
            ∧ get_kind s ≠ SORT_ANY
            ∧ ∃ set, d_sort_kind_to_sorts st !! get_kind s = Some set
                     ∧ set !! h = Some s)
  ∧ (∀ k set h s, d_sort_kind_to_sorts st !! k = Some set →
                  set !! h = Some s → d_sorts st !! h = Some s).

(** The sorts [add_sort] is handed: either straight from the solver (kind
    [SORT_ANY], id 0), or a sort object that is already in the database. *)
Definition sort_argument (st : SolverManager) (sort : AbsSort) : Prop :=
  (get_kind sort = SORT_ANY ∧ get_id sort = 0)
  ∨ d_sorts st !! sort_native sort = Some sort.

(** A run of [add_sort] calls on such arguments, each of which returns. *)
Inductive sort_calls (add : SolverManager → AbsSort → SortKind →
                            outcome (AbsSort * SolverManager))
  : SolverManager → list (AbsSort * SortKind) → SolverManager → Prop :=
| sort_calls_nil st : sort_calls add st [] st
| sort_calls_cons st sort sort_kind sort' st' rest st'' :
    sort_argument st sort →
    add st sort sort_kind = Returns (sort', st') →
    sort_calls add st' rest st'' →
    sort_calls add st ((sort, sort_kind) :: rest) st''.

(** *** Command line *)

(** The flags the recorded configuration line leaves out together with the
    argument that follows them, and those it leaves out alone. *)
Definition dropped_with_value : list string :=
  ["-s"; "--seed"; "-a"; "--api-trace"].
Definition dropped_alone : list string := ["-d"; "--dd"].
Definition untrace_flags : list string := ["-u"; "--untrace"].

(** [kept] is what remains of [args] once every [-s], [--seed], [-a],
    [--api-trace] has been removed together with the argument after it and
    every [-d], [--dd] has been removed; all other arguments stay, in their
    order.  No rule lets [-u] or [--untrace] through. *)
Inductive recorded : list string → list string → Prop :=
| recorded_nil : recorded [] []
| recorded_drop_value flag value rest kept :
    Cli.arg_is flag dropped_with_value = true →
    recorded rest kept →
    recorded (flag :: value :: rest) kept
| recorded_drop_last flag :
    Cli.arg_is flag dropped_with_value = true →
    recorded [flag] []
| recorded_drop flag rest kept :
    Cli.arg_is flag dropped_alone = true →
    recorded rest kept →
    recorded (flag :: rest) kept
| recorded_keep arg rest kept :
    Cli.arg_is arg (untrace_flags ++ dropped_with_value ++ dropped_alone)
    = false →
    recorded rest kept →
    recorded (arg :: rest) (arg :: kept).

(** The kept arguments, each behind one blank. *)
Fixpoint join_args (kept : list string) : string :=
  match kept with
  | [] => ""
  | arg :: rest => " " +:+ arg +:+ join_args rest
  end.

(** The flags that disable a theory. *)
Definition no_theory_flags : list (string * TheoryId) :=
  [("--no-arrays", THEORY_ARRAY); ("--no-bv", THEORY_BV);
   ("--no-bags", THEORY_BAG); ("--no-dt", THEORY_DT);
   ("--no-fp", THEORY_FP); ("--no-ints", THEORY_INT);
   ("--no-quant", THEORY_QUANT); ("--no-reals", THEORY_REAL);
   ("--no-seq", THEORY_SEQ); ("--no-sets", THEORY_SET);
   ("--no-strings", THEORY_STRING); ("--no-trans", THEORY_TRANSCENDENTAL);
   ("--no-uf", THEORY_UF)].

(** *** Operator kinds *)







(** *** Theory options *)

(** The options that enable a theory. *)
Definition theory_flags : list (string * TheoryId) :=
  [("--arrays", THEORY_ARRAY); ("--bags", THEORY_BAG); ("--bv", THEORY_BV);
   ("--dt", THEORY_DT); ("--fp", THEORY_FP); ("--ints", THEORY_INT);
   ("--quant", THEORY_QUANT); ("--reals", THEORY_REAL);
   ("--trans", THEORY_TRANSCENDENTAL); ("--seq", THEORY_SEQ);
   ("--sets", THEORY_SET); ("--strings", THEORY_STRING);
   ("--uf", THEORY_UF)].

Fixpoint lookup_flag (flags : list (string * TheoryId)) (arg : string)
  : option TheoryId :=
  match flags with
  | [] => None
  | (flag, theory) :: rest =>
      if String.eqb arg flag then Some theory else lookup_flag rest arg
  end.

(** The theories the arguments name, in the order of the arguments. *)
Definition theories_named (args : list string) : list TheoryId :=
  omap (lookup_flag theory_flags) args.

(** Every argument is an option that enables a theory. *)
Definition theory_options (args : list string) : Prop :=
  ∀ arg, arg ∈ args → is_Some (lookup_flag theory_flags arg).

(** The effect of such options: their theories are appended to
    [enabled_theories]. *)
Definition enable_theories (theories : list TheoryId) (st : Cli.MainState)
  : Cli.MainState :=
  Cli.upd (λ o, Cli.set_enabled_theories (Cli.enabled_theories o ++ theories)
                                         o) st.

End Claims.
Import Claims.

(* ====================================================================== *)
(** * solver_manager.cpp, namespace murxla: the other member functions *)
(* ====================================================================== *)

Module Smgr.

(** [Solver::Result] (solver.hpp). *)
Inductive Result : Set := UNKNOWN | SAT | UNSAT.

(** [SortKindData] as [add_sort_kinds] constructs it and [pick_theory] reads
    it: sort kind, arity and theory.  The projections carry the prefix
    [skd], since [d_kind] and [d_theory] name the members of [Op]. *)
Record SortKindData : Type := mkSortKindData {
  skd_kind : SortKind;
  skd_arity : Z;
  skd_theory : TheoryId
}.

(** config.hpp: [mk_term] with at least one argument. *)
Definition MURXLA_MK_TERM_N_ARGS : Z := -1.

(** The member functions of [TermDb] (term_db.hpp, not among the embedded
    sources) that the solver manager calls beyond the three of [TermDb]
    above, as they answer in the current state of the database.  The
    picking functions draw from the generator they are handed, which is the
    one the manager shares with the database. *)
Record TermDbCalls : Type := mkTermDbCalls {
  (** [has_term()] *)
  db_has_any_term : bool;
  (** [has_term(Sort)] *)
  db_has_term_of_sort : AbsSort → bool;
  (** [get_sorts()] *)
  db_get_sorts : SortSet;
  (** [pick_sort_kind()] *)
  db_pick_sort_kind : RNGenerator → outcome (SortKind * RNGenerator);
  (** [pick_sort(SortKind)] *)
  db_pick_sort : SortKind → RNGenerator → outcome (AbsSort * RNGenerator);
  (** [pick_term(SortKind, size_t level)] *)
  db_pick_term : SortKind → Z → RNGenerator → outcome (nat * RNGenerator);
  (** [get_term(uint64_t)]: the term with that id, or [nullptr] *)
  db_get_term : Z → option nat
}.

(** What these functions ask of the solver under test and of the objects
    around the manager: the virtuals [Solver::get_supported_theories] and
    [AbsSort::is_bv], the sort a term carries ([AbsTerm::get_sort]), and
    what [TermDb::clear] and [TermDb::reset] leave of the database. *)
Record Backend : Type := mkBackend {
  get_supported_theories : list TheoryId;
  is_bv : AbsSort → bool;
  term_get_sort : nat → AbsSort;
  term_db_clear : TermDb * TermDbCalls → TermDb * TermDbCalls;
  term_db_reset : TermDb * TermDbCalls → TermDb * TermDbCalls
}.

(** [SolverManager] with the further members these functions touch;
    [members] holds the ones declared above.  A [Term] is the handle of its
    back-end object, [None] the null pointer. *)
Record Manager : Type := mkManager {
  members : SolverManager;
  d_term_db_calls : TermDbCalls;
  d_enabled_theories : gset TheoryId;
  d_sort_kinds : gmap SortKind SortKindData;
  d_n_sort_terms : gmap SortKind Z;
  d_string_char_values : gset nat;
  d_untraced_terms : gmap Z (option nat);
  d_untraced_sorts : gmap Z AbsSort;
  d_pending_get_sorts : list nat;
  d_incremental : bool;
  d_model_gen : bool;
  d_unsat_assumptions : bool;
  d_unsat_cores : bool;
  d_n_push_levels : Z;
  d_sat_result : Result;
  d_n_sat_calls : Z;
  d_n_terms : Z
}.

Definition with_members (m : Manager) (st : SolverManager) : Manager :=
  mkManager st (d_term_db_calls m) (d_enabled_theories m) (d_sort_kinds m)
    (d_n_sort_terms m) (d_string_char_values m) (d_untraced_terms m)
    (d_untraced_sorts m) (d_pending_get_sorts m) (d_incremental m)
    (d_model_gen m) (d_unsat_assumptions m) (d_unsat_cores m)
    (d_n_push_levels m) (d_sat_result m) (d_n_sat_calls m) (d_n_terms m).

Definition with_enabled_theories (m : Manager) (theories : gset TheoryId)
  : Manager :=
  mkManager (members m) (d_term_db_calls m) theories (d_sort_kinds m)
    (d_n_sort_terms m) (d_string_char_values m) (d_untraced_terms m)
    (d_untraced_sorts m) (d_pending_get_sorts m) (d_incremental m)
    (d_model_gen m) (d_unsat_assumptions m) (d_unsat_cores m)
    (d_n_push_levels m) (d_sat_result m) (d_n_sat_calls m) (d_n_terms m).

Definition with_sort_kinds (m : Manager)
    (kinds : gmap SortKind SortKindData) : Manager :=
  mkManager (members m) (d_term_db_calls m) (d_enabled_theories m) kinds
    (d_n_sort_terms m) (d_string_char_values m) (d_untraced_terms m)
    (d_untraced_sorts m) (d_pending_get_sorts m) (d_incremental m)
    (d_model_gen m) (d_unsat_assumptions m) (d_unsat_cores m)
    (d_n_push_levels m) (d_sat_result m) (d_n_sat_calls m) (d_n_terms m).

Definition with_string_char_values (m : Manager) (values : gset nat)
  : Manager :=
  mkManager (members m) (d_term_db_calls m) (d_enabled_theories m)
    (d_sort_kinds m) (d_n_sort_terms m) values (d_untraced_terms m)
    (d_untraced_sorts m) (d_pending_get_sorts m) (d_incremental m)
    (d_model_gen m) (d_unsat_assumptions m) (d_unsat_cores m)
    (d_n_push_levels m) (d_sat_result m) (d_n_sat_calls m) (d_n_terms m).

Definition with_untraced_terms (m : Manager) (terms : gmap Z (option nat))
  : Manager :=
  mkManager (members m) (d_term_db_calls m) (d_enabled_theories m)
    (d_sort_kinds m) (d_n_sort_terms m) (d_string_char_values m) terms
    (d_untraced_sorts m) (d_pending_get_sorts m) (d_incremental m)
    (d_model_gen m) (d_unsat_assumptions m) (d_unsat_cores m)
    (d_n_push_levels m) (d_sat_result m) (d_n_sat_calls m) (d_n_terms m).

Definition with_untraced_sorts (m : Manager) (sorts : gmap Z AbsSort)
  : Manager :=
  mkManager (members m) (d_term_db_calls m) (d_enabled_theories m)
    (d_sort_kinds m) (d_n_sort_terms m) (d_string_char_values m)
    (d_untraced_terms m) sorts (d_pending_get_sorts m) (d_incremental m)
    (d_model_gen m) (d_unsat_assumptions m) (d_unsat_cores m)
    (d_n_push_levels m) (d_sat_result m) (d_n_sat_calls m) (d_n_terms m).

Definition with_term_db (st : SolverManager) (db : TermDb) : SolverManager :=
  mkSolverManager (d_arith_subtyping st) (d_simple_symbols st) (d_rng st)
    (d_solver_options st) (d_used_solver_options st) (d_op_kinds st)
    db (d_sorts st) (d_sort_kind_to_sorts st)
    (d_assumptions st) (d_n_sorts st) (d_n_symbols st) (d_stats_sorts st)
    (d_sat_called st).

(** The iteration sequence of a [SortSet]. *)
Definition sorts_of (set : SortSet) : list AbsSort :=
  map snd (map_to_list set).

(** [operator==(const Sort&, const Sort&)] (declared in solver.hpp).
    Modelled from the spec: the body is in solver.cpp; section 5 has
    equality of sorts delegated to the native objects. *)
Definition sort_eq (a b : AbsSort) : bool :=
  bool_decide (sort_native a = sort_native b).

(** ** [clear], [reset] *)

Definition clear (b : Backend) (m : Manager) : Manager :=
  let st := members m in
  let st := with_sorts st ∅ (d_n_sorts st) (d_stats_sorts st) in
  let st := with_sort_kind_to_sorts st ∅ in
  let st := with_assumptions st ∅ in
  let '(db, calls) := term_db_clear b (d_term_db st, d_term_db_calls m) in
  let st := with_term_db st db in
  mkManager st calls (d_enabled_theories m) (d_sort_kinds m)
    ∅ ∅ ∅ ∅ (d_pending_get_sorts m) (d_incremental m)
    (d_model_gen m) (d_unsat_assumptions m) (d_unsat_cores m)
    (d_n_push_levels m) (d_sat_result m) (d_n_sat_calls m) (d_n_terms m).

Definition reset (b : Backend) (m : Manager) : Manager :=
  let m := clear b m in
  let st := members m in
  let '(db, calls) := term_db_reset b (d_term_db st, d_term_db_calls m) in
  let st := with_term_db st db in
  let st := with_used_solver_options st ∅ in
  let st := with_sat_called st false in
  let st := with_sorts st (d_sorts st) 0 (d_stats_sorts st) in
  let st := with_n_symbols st 0 in
  mkManager st calls (d_enabled_theories m) (d_sort_kinds m)
    (d_n_sort_terms m) (d_string_char_values m) (d_untraced_terms m)
    (d_untraced_sorts m) [] false false false false 0 UNKNOWN 0 0.

(** ** [set_rng], [get_rng] *)

Definition set_rng (m : Manager) (rng : RNGenerator) : Manager :=
  with_members m (with_rng (members m) rng).

Definition get_rng (m : Manager) : RNGenerator := d_rng (members m).

(** ** Theories *)

Definition get_enabled_theories (m : Manager) : gset TheoryId :=
  d_enabled_theories m.

Definition disable_theory (m : Manager) (theory : TheoryId) : Manager :=
  if bool_decide (theory ∈ d_enabled_theories m)
  then with_enabled_theories m (d_enabled_theories m ∖ {[theory]})
  else m.

(** [operator<] on the enumerators. *)
Definition theory_lt (a b : TheoryId) : bool :=
  (TheoryId_to_nat a <? TheoryId_to_nat b)%nat.

(** [std::sort] with [operator<]: insertion into the sorted prefix. *)
Fixpoint sorted_insert (x : TheoryId) (xs : list TheoryId) : list TheoryId :=
  match xs with
  | [] => [x]
  | y :: ys => if theory_lt y x then y :: sorted_insert x ys else x :: xs
  end.

Definition std_sort (xs : list TheoryId) : list TheoryId :=
  foldr sorted_insert [] xs.

(** [std::set_intersection] on two sorted ranges: the smaller front element
    is skipped, equivalent front elements are copied from the first range
    and both ranges advance. *)
Fixpoint set_intersection (xs ys : list TheoryId) : list TheoryId :=
  match xs with
  | [] => []
  | x :: xs' =>
      (fix second (ys : list TheoryId) : list TheoryId :=
         match ys with
         | [] => []
         | y :: ys' =>
             if theory_lt x y then set_intersection xs' ys
             else if theory_lt y x then second ys'
             else x :: set_intersection xs' ys'
         end) ys
  end.

(** The loop [for (t = 0; t < THEORY_ALL; ++t)]. *)
Definition theories_below_all : list TheoryId :=
  map TheoryId_of_nat (seq 0 (TheoryId_to_nat THEORY_ALL)).

(** The vector [all_theories] before it is sorted. *)
Definition requested_theories (enabled_theories : list TheoryId)
  : list TheoryId :=
  match enabled_theories with
  | [] => theories_below_all
  | _ => enabled_theories ++ [THEORY_BOOL]
  end.

Definition add_enabled_theories (b : Backend) (m : Manager)
    (enabled_theories : list TheoryId) : Manager :=
  let solver_theories := get_supported_theories b in
  let all_theories := std_sort (requested_theories enabled_theories) in
  let solver_theories := std_sort solver_theories in
  let tmp := set_intersection all_theories solver_theories in
  with_enabled_theories m (list_to_set tmp).

(** [std::unordered_map::emplace]: no effect when the key is present. *)
Definition emplace `{Countable K} {V : Type} (k : K) (v : V) (m : gmap K V)
  : gmap K V :=
  match m !! k with
  | Some _ => m
  | None => <[k := v]> m
  end.

(** The [switch] of [add_sort_kinds] for one theory. *)
Definition add_sort_kinds_of (theory : TheoryId)
    (kinds : gmap SortKind SortKindData)
  : outcome (gmap SortKind SortKindData) :=
  match theory with
  | THEORY_ARRAY =>
      Returns (emplace SORT_ARRAY
                 (mkSortKindData SORT_ARRAY 2 THEORY_ARRAY) kinds)
  | THEORY_BOOL =>
      Returns (emplace SORT_BOOL
                 (mkSortKindData SORT_BOOL 0 THEORY_BOOL) kinds)
  | THEORY_BV =>
      Returns (emplace SORT_BV (mkSortKindData SORT_BV 0 THEORY_BV) kinds)
  | THEORY_INT =>
      Returns (emplace SORT_INT (mkSortKindData SORT_INT 0 THEORY_INT) kinds)
  | THEORY_REAL =>
      Returns (emplace SORT_REAL
                 (mkSortKindData SORT_REAL 0 THEORY_REAL) kinds)
  | THEORY_FP =>
      Returns (emplace SORT_FP (mkSortKindData SORT_FP 0 THEORY_FP)
                 (emplace SORT_RM (mkSortKindData SORT_RM 0 THEORY_FP)
                    kinds))
  | THEORY_QUANT => Returns kinds
  | THEORY_STRING =>
      Returns (emplace SORT_REGLAN
                 (mkSortKindData SORT_REGLAN 0 THEORY_STRING)
                 (emplace SORT_STRING
                    (mkSortKindData SORT_STRING 0 THEORY_STRING) kinds))
  | THEORY_UF =>
      Returns (emplace SORT_FUN
                 (mkSortKindData SORT_FUN MURXLA_MK_TERM_N_ARGS THEORY_UF)
                 kinds)
  | _ => AssertionFailed "false"
  end.

(** The loop over [d_enabled_theories]. *)
Fixpoint add_sort_kinds_loop (theories : list TheoryId)
    (kinds : gmap SortKind SortKindData)
  : outcome (gmap SortKind SortKindData) :=
  match theories with
  | [] => Returns kinds
  | theory :: rest =>
      kinds ← add_sort_kinds_of theory kinds;
      add_sort_kinds_loop rest kinds
  end.

Definition add_sort_kinds (m : Manager) : outcome Manager :=
  _ ← assert_that (negb (bool_decide (size (d_enabled_theories m) = 0%nat)))
        "d_enabled_theories.size()";
  kinds ← add_sort_kinds_loop (elements (d_enabled_theories m))
            (d_sort_kinds m);
  Returns (with_sort_kinds m kinds).

(** [pick_kind<TKind, TKindData, TKindMap>(map)]: the iterator advanced by
    [pick() % map.size()]. *)
Definition pick_kind `{Countable K} {V : Type} (m : Manager) (map : gmap K V)
  : outcome (V * Manager) :=
  _ ← assert_that (negb (bool_decide (size map = 0%nat))) "!map.empty()";
  let '(v, r) := pick_uint32 (get_rng m) in
  match map_to_list map !! Z.to_nat (v mod Z.of_nat (size map)) with
  | Some (_, data) => Returns (data, set_rng m r)
  | None => Undefined "iterator advanced past end()"
  end.

Definition pick_sort_kind_data (m : Manager)
  : outcome (SortKindData * Manager) :=
  pick_kind m (d_sort_kinds m).

(** ** Terms *)

Definition get_n_terms (m : Manager) : Z := d_n_terms m.

Definition get_n_terms_of (m : Manager) (sort_kind : SortKind) : Z :=
  match d_n_sort_terms m !! sort_kind with
  | None => 0
  | Some n => n
  end.

Definition has_term (m : Manager) : bool :=
  db_has_any_term (d_term_db_calls m).

Definition has_term_of_kind (m : Manager) (sort_kind : SortKind) : bool :=
  Murxla.has_term (members m) sort_kind.

Definition has_term_of_sort (m : Manager) (sort : AbsSort) : bool :=
  db_has_term_of_sort (d_term_db_calls m) sort.

Definition has_var (m : Manager) : bool := db_has_var (d_term_db (members m)).

Definition has_quant_body (m : Manager) : bool :=
  db_has_quant_body (d_term_db (members m)).

Definition add_string_char_value (m : Manager) (term : nat) : Manager :=
  with_string_char_values m ({[term]} ∪ d_string_char_values m).

Definition has_string_char_value (m : Manager) : bool :=
  negb (bool_decide (d_string_char_values m = ∅)).

Definition pick_string_char_value (m : Manager) : outcome (nat * Manager) :=
  _ ← assert_that (has_string_char_value m) "has_string_char_value()";
  '(term, r) ← pick_from_set (get_rng m) (elements (d_string_char_values m));
  Returns (term, set_rng m r).

(** [pick_term(SortKind, size_t level)] *)
Definition pick_term_at (m : Manager) (sort_kind : SortKind) (level : Z)
  : outcome (nat * Manager) :=
  '(term, r) ← db_pick_term (d_term_db_calls m) sort_kind level (get_rng m);
  Returns (term, set_rng m r).

(** ** Theory selection *)

Definition has_theory (m : Manager) (with_terms : bool) : bool :=
  if with_terms then
    has_term m
    && (negb (has_term_of_kind m SORT_RM) || has_term_of_kind m SORT_FP)
  else negb (bool_decide (size (d_enabled_theories m) = 0%nat)).

(** The loop [for (i = 0; i < SORT_ANY; ++i)] of [pick_theory], at the sort
    kinds still to visit.  Dereferencing [d_sort_kinds.find(sort_kind)]
    when it is [end()] is undefined. *)
Fixpoint collect_theories (m : Manager) (sort_kinds : list SortKind)
    (theories : gset TheoryId) : outcome (gset TheoryId) :=
  match sort_kinds with
  | [] => Returns theories
  | sort_kind :: rest =>
      if bool_decide (sort_kind = SORT_RM)
      then collect_theories m rest theories
      else if has_term_of_kind m sort_kind then
        match d_sort_kinds m !! sort_kind with
        | None => Undefined "d_sort_kinds.find(sort_kind) == end()"
        | Some data =>
            let theory := skd_theory data in
            _ ← assert_that (bool_decide (theory ∈ d_enabled_theories m))
                  "theory is enabled";
            collect_theories m rest ({[theory]} ∪ theories)
        end
      else collect_theories m rest theories
  end.

Definition sort_kinds_below_any : list SortKind :=
  map SortKind_of_nat (seq 0 (SortKind_to_nat SORT_ANY)).

Definition pick_theory (m : Manager) (with_terms : bool)
  : outcome (TheoryId * Manager) :=
  if with_terms then
    theories ← collect_theories m sort_kinds_below_any ∅;
    '(theory, r) ← pick_from_set (get_rng m) (elements theories);
    Returns (theory, set_rng m r)
  else
    '(theory, r) ← pick_from_set (get_rng m)
                     (elements (d_enabled_theories m));
    Returns (theory, set_rng m r).

(** ** Assumptions *)

Definition has_assumed (m : Manager) : bool :=
  negb (bool_decide (d_assumptions (members m) = ∅)).

Definition is_assumed (m : Manager) (term : nat) : bool :=
  bool_decide (term ∈ d_assumptions (members m)).

Definition pick_assumption (m : Manager) : outcome (nat * Manager) :=
  _ ← assert_that (has_term_of_kind m SORT_BOOL) "has_term(SORT_BOOL)";
  '(res, m) ← pick_term_at m SORT_BOOL 0;
  let st := members m in
  Returns (res,
           with_members m (with_assumptions st ({[res]} ∪ d_assumptions st))).

Definition pick_assumed_assumption (m : Manager) : outcome (nat * Manager) :=
  _ ← assert_that (has_assumed m) "has_assumed()";
  '(term, r) ← pick_from_set (get_rng m)
                 (elements (d_assumptions (members m)));
  Returns (term, set_rng m r).

Definition clear_assumptions (m : Manager) : Manager :=
  with_members m (Murxla.clear_assumptions (members m)).

Definition reset_sat (m : Manager) : Manager :=
  with_members m (Murxla.reset_sat (members m)).

(** ** The untrace registry *)

(** [get_term(uint64_t id)] *)
Definition get_term (m : Manager) (id : Z) : option nat :=
  match d_untraced_terms m !! id with
  | Some term => term
  | None => None
  end.

(** [register_term(untraced_id, term_id)].  [t->get_sort()] and
    [term->get_sort()] dereference the two pointers. *)
Definition register_term (b : Backend) (m : Manager)
    (untraced_id term_id : Z) : outcome Manager :=
  let term := db_get_term (d_term_db_calls m) term_id in
  match d_untraced_terms m !! untraced_id with
  | Some _ =>
      match get_term m untraced_id, term with
      | Some t, Some term =>
          _ ← assert_that (sort_eq (term_get_sort b t) (term_get_sort b term))
                "t->get_sort() == term->get_sort()";
          Returns m
      | _, _ => Undefined "get_sort() on a null Term"
      end
  | None =>
      Returns (with_untraced_terms m
                 (<[untraced_id := term]> (d_untraced_terms m)))
  end.

(** [get_sort(uint64_t id)] *)
Definition get_sort (m : Manager) (id : Z) : option AbsSort :=
  d_untraced_sorts m !! id.

(** The loop of [register_sort] over [d_sorts] with its [break]. *)
Fixpoint find_sort_by_id (sorts : list AbsSort) (sort_id : Z)
  : option AbsSort :=
  match sorts with
  | [] => None
  | s :: rest =>
      if bool_decide (get_id s = sort_id) then Some s
      else find_sort_by_id rest sort_id
  end.

Definition register_sort (m : Manager) (untraced_id sort_id : Z)
  : outcome (bool * Manager) :=
  match find_sort_by_id (sorts_of (d_sorts (members m))) sort_id with
  | None => Returns (false, m)
  | Some sort =>
      match get_sort m untraced_id with
      | Some s =>
          _ ← assert_that (sort_eq s sort) "s == sort";
          Returns (true, m)
      | None =>
          Returns (true,
                   with_untraced_sorts m
                     (<[untraced_id := sort]> (d_untraced_sorts m)))
      end
  end.

(** ** Sorts *)

(** [has_sort()] *)
Definition has_sort (m : Manager) : bool :=
  negb (bool_decide (d_sorts (members m) = ∅)).

(** [has_sort(SortKind)] *)
Definition has_sort_of_kind (m : Manager) (sort_kind : SortKind) : bool :=
  if bool_decide (sort_kind = SORT_ANY) then has_sort m
  else
    match d_sort_kinds m !! sort_kind with
    | None => false
    | Some _ =>
        match d_sort_kind_to_sorts (members m) !! sort_kind with
        | None => false
        | Some sorts => negb (bool_decide (sorts = ∅))
        end
    end.

(** [has_sort(Sort)] *)
Definition has_sort_interned (m : Manager) (sort : AbsSort) : bool :=
  bool_decide (is_Some (d_sorts (members m) !! sort_native sort)).

(** [has_sort(const std::unordered_set<SortKind>& exclude_sorts)] *)
Definition has_sort_excluding (m : Manager) (exclude_sorts : gset SortKind)
  : bool :=
  existsb (λ s, bool_decide (get_kind s ∉ exclude_sorts))
          (sorts_of (d_sorts (members m))).

Definition set_n_sorts (m : Manager) (id : Z) : Manager :=
  let st := members m in
  with_members m (with_sorts st (d_sorts st) id (d_stats_sorts st)).

Definition find_sort (m : Manager) (sort : AbsSort) : AbsSort :=
  match d_sorts (members m) !! sort_native sort with
  | None => sort
  | Some found => found
  end.

Definition pick_sort_kind (m : Manager) (with_terms : bool)
  : outcome (SortKind * Manager) :=
  _ ← assert_that
        (negb (bool_decide (size (d_sort_kind_to_sorts (members m)) = 0%nat)))
        "!d_sort_kind_to_sorts.empty()";
  if with_terms then
    '(sort_kind, r) ← db_pick_sort_kind (d_term_db_calls m) (get_rng m);
    Returns (sort_kind, set_rng m r)
  else
    '(sort_kind, r) ←
      pick_from_set (get_rng m)
        (map fst (map_to_list (d_sort_kind_to_sorts (members m))));
    Returns (sort_kind, set_rng m r).

(** [pick_sort()] *)
Definition pick_sort (m : Manager) : outcome (AbsSort * Manager) :=
  '(res, r) ← pick_from_set (get_rng m) (sorts_of (d_sorts (members m)));
  _ ← assert_that (negb (bool_decide (get_id res = 0))) "res->get_id()";
  Returns (res, set_rng m r).

(** [pick_sort(SortKind sort_kind, bool with_terms)].  [at] on a key that
    is not in the map throws [std::out_of_range]; [outcome] has no
    constructor of its own for an exception, the throw is recorded under
    [Undefined] with that text. *)
Definition pick_sort_of_kind (m : Manager) (sort_kind : SortKind)
    (with_terms : bool) : outcome (AbsSort * Manager) :=
  _ ← assert_that (negb with_terms || has_term_of_kind m sort_kind)
        "!with_terms || has_term(sort_kind)";
  '(sort_kind, m) ←
    (if bool_decide (sort_kind = SORT_ANY) then pick_sort_kind m with_terms
     else Returns (sort_kind, m));
  '(res, m) ←
    (if with_terms then
       '(res, r) ← db_pick_sort (d_term_db_calls m) sort_kind (get_rng m);
       Returns (res, set_rng m r)
     else
       _ ← assert_that (has_sort_of_kind m sort_kind) "has_sort(sort_kind)";
       match d_sort_kind_to_sorts (members m) !! sort_kind with
       | None => Undefined "std::out_of_range thrown by at()"
       | Some sorts =>
           '(res, r) ← pick_from_set (get_rng m) (sorts_of sorts);
           Returns (res, set_rng m r)
       end);
  _ ← assert_that (negb (bool_decide (get_id res = 0))) "res->get_id()";
  Returns (res, m).

(** The set [sorts] that [pick_sort(exclude_sorts, with_terms)] fills. *)
Definition sorts_excluding (m : Manager) (exclude_sorts : gset SortKind)
    (with_terms : bool) : SortSet :=
  filter (λ hs, (get_kind (snd hs) ∉ exclude_sorts)
                ∧ (with_terms = false ∨ has_term_of_sort m (snd hs) = true))
         (d_sorts (members m)).

(** [pick_sort(const SortKindSet& exclude_sorts, bool with_terms)]; [None]
    is the null pointer. *)
Definition pick_sort_excluding (m : Manager) (exclude_sorts : gset SortKind)
    (with_terms : bool) : outcome (option AbsSort * Manager) :=
  let sorts := sorts_excluding m exclude_sorts with_terms in
  if bool_decide (size sorts = 0%nat) then Returns (None, m)
  else
    '(res, r) ← pick_from_set (get_rng m) (sorts_of sorts);
    _ ← assert_that (negb (bool_decide (get_id res = 0))) "res->get_id()";
    Returns (Some res, set_rng m r).

(** [const SortSet sorts = with_terms ? d_term_db.get_sorts() : d_sorts] *)
Definition sorts_for (m : Manager) (with_terms : bool) : SortSet :=
  if with_terms then db_get_sorts (d_term_db_calls m)
  else d_sorts (members m).

Definition has_sort_bv (b : Backend) (m : Manager) (bw : Z)
    (with_terms : bool) : bool :=
  existsb (λ sort, is_bv b sort && bool_decide (get_bv_size sort = bw))
          (sorts_of (sorts_for m with_terms)).

Definition has_sort_bv_max (b : Backend) (m : Manager) (bw_max : Z)
    (with_terms : bool) : bool :=
  existsb (λ sort, is_bv b sort && bool_decide (get_bv_size sort ≤ bw_max))
          (sorts_of (sorts_for m with_terms)).

(** The loop of [pick_sort_bv]: the first bit-vector sort of the width. *)
Fixpoint first_sort_bv (b : Backend) (bw : Z) (sorts : list AbsSort)
  : outcome AbsSort :=
  match sorts with
  | [] => AssertionFailed "false"
  | sort :: rest =>
      if is_bv b sort && bool_decide (get_bv_size sort = bw) then
        _ ← assert_that (negb (bool_decide (get_id sort = 0)))
              "sort->get_id()";
        Returns sort
      else first_sort_bv b bw rest
  end.

Definition pick_sort_bv (b : Backend) (m : Manager) (bw : Z)
    (with_terms : bool) : outcome AbsSort :=
  _ ← assert_that (has_sort_bv b m bw with_terms)
        "has_sort_bv(bw, with_terms)";
  first_sort_bv b bw (sorts_of (sorts_for m with_terms)).

(** The loop of [pick_sort_bv_max] filling the vector [bv_sorts]. *)
Fixpoint collect_sorts_bv_max (b : Backend) (bw_max : Z)
    (sorts : list AbsSort) (bv_sorts : list AbsSort) : list AbsSort :=
  match sorts with
  | [] => bv_sorts
  | sort :: rest =>
      if is_bv b sort && bool_decide (get_bv_size sort ≤ bw_max)
      then collect_sorts_bv_max b bw_max rest (bv_sorts ++ [sort])
      else collect_sorts_bv_max b bw_max rest bv_sorts
  end.

Definition pick_sort_bv_max (b : Backend) (m : Manager) (bw_max : Z)
    (with_terms : bool) : outcome (AbsSort * Manager) :=
  _ ← assert_that (has_sort_bv_max b m bw_max with_terms)
        "has_sort_bv_max(bw_max, with_terms)";
  let bv_sorts :=
    collect_sorts_bv_max b bw_max (sorts_of (sorts_for m with_terms)) [] in
  _ ← assert_that (negb (bool_decide (length bv_sorts = 0%nat)))
        "bv_sorts.size() > 0";
  '(res, r) ← pick_from_set (get_rng m) bv_sorts;
  _ ← assert_that (negb (bool_decide (get_id res = 0))) "res->get_id()";
  Returns (res, set_rng m r).

(** [add_sort] on the extended state. *)
Definition add_sort (m : Manager) (sort : AbsSort) (sort_kind : SortKind)
  : outcome (AbsSort * Manager) :=
  '(sort, st) ← Murxla.add_sort (members m) sort sort_kind;
  Returns (sort, with_members m st).

(** The constructor body on the manager the member initialisers leave,
    whose [d_enabled_theories] and [d_sort_kinds] are still empty: the
    enabled theories and their sort kinds are entered.  (The operator
    manager and the two [configure] calls on the solver are outside the
    embedded sources.) *)
Definition constructor_body (b : Backend) (m : Manager)
    (enabled_theories : list TheoryId) : outcome Manager :=
  add_sort_kinds (add_enabled_theories b m enabled_theories).

End Smgr.

(* ====================================================================== *)
(** * main.cpp: the error summary *)
(* ====================================================================== *)

Module Summary.
Import Cli.

(** [std::string::npos] is [None]. *)

(** [s] begins with [search]. *)
Fixpoint starts_with (search s : list ascii) : bool :=
  match search, s with
  | [], _ => true
  | _ :: _, [] => false
  | a :: search', c :: s' => Ascii.eqb a c && starts_with search' s'
  end.

(** The scan of [std::string::find] from the position [pos], at which the
    rest [s] of the string begins. *)
Fixpoint find_from (search s : list ascii) (pos : nat) {struct s}
  : option nat :=
  if starts_with search s then Some pos
  else match s with
       | [] => None
       | _ :: s' => find_from search s' (S pos)
       end.

(** [s.find(search, pos)]: the first position not before [pos] at which
    [search] occurs, [npos] when there is none or [pos] lies beyond the
    end. *)
Definition find (s search : list ascii) (pos : nat) : option nat :=
  if (pos <=? length s)%nat then find_from search (drop pos s) pos
  else None.

(** [s.replace(pos, len, str)]: throws [std::out_of_range] for a position
    beyond the end, else replaces the (at most) [len] characters at
    [pos]. *)
Definition replace (s : list ascii) (pos len : nat) (str : list ascii)
  : result (list ascii) :=
  if (pos <=? length s)%nat
  then Ok (take pos s ++ str ++ drop (pos + len) s)
  else Throws "std::out_of_range".

(** The loop [while (pos != std::string::npos)] of [escape_csv] for one
    pair, entered with [pos = s.find(search)].  Nothing in the loop bounds
    the number of rounds (an empty [search] is found again and again);
    [rounds] is the number of rounds allowed, and running out of them is
    [None]. *)
Fixpoint replace_loop (rounds : nat) (search replace_with s : list ascii)
    (pos : option nat) : option (result (list ascii)) :=
  match pos with
  | None => Some (Ok s)
  | Some p =>
      match rounds with
      | O => None
      | S rounds' =>
          match replace s p (length search) replace_with with
          | Ok s' =>
              replace_loop rounds' search replace_with s'
                (find s' search (p + length replace_with))
          | ExitUsage => Some ExitUsage
          | ExitStream c e => Some (ExitStream c e)
          | AssertFails w => Some (AssertFails w)
          | UndefinedBehaviour w => Some (UndefinedBehaviour w)
          | Throws w => Some (Throws w)
          end
      end
  end.

Definition newline : ascii := ascii_of_nat 10.
Definition quote : ascii := ascii_of_nat 34.
Definition backslash : ascii := ascii_of_nat 92.

(** The vector [escape]: a line feed becomes backslash-n, a double quote is
    doubled. *)
Definition escape : list (list ascii * list ascii) :=
  [([newline], [backslash; "n"%char]); ([quote], [quote; quote])].

(** The loop over [escape]. *)
Fixpoint escape_pairs (rounds : nat) (pairs : list (list ascii * list ascii))
    (s : list ascii) : option (result (list ascii)) :=
  match pairs with
  | [] => Some (Ok s)
  | (search, replace_with) :: rest =>
      match replace_loop rounds search replace_with s (find s search 0) with
      | Some (Ok s') => escape_pairs rounds rest s'
      | other => other
      end
  end.

(** [escape_csv(str)], each of its two loops allowed [rounds] rounds. *)
Definition escape_csv (rounds : nat) (str : string)
  : option (result string) :=
  match escape_pairs rounds escape (list_ascii_of_string str) with
  | Some (Ok s) => Some (Ok (string_of_list_ascii s))
  | Some ExitUsage => Some ExitUsage
  | Some (ExitStream c e) => Some (ExitStream c e)
  | Some (AssertFails w) => Some (AssertFails w)
  | Some (UndefinedBehaviour w) => Some (UndefinedBehaviour w)
  | Some (Throws w) => Some (Throws w)
  | None => None
  end.

(** ** [print_error_summary] *)

(** [std::cout] as the summary sees it: the text written, and whether
    [std::hex] is in force.  The manipulator stays in force for every
    number written after it. *)
Record ostream : Type := mkOstream {
  written : string;
  basefield_hex : bool
}.

Definition hexadecimal (n : Z) : string :=
  HexadecimalString.NilZero.string_of_uint (N.to_hex_uint (Z.to_N n)).

(** [out << text] *)
Definition put (text : string) (out : ostream) : ostream :=
  mkOstream (written out +:+ text) (basefield_hex out).

(** [out << n] for an unsigned number *)
Definition put_number (n : Z) (out : ostream) : ostream :=
  put (if basefield_hex out then hexadecimal n else decimal n) out.

(** [out << std::hex] *)
Definition std_hex (out : ostream) : ostream :=
  mkOstream (written out) true.

(** [class Terminal] (util.hpp): the two colour sequences used here. *)
Record Terminal : Type := mkTerminal {
  red : string;
  defaultcolor : string
}.

(** [Murxla::ErrorMap] in the sequence an iteration visits it: normalized
    message, original message, seeds. *)
Definition ErrorMap : Type := list (string * (string * list Z)).

(** The loop [for (auto seed : seeds)] of a CSV row. *)
Fixpoint put_seeds_csv (seeds : list Z) (out : ostream) : ostream :=
  match seeds with
  | [] => out
  | seed :: rest =>
      put_seeds_csv rest (put " " (put_number seed (std_hex out)))
  end.

(** The loop over [g_errors] in CSV mode. *)
Fixpoint put_errors_csv (rounds : nat) (g_errors : ErrorMap) (out : ostream)
  : option (result ostream) :=
  match g_errors with
  | [] => Some (Ok out)
  | (_, (err, seeds)) :: rest =>
      let out := put "murxla:csv:" out in
      let out := put_number (Z.of_nat (length seeds)) out in
      let out := put "," out in
      match escape_csv rounds err with
      | Some (Ok escaped) =>
          let out := put (String quote "") out in
          let out := put escaped out in
          let out := put (String quote ",") out in
          let out := put_seeds_csv seeds out in
          put_errors_csv rounds rest (put endl out)
      | Some ExitUsage => Some ExitUsage
      | Some (ExitStream c e) => Some (ExitStream c e)
      | Some (AssertFails w) => Some (AssertFails w)
      | Some (UndefinedBehaviour w) => Some (UndefinedBehaviour w)
      | Some (Throws w) => Some (Throws w)
      | None => None
      end
  end.

(** The loop [for (i = 0; i < std::min<size_t>(seeds.size(), 10); ++i)];
    [i] is the index of the first seed of [seeds]. *)
Fixpoint put_seeds (i : nat) (seeds : list Z) (out : ostream) : ostream :=
  match seeds with
  | [] => out
  | seed :: rest =>
      let out := if (0 <? i)%nat then put " " out else out in
      put_seeds (S i) rest (put_number seed (std_hex out))
  end.

(** The loop over [g_errors] in plain mode. *)
Fixpoint put_errors (term : Terminal) (g_errors : ErrorMap) (out : ostream)
  : ostream :=
  match g_errors with
  | [] => out
  | (_, (err, seeds)) :: rest =>
      let out := put (red term) out in
      let out := put_number (Z.of_nat (length seeds)) out in
      let out := put " errors: " out in
      let out := put (defaultcolor term) out in
      let out := put_seeds 0 (take 10 seeds) out in
      let out := put (String newline "") out in
      let out := put err out in
      let out := put (String newline "") out in
      put_errors term rest (put endl out)
  end.

(** What [print_error_summary] leaves: [std::cout], the static
    [g_error_msgs], and the JSON document [{"errors": {"exclude": ...}}]
    written to a file, given by the file name and the list it holds. *)
Record Printed : Type := mkPrinted {
  cout : ostream;
  g_error_msgs : list string;
  exported : option (string * list string)
}.

Definition print_error_summary (rounds : nat) (term : Terminal)
    (g_errors : ErrorMap) (g_errors_print_csv : bool)
    (g_export_errors : string) (g_error_msgs : list string)
    (out : ostream) : option (result Printed) :=
  let printed :=
    match g_errors with
    | [] => Some (Ok out)
    | _ =>
        let out := put (String newline "Error statistics (") out in
        let out := put_number (Z.of_nat (length g_errors)) out in
        let out := put (" in total):" +:+ String newline "") out in
        let out := put endl out in
        if g_errors_print_csv then put_errors_csv rounds g_errors out
        else Some (Ok (put_errors term g_errors out))
    end in
  match printed with
  | Some (Ok out) =>
      if String.eqb g_export_errors "" then
        Some (Ok (mkPrinted out g_error_msgs None))
      else
        let msgs := g_error_msgs ++ map (λ p, p.2.1) g_errors in
        Some (Ok (mkPrinted out msgs (Some (g_export_errors, msgs))))
  | Some ExitUsage => Some ExitUsage
  | Some (ExitStream c e) => Some (ExitStream c e)
  | Some (AssertFails w) => Some (AssertFails w)
  | Some (UndefinedBehaviour w) => Some (UndefinedBehaviour w)
  | Some (Throws w) => Some (Throws w)
  | None => None
  end.

End Summary.

(* ====================================================================== *)
(** * main.cpp: the mode of a run *)
(* ====================================================================== *)

Module Run.
Import Cli.

(** The three locals [main] computes from the parsed options. *)
Definition is_untrace (o : Options) : bool :=
  negb (String.eqb (untrace_file_name o) "").

Definition is_continuous (o : Options) : bool :=
  negb (is_seeded o) && negb (is_untrace o).

Definition is_forked (o : Options) : bool :=
  dd o || is_continuous o.

End Run.

(* ====================================================================== *)
(** * Further specification-side predicates *)
(* ====================================================================== *)

Module Props.
Import Smgr.

(** The order [std::sort] and [std::set_intersection] work with. *)
Definition theory_le (a b : TheoryId) : Prop :=
  (TheoryId_to_nat a ≤ TheoryId_to_nat b)%nat.

(** Every entry of [d_sort_kinds] describes its own key and belongs to a
    theory of [theories]. *)
Definition sort_kinds_of_theories (theories : gset TheoryId)
    (kinds : gmap SortKind SortKindData) : Prop :=
  ∀ sort_kind data, kinds !! sort_kind = Some data →
    skd_kind data = sort_kind ∧ skd_theory data ∈ theories.

(** No two sorts of [d_sorts] carry the same id. *)
Definition sort_ids_distinct (st : SolverManager) : Prop :=
  ∀ h1 h2 s1 s2,
    d_sorts st !! h1 = Some s1 → d_sorts st !! h2 = Some s2 →
    get_id s1 = get_id s2 → h1 = h2.

(** [s] with every occurrence of the character [c] replaced by [str]. *)
Definition substituted (c : ascii) (str s : list ascii) : list ascii :=
  concat (map (λ x, if Ascii.eqb x c then str else [x]) s).

(** The number of occurrences of [c] in [s]. *)
Definition occurrences (c : ascii) (s : list ascii) : nat :=
  length (filter (λ x, x = c) s).

(** What [escape_csv] does to one character. *)
Definition escaped_char (c : ascii) : list ascii :=
  if Ascii.eqb c Summary.newline then [Summary.backslash; "n"%char]
  else if Ascii.eqb c Summary.quote then [Summary.quote; Summary.quote]
  else [c].

(** The string with every character escaped. *)
Definition escaped (str : string) : string :=
  string_of_list_ascii
    (concat (map escaped_char (list_ascii_of_string str))).

(** The number of line feeds in a text. *)
Definition line_feeds (text : string) : nat :=
  occurrences Summary.newline (list_ascii_of_string text).

(** [out'] is [out] with a text of [n] line feeds written behind it. *)
Definition appended (out out' : Summary.ostream) (n : nat) : Prop :=
  ∃ text, Summary.written out' = Summary.written out +:+ text
          ∧ line_feeds text = n.

(** The options of [parse_options] that take the next argument as their
    value and report its absence. *)
Definition valued_options : list string :=
  ["-s"; "--seed"; "-t"; "--time"; "-p"; "--profile"; "-a"; "--api-trace";
   "--dd-match-out"; "--dd-match-err"; "-D"; "--dd-trace"; "-u";
   "--untrace"; "-c"; "--cross-check"; "-T"; "--tmp-dir"; "-O"; "--out-dir";
   "-f"; "--smt2-file"; "-o"; "--cross-check-opts"; "--export-errors";
   "-m"; "--max-runs"].

(** The options that take no argument, or look at the next one without
    requiring it. *)
Definition plain_options : list string :=
  ["-h"; "--help"; "-v"; "--verbosity"; "-d"; "--dd"; "--dd-ignore-out";
   "--dd-ignore-err"; "--check"; "--no-check"; "-y"; "--random-symbols";
   "--btor"; "--bzla"; "--cvc5"; "--yices"; "--smt2"; "-S"; "--trace-seeds";
   "--stats"; "--print-fsm"; "--csv"; "-l"; "--smt-lib"; "--fuzz-opts";
   "--arrays"; "--bags"; "--bv"; "--dt"; "--fp"; "--ints"; "--quant";
   "--reals"; "--trans"; "--linear"; "--seq"; "--sets"; "--strings"; "--uf";
   "--no-arrays"; "--no-bv"; "--no-bags"; "--no-dt"; "--no-fp"; "--no-ints";
   "--no-quant"; "--no-reals"; "--no-seq"; "--no-sets"; "--no-strings";
   "--no-trans"; "--no-uf"].

(** The digits of a string of hexadecimal digits. *)
Definition xdigits (cs : list ascii) : list Z :=
  map (λ c, default 0 (Cli.digit_value c)) cs.

(** The value of a list of digits read in [base], most significant digit
    first. *)
Definition digits_value (base : Z) (digits : list Z) : Z :=
  fold_left (λ acc d, acc * base + d) digits 0.

End Props.
Import Props.

(* ====================================================================== *)
(** * Further concrete configurations used in examples *)
(* ====================================================================== *)

Module SmgrExamples.
Import Smgr Examples SortExamples OpExamples.

(** A term database without terms: nothing can be picked. *)
Definition no_calls : TermDbCalls :=
  mkTermDbCalls false (λ _, false) ∅
    (λ _, Undefined "no term") (λ _ _, Undefined "no term")
    (λ _ _ _, Undefined "no term") (λ _, None).

(** A term database holding Boolean and bit-vector terms; term 7 is the one
    it picks and the one it knows by any id. *)
Definition bool_bv_calls : TermDbCalls :=
  mkTermDbCalls true (λ _, false) ∅
    (λ r, Returns (SORT_BOOL, advance r))
    (λ _ _, Undefined "no sort")
    (λ _ _ r, Returns (7%nat, advance r)) (λ _, Some 7%nat).

(** A solver for Booleans, bit-vectors, floating-points and quantifiers. *)
Definition solver_bv_fp : Backend :=
  mkBackend [THEORY_QUANT; THEORY_FP; THEORY_BV; THEORY_BOOL]
            (λ sort, bool_decide (get_kind sort = SORT_BV))
            (λ _, bool_sort) id id.

(** The manager as the member initialisers leave it. *)
Definition blank (st : SolverManager) (calls : TermDbCalls) : Manager :=
  mkManager st calls ∅ ∅ ∅ ∅ ∅ ∅ [] false false false false 0 UNKNOWN 0 0.

(** What a call returns ([fallback] if it does not return). *)
Definition returned {A : Type} (m : outcome A) (fallback : A) : A :=
  match m with Returns a => a | _ => fallback end.

(** Constructed for that solver with bit-vectors requested. *)
Definition constructed : Manager :=
  returned (constructor_body solver_bv_fp (blank empty_db no_calls)
              [THEORY_BV])
           (blank empty_db no_calls).

(** The same with Boolean and bit-vector terms in the database. *)
Definition constructed_with_terms : Manager :=
  returned (constructor_body solver_bv_fp
              (blank with_bool_bv_terms bool_bv_calls) [THEORY_BV])
           (blank with_bool_bv_terms bool_bv_calls).

(** The sort kind data picked first. *)
Definition picked_data : SortKindData :=
  (returned (pick_sort_kind_data constructed)
            (mkSortKindData SORT_ANY 0 THEORY_ALL, constructed)).1.

(** The bit-vector sort of width 8 interned in the constructed manager. *)
Definition with_bv8 : AbsSort * Manager :=
  returned (add_sort constructed bv8 SORT_BV) (bv8, constructed).

(** ... and registered for untracing under the id 5. *)
Definition bv8_registered : Manager :=
  (returned (register_sort with_bv8.2 5 1) (false, with_bv8.2)).2.

(** An assumption picked from the database with terms. *)
Definition assumed : nat * Manager :=
  returned (pick_assumption constructed_with_terms)
           (0%nat, constructed_with_terms).

(** The manager with terms after a sat call. *)
Definition checked_with_terms : Manager :=
  with_members constructed_with_terms
    (with_sat_called (members constructed_with_terms) true).

(** An assumption picked in that state. *)
Definition assumed_after_sat : nat * Manager :=
  returned (pick_assumption checked_with_terms)
           (0%nat, checked_with_terms).

End SmgrExamples.

Module SummaryExamples.
Import Cli Summary.

(** A message of two lines with a quoted word. *)
Definition two_lines : string :=
  "assertion " +:+ String quote "x > 0" +:+ String quote " failed"
  +:+ String newline "in solver.cpp".

Definition no_colours : Terminal := mkTerminal "" "".

(** Two errors, the first seen with 16 seeds. *)
Definition two_errors : ErrorMap :=
  [("assertion failed", (two_lines, [1; 2; 3; 4; 5; 6; 7; 8; 9; 10; 11; 12;
                                     13; 14; 15; 48879]));
   ("segfault", ("segfault", [255]))].

Definition fresh_cout : ostream := mkOstream "" false.

(** Where a run that reaches the construction of the fuzzer stands. *)
Definition started (ctx : Context) (argv : list string) : FuzzerStart :=
  match main ctx argv with
  | Ok start => start
  | _ => mkFuzzerStart (initial_state default_options) ("", "")
  end.

End SummaryExamples.

Module ReplayExamples.
Import Cli CliExamples.

(** The context with one more readable file. *)
Definition with_file (ctx : Context) (name content : string) : Context :=
  {| read_file := λ n, if String.eqb n name then Some content
                       else read_file ctx n;
     is_directory := is_directory ctx;
     filesystem_exists := filesystem_exists ctx;
     filesystem_create_directory := filesystem_create_directory ctx;
     split := split ctx;
     MURXLA_USE_BOOLECTOR := MURXLA_USE_BOOLECTOR ctx;
     MURXLA_USE_BITWUZLA := MURXLA_USE_BITWUZLA ctx;
     MURXLA_USE_CVC5 := MURXLA_USE_CVC5 ctx;
     MURXLA_USE_YICES := MURXLA_USE_YICES ctx;
     MURXLA_CHECK_SOLVER_OPT_PREFIX := MURXLA_CHECK_SOLVER_OPT_PREFIX ctx;
     shm_open_ok := shm_open_ok ctx;
     shm_close_ok := shm_close_ok ctx;
     shm_mmap_ok := shm_mmap_ok ctx;
     getpid := getpid ctx |}.

(** A trace recorded with bit-vectors and floating-points enabled. *)
Definition theories_trace : string :=
  "set-murxla-options --bv --fp" +:+ endl +:+ "1 new" +:+ endl.

Definition machine_with_theories : Context :=
  with_file machine "theories.trace" theories_trace.

(** Replaying it with two more theories, one named before [-u]. *)
Definition argv_replay : list string :=
  ["murxla"; "--ints"; "-u"; "theories.trace"; "--uf"].

(** The trace the run on [argv_flag_like_value] starts with its recorded
    configuration line. *)
Definition recorded_trace : string :=
  cmd_line_trace (options (parsed machine argv_flag_like_value)) +:+ endl
  +:+ "1 new" +:+ endl.

Definition machine_with_recorded : Context :=
  with_file machine "recorded.trace" recorded_trace.

(** A machine on which the temporary directory cannot be created. *)
Definition machine_read_only : Context :=
  {| read_file := read_file machine;
     is_directory := is_directory machine;
     filesystem_exists := λ _, Some false;
     filesystem_create_directory := λ _, None;
     split := split machine;
     MURXLA_USE_BOOLECTOR := true;
     MURXLA_USE_BITWUZLA := true;
     MURXLA_USE_CVC5 := true;
     MURXLA_USE_YICES := true;
     MURXLA_CHECK_SOLVER_OPT_PREFIX := "check_";
     shm_open_ok := true;
     shm_close_ok := true;
     shm_mmap_ok := true;
     getpid := 4711 |}.

End ReplayExamples.

(* ====================================================================== *)
(** * Properties of the random number generator model *)
(* ====================================================================== *)

Lemma wrap32_range z : 0 ≤ wrap32 z < UINT32_MOD.
Proof. unfold wrap32, UINT32_MOD. apply Z.mod_pos_bound. lia. Qed.

Lemma pick_uint32_range r : 0 ≤ (pick_uint32 r).1 < UINT32_MOD.
Proof. apply wrap32_range. Qed.

Lemma pick_range_bounds r lo hi :
  lo ≤ hi → lo ≤ (pick_range r lo hi).1 ≤ hi.
Proof.
  intros Hle. unfold pick_range. simpl.
  pose proof (Z.mod_pos_bound (wrap32 (engine r (cursor r))) (hi - lo + 1)).
  lia.
Qed.

Lemma index_in_bounds (v : Z) (n : nat) :
  0 ≤ v → n ≠ 0%nat → (Z.to_nat (v mod Z.of_nat n) < n)%nat.
Proof.
  intros Hv Hn.
  pose proof (Z.mod_pos_bound v (Z.of_nat n)). lia.
Qed.

Lemma pick_from_set_elem {A : Type} (r r' : RNGenerator) (xs : list A) x :
  pick_from_set r xs = Returns (x, r') → x ∈ xs ∧ r' = advance r.
Proof.
  unfold pick_from_set. simpl.
  destruct (xs !! _) as [y|] eqn:Hy; [|discriminate].
  intros [= -> <-]. split; [|reflexivity].
  eapply list_elem_of_lookup_2; eassumption.
Qed.

Lemma pick_from_set_nonempty {A : Type} (r : RNGenerator) (xs : list A) :
  xs ≠ [] → ∃ x, pick_from_set r xs = Returns (x, advance r) ∧ x ∈ xs.
Proof.
  intros Hne. unfold pick_from_set. simpl.
  assert (Hlt : (Z.to_nat (wrap32 (engine r (cursor r))
                           mod Z.of_nat (length xs)) < length xs)%nat).
  { apply index_in_bounds; [apply wrap32_range|].
    destruct xs; [congruence|simpl; lia]. }
  apply lookup_lt_is_Some_2 in Hlt. destruct Hlt as [x Hx].
  exists x. rewrite Hx. split; [reflexivity|].
  eapply list_elem_of_lookup_2; eassumption.
Qed.

(* ====================================================================== *)
(** * Option selection *)
(* ====================================================================== *)

Section PickOption.
Import Murxla.

Lemma has_conflict_false used conflicts :
  has_conflict used conflicts = false ↔ ∀ c, c ∈ conflicts → c ∉ used.
Proof.
  induction conflicts as [|c cs IH]; simpl.
  - split; [intros _ c Hc; inversion Hc|reflexivity].
  - case_bool_decide as Hc.
    + split; [discriminate|]. intros H. exfalso. apply (H c); [left|done].
    + rewrite IH. split.
      * intros H c' Hc'. apply elem_of_cons in Hc' as [->|Hin]; auto.
      * intros H c' Hc'. apply H. by right.
Qed.

Lemma lacks_depend_false used depends :
  lacks_depend used depends = false ↔ ∀ d, d ∈ depends → d ∈ used.
Proof.
  induction depends as [|d ds IH]; simpl.
  - split; [intros _ d Hd; inversion Hd|reflexivity].
  - case_bool_decide as Hd.
    + rewrite IH. split.
      * intros H d' Hd'. apply elem_of_cons in Hd' as [->|Hin]; auto.
      * intros H d' Hd'. apply H. by right.
    + split; [discriminate|]. intros H. exfalso. apply Hd, H. left.
Qed.

Lemma admissible_spec used option :
  admissible used option = true ↔
  (∀ c, c ∈ get_conflicts option → c ∉ used)
  ∧ (∀ d, d ∈ get_depends option → d ∈ used).
Proof.
  unfold admissible.
  rewrite andb_true_iff, !negb_true_iff,
    has_conflict_false, lacks_depend_false.
  reflexivity.
Qed.

(** The loop with [push_back] computes a filter, in table order. *)
Lemma collect_available_filter used opts available :
  collect_available used opts available
  = available ++ List.filter (admissible used) opts.
Proof.
  revert available.
  induction opts as [|o opts IH]; intros available; simpl.
  - by rewrite app_nil_r.
  - unfold admissible at 1.
    destruct (has_conflict used (get_conflicts o)); simpl; [apply IH|].
    destruct (lacks_depend used (get_depends o)); simpl; [apply IH|].
    rewrite IH, <- app_assoc. reflexivity.
Qed.

Lemma available_options_filter st :
  available_options st
  = List.filter (admissible (d_used_solver_options st)) (d_solver_options st).
Proof. unfold available_options. by rewrite collect_available_filter. Qed.

Lemma elem_of_available st option :
  option ∈ available_options st ↔
  option ∈ d_solver_options st
  ∧ admissible (d_used_solver_options st) option = true.
Proof.
  rewrite available_options_filter, !list_elem_of_In, filter_In.
  reflexivity.
Qed.

Lemma available_nil_iff st :
  available_options st = [] ↔
  ∀ option, option ∈ d_solver_options st →
            admissible (d_used_solver_options st) option = false.
Proof.
  split.
  - intros Hnil o Ho.
    destruct (admissible (d_used_solver_options st) o) eqn:Ha; [|done].
    assert (o ∈ available_options st) as Hin by by apply elem_of_available.
    rewrite Hnil in Hin. inversion Hin.
  - intros Hall. destruct (available_options st) as [|o l] eqn:Hav; [done|].
    assert (o ∈ available_options st) as Hin by (rewrite Hav; left).
    apply elem_of_available in Hin as [Ho Ha].
    rewrite (Hall o Ho) in Ha. discriminate.
Qed.

(** What [pick_option] does once the candidate vector is known. *)
Lemma pick_option_unfold st :
  d_solver_options st ≠ [] →
  pick_option st =
  let available := available_options st in
  let v := (pick_uint32 (d_rng st)).1 in
  let r1 := (pick_uint32 (d_rng st)).2 in
  if bool_decide (length available = 0%nat)
  then Undefined "pick_option: modulo by available.size() == 0"
  else
    match available !! Z.to_nat (v mod Z.of_nat (length available)) with
    | None => Undefined "pick_option: index out of bounds"
    | Some option =>
        let name := get_name option in
        let used :=
          if bool_decide (name ∈ d_used_solver_options st)
          then d_used_solver_options st
          else {[name]} ∪ d_used_solver_options st in
        Returns ((name, (pick_value option r1).1),
                 with_used_solver_options
                   (with_rng st (pick_value option r1).2) used)
    end.
Proof.
  intros Hne. unfold pick_option.
  destruct (d_solver_options st) as [|o os] eqn:Hopts; [congruence|].
  simpl. case_bool_decide; [reflexivity|].
  destruct (available_options st !! _); [|reflexivity].
  destruct (pick_value _ _). reflexivity.
Qed.

End PickOption.

Section PickOptionClaims.
Import Murxla Examples.

Example pick_option_incremental_used :
  pick_option incremental_used
  = Returns (("incremental", "true"),
             after (pick_option incremental_used) incremental_used).
Proof. vm_compute. reflexivity. Qed.

(** That state is the one a first call leaves: two calls in a row return
    the same option. *)
Example pick_option_twice :
  d_used_solver_options
    (after (pick_option (fresh_manager [opt_incremental]))
           (fresh_manager [opt_incremental]))
  = d_used_solver_options incremental_used
  ∧ ∃ st',
      pick_option (after (pick_option (fresh_manager [opt_incremental]))
                         (fresh_manager [opt_incremental]))
      = Returns (("incremental", "true"), st').
Proof. split; [vm_compute; reflexivity|]. eexists. vm_compute. reflexivity. Qed.

(** C1, counterexample: with the single option "incremental" already in
    [d_used_solver_options], [pick_option] returns "incremental" again. *)
Lemma pick_option_not_yet_used_fails : ¬ pick_option_claim_as_stated.
Proof.
  intros H.
  destruct (H incremental_used "incremental" "true"
              (after (pick_option incremental_used) incremental_used))
    as (o & _ & _ & Hfresh & _).
  - discriminate.
  - exact pick_option_incremental_used.
  - apply Hfresh. vm_compute. reflexivity.
Qed.

(** C1 (amended): every pair [(name, value)] returned by [pick_option] for
    a non-empty option list names an option of the list none of whose
    conflicts is in [d_used_solver_options] and all of whose dependencies
    are in it (both taken before the call); after the call the used set is
    the old one with [name] added.  The option may have been used
    before. *)
Theorem pick_option_respects_conflicts_and_depends st name value st' :
  d_solver_options st ≠ [] →
  pick_option st = Returns ((name, value), st') →
  ∃ option,
    option ∈ d_solver_options st ∧ get_name option = name
    ∧ (∀ c, c ∈ get_conflicts option → c ∉ d_used_solver_options st)
    ∧ (∀ d, d ∈ get_depends option → d ∈ d_used_solver_options st)
    ∧ name ∈ d_used_solver_options st'
    ∧ d_used_solver_options st' = {[name]} ∪ d_used_solver_options st.
Proof.
  intros Hne Hpick. rewrite (pick_option_unfold st Hne) in Hpick.
  cbv zeta in Hpick.
  case_bool_decide as Hlen; [discriminate|].
  destruct (available_options st !! _) as [option|] eqn:Hopt; [|discriminate].
  injection Hpick as Hname _ Hst'. subst name st'.
  apply list_elem_of_lookup_2 in Hopt.
  apply elem_of_available in Hopt as [Hin Hadm].
  apply admissible_spec in Hadm as [Hconf Hdep].
  exists option. split; [assumption|]. split; [reflexivity|].
  split; [assumption|]. split; [assumption|]. simpl.
  case_bool_decide as Hused; split.
  - exact Hused.
  - apply set_eq. intros x. rewrite elem_of_union, elem_of_singleton.
    split; [auto|]. intros [->|Hx]; assumption.
  - apply elem_of_union_l, elem_of_singleton. reflexivity.
  - reflexivity.
Qed.

Lemma pick_option_respects_conflicts_and_depends_witness :
  d_solver_options (fresh_manager [opt_produce_models; opt_incremental]) ≠ []
  ∧ ∃ option,
      option ∈ d_solver_options
                 (fresh_manager [opt_produce_models; opt_incremental])
      ∧ get_name option = "incremental"
      ∧ (∀ c, c ∈ get_conflicts option → c ∉ (∅ : gset string))
      ∧ (∀ d, d ∈ get_depends option → d ∈ (∅ : gset string))
      ∧ "incremental"
          ∈ d_used_solver_options
              (after (pick_option
                        (fresh_manager [opt_produce_models; opt_incremental]))
                     (fresh_manager [opt_produce_models; opt_incremental]))
      ∧ d_used_solver_options
          (after (pick_option
                    (fresh_manager [opt_produce_models; opt_incremental]))
                 (fresh_manager [opt_produce_models; opt_incremental]))
        = {["incremental"]} ∪ ∅.
Proof.
  split; [discriminate|].
  apply (pick_option_respects_conflicts_and_depends
           (fresh_manager [opt_produce_models; opt_incremental])
           "incremental" "true").
  - discriminate.
  - vm_compute. reflexivity.
Defined.

(** C8: [pick_option] returns exactly when the option list is empty or
    some option passes the conflict and dependency filters.  With a
    non-empty list and no admissible option the index expression
    [available[pick() % available.size()]] takes a modulus by zero, which
    is undefined; when some option is admissible the index is below
    [available.size()] and the call returns that element's name. *)
Theorem pick_option_defined_iff st :
  (is_returns (pick_option st) = true ↔
     d_solver_options st = []
     ∨ ∃ option, option ∈ d_solver_options st
                 ∧ admissible (d_used_solver_options st) option = true)
  ∧ ((d_solver_options st ≠ []
      ∧ ∀ option, option ∈ d_solver_options st →
                  admissible (d_used_solver_options st) option = false) →
     pick_option st
     = Undefined "pick_option: modulo by available.size() == 0")
  ∧ (available_options st ≠ [] →
     ∃ option,
       (Z.to_nat ((pick_uint32 (d_rng st)).1
                  mod Z.of_nat (length (available_options st)))
        < length (available_options st))%nat
       ∧ available_options st
           !! Z.to_nat ((pick_uint32 (d_rng st)).1
                        mod Z.of_nat (length (available_options st)))
         = Some option
       ∧ ∃ value st', pick_option st = Returns ((get_name option, value), st')).
Proof.
  assert (Hundef : d_solver_options st ≠ [] → available_options st = [] →
            pick_option st
            = Undefined "pick_option: modulo by available.size() == 0").
  { intros Hne Hnil. rewrite (pick_option_unfold st Hne). cbv zeta.
    rewrite Hnil. reflexivity. }
  assert (Hdef : available_options st ≠ [] →
     ∃ option,
       (Z.to_nat ((pick_uint32 (d_rng st)).1
                  mod Z.of_nat (length (available_options st)))
        < length (available_options st))%nat
       ∧ available_options st
           !! Z.to_nat ((pick_uint32 (d_rng st)).1
                        mod Z.of_nat (length (available_options st)))
         = Some option
       ∧ ∃ value st', pick_option st = Returns ((get_name option, value), st')).
  { intros Hav.
    assert (Hne : d_solver_options st ≠ []).
    { intros Hnil. apply Hav. unfold available_options. by rewrite Hnil. }
    assert (Hlen : length (available_options st) ≠ 0%nat)
      by (destruct (available_options st); [congruence|simpl; lia]).
    pose proof (index_in_bounds _ _ (proj1 (pick_uint32_range (d_rng st))) Hlen)
      as Hlt.
    destruct (lookup_lt_is_Some_2 _ _ Hlt) as [option Hopt].
    exists option. split; [exact Hlt|]. split; [exact Hopt|].
    rewrite (pick_option_unfold st Hne). cbv zeta.
    rewrite bool_decide_eq_false_2 by assumption.
    rewrite Hopt. eauto. }
  split; [|split].
  - split.
    + intros Hret.
      destruct (d_solver_options st) as [|o os] eqn:Hopts; [by left|right].
      destruct (available_options st) as [|a l] eqn:Hav.
      * rewrite Hundef in Hret; [discriminate|done|done].
      * assert (a ∈ available_options st) as Hin by (rewrite Hav; left).
        apply elem_of_available in Hin. rewrite Hopts in Hin.
        exists a. exact Hin.
    + intros [Hnil|(o & Ho & Hadm)].
      * unfold pick_option. rewrite Hnil. reflexivity.
      * destruct Hdef as (o' & _ & _ & v & st' & ->); [|reflexivity].
        intros Hnil.
        assert (o ∈ available_options st) as Hin
          by by apply elem_of_available.
        rewrite Hnil in Hin. inversion Hin.
  - intros [Hne Hall]. apply Hundef; [assumption|].
    by apply available_nil_iff.
  - exact Hdef.
Qed.

(** The undefined case is reached by a well-formed configuration. *)
Example pick_option_all_filtered :
  pick_option all_filtered
  = Undefined "pick_option: modulo by available.size() == 0".
Proof. vm_compute. reflexivity. Qed.

End PickOptionClaims.

(* ====================================================================== *)
(** * Sat bookkeeping *)
(* ====================================================================== *)

Section ResetSat.
Import SatExamples.

(** C3, counterexample: with one assumption picked and [d_sat_called]
    still false, [reset_sat] leaves the assumption in place. *)
Lemma reset_sat_keeps_unchecked_assumptions :
  ¬ reset_sat_claim_as_stated.
Proof.
  intros H. destruct (H assumed_not_checked) as [Hempty _].
  assert (Hin : 7%nat ∈ d_assumptions (Murxla.reset_sat assumed_not_checked))
    by (vm_compute; reflexivity).
  rewrite Hempty in Hin. by apply not_elem_of_empty in Hin.
Qed.

(** The earlier revision clears whatever the flag says. *)
Lemma smtmbt_reset_sat_clears st :
  d_assumptions (SmtMbt.reset_sat st) = ∅
  ∧ d_sat_called (SmtMbt.reset_sat st) = false.
Proof. split; reflexivity. Qed.

(** C3 (amended): after [reset_sat] the flag [d_sat_called] is false.  In
    the current revision the assumptions are emptied when the flag was set
    before the call and are left as they were when it was not; in the
    earlier revision they are emptied in either case. *)
Theorem reset_sat_clears_after_sat_call st :
  d_sat_called (Murxla.reset_sat st) = false
  ∧ d_assumptions (Murxla.reset_sat st)
    = (if d_sat_called st then ∅ else d_assumptions st)
  ∧ d_sat_called (SmtMbt.reset_sat st) = false
  ∧ d_assumptions (SmtMbt.reset_sat st) = ∅.
Proof.
  split; [|split; [|split; apply smtmbt_reset_sat_clears]].
  - unfold Murxla.reset_sat. by destruct (d_sat_called st).
  - unfold Murxla.reset_sat, Murxla.clear_assumptions.
    by destruct (d_sat_called st).
Qed.

(** Nothing else changes. *)
Lemma reset_sat_frame st :
  d_used_solver_options (Murxla.reset_sat st) = d_used_solver_options st
  ∧ d_sorts (Murxla.reset_sat st) = d_sorts st
  ∧ d_sort_kind_to_sorts (Murxla.reset_sat st) = d_sort_kind_to_sorts st
  ∧ d_n_sorts (Murxla.reset_sat st) = d_n_sorts st
  ∧ d_n_symbols (Murxla.reset_sat st) = d_n_symbols st.
Proof.
  unfold Murxla.reset_sat, Murxla.clear_assumptions.
  destruct (d_sat_called st); simpl; repeat split; reflexivity.
Qed.

Lemma reset_sat_idempotent st :
  Murxla.reset_sat (Murxla.reset_sat st) = Murxla.reset_sat st.
Proof.
  unfold Murxla.reset_sat, Murxla.clear_assumptions.
  destruct st as [? ? ? ? ? ? ? ? ? ? ? ? ? []]; reflexivity.
Qed.

Lemma reset_sat_revisions_agree_after_sat_call st :
  d_sat_called st = true → Murxla.reset_sat st = SmtMbt.reset_sat st.
Proof.
  intros H. unfold Murxla.reset_sat, SmtMbt.reset_sat. by rewrite H.
Qed.

End ResetSat.

(* ====================================================================== *)
(** * Symbols *)
(* ====================================================================== *)

Section PickSymbol.
Import Murxla SatExamples.

Lemma pick_symbol_simple_mode st :
  d_simple_symbols st = true →
  pick_symbol st
  = ("_x" +:+ decimal (d_n_symbols st),
     with_n_symbols st (wrap64 (d_n_symbols st + 1))).
Proof. intros Hmode. unfold pick_symbol. by rewrite Hmode. Qed.

(** C7, counterexample: the drawn length is 0 and the coin would say
    "piped"; the result is the empty simple symbol, not the piped one. *)
Lemma pick_symbol_length_zero_never_piped : ¬ pick_symbol_claim_as_stated.
Proof.
  intros H. destruct (H random_symbols_len0) as [_ Hrandom].
  specialize (Hrandom eq_refl).
  vm_compute in Hrandom. destruct Hrandom as [_ Hsym]. discriminate.
Qed.

(** The earlier revision differs in the prefix only. *)
Lemma smtmbt_pick_symbol_simple st :
  d_simple_symbols st = true →
  SmtMbt.pick_symbol st
  = ("_s" +:+ decimal (d_n_symbols st),
     with_n_symbols st (wrap64 (d_n_symbols st + 1))).
Proof. intros H. unfold SmtMbt.pick_symbol. by rewrite H. Qed.

Lemma smtmbt_pick_symbol_random st :
  d_simple_symbols st = false →
  SmtMbt.pick_symbol st = Murxla.pick_symbol st.
Proof.
  intros H. unfold SmtMbt.pick_symbol, Murxla.pick_symbol. by rewrite H.
Qed.

(** C7 (amended): in simple mode the symbol is "_x" ("_s" in the earlier
    revision) followed by the decimal counter, and the counter is
    incremented; in random mode a length in [0, 128] is drawn, then for a
    non-zero length one coin flip chooses between the piped and the simple
    symbol of that length, and for length 0 no coin is flipped and the
    simple symbol is produced. *)
Theorem pick_symbol_modes st :
  (d_simple_symbols st = true →
   pick_symbol st
   = ("_x" +:+ decimal (d_n_symbols st),
      with_n_symbols st (wrap64 (d_n_symbols st + 1)))
   ∧ SmtMbt.pick_symbol st
     = ("_s" +:+ decimal (d_n_symbols st),
        with_n_symbols st (wrap64 (d_n_symbols st + 1))))
  ∧ (d_simple_symbols st = false →
     let len := (pick_range (d_rng st) 0 MURXLA_SYMBOL_LEN_MAX).1 in
     let r1 := (pick_range (d_rng st) 0 MURXLA_SYMBOL_LEN_MAX).2 in
     let coin := (flip_coin r1).1 in
     let r2 := (flip_coin r1).2 in
     0 ≤ len ≤ 128
     ∧ SmtMbt.pick_symbol st = pick_symbol st
     ∧ (len = 0 →
        pick_symbol st
        = ((pick_simple_symbol r1 0).1,
           with_rng st (pick_simple_symbol r1 0).2))
     ∧ (len ≠ 0 → coin = true →
        pick_symbol st
        = ((pick_piped_symbol r2 len).1,
           with_rng st (pick_piped_symbol r2 len).2))
     ∧ (len ≠ 0 → coin = false →
        pick_symbol st
        = ((pick_simple_symbol r2 len).1,
           with_rng st (pick_simple_symbol r2 len).2))).
Proof.
  split.
  { intros Hmode. split;
      [by apply pick_symbol_simple_mode|by apply smtmbt_pick_symbol_simple]. }
  intros Hmode. cbv zeta.
  split; [apply pick_range_bounds; unfold MURXLA_SYMBOL_LEN_MAX; lia|].
  split; [by apply smtmbt_pick_symbol_random|].
  unfold pick_symbol. rewrite Hmode.
  destruct (pick_range (d_rng st) 0 MURXLA_SYMBOL_LEN_MAX) as [len r1].
  simpl fst. simpl snd.
  split; [|split].
  - intros ->. simpl. by destruct (pick_simple_symbol r1 0).
  - intros Hlen Hcoin. rewrite bool_decide_eq_false_2 by assumption.
    unfold flip_coin, pick_uint32. simpl. rewrite Hcoin.
    by destruct (pick_piped_symbol (advance r1) len).
  - intros Hlen Hcoin. rewrite bool_decide_eq_false_2 by assumption.
    unfold flip_coin, pick_uint32. simpl. rewrite Hcoin.
    by destruct (pick_simple_symbol (advance r1) len).
Qed.

(** Every length of the interval is drawn by some generator. *)
Lemma pick_symbol_every_length (l : Z) :
  0 ≤ l ≤ 128 →
  (pick_range (replay [l]) 0 MURXLA_SYMBOL_LEN_MAX).1 = l.
Proof.
  intros Hl. unfold pick_range, MURXLA_SYMBOL_LEN_MAX. simpl.
  unfold wrap32, UINT32_MOD.
  rewrite (Z.mod_small l (2 ^ 32)) by lia.
  rewrite Z.mod_small by lia. lia.
Qed.

(** Successive calls in simple mode number the symbols consecutively. *)
Lemma pick_symbols_simple n st :
  d_simple_symbols st = true →
  0 ≤ d_n_symbols st →
  d_n_symbols st + Z.of_nat n < UINT64_MOD →
  (pick_symbols n st).1
  = map (λ i, "_x" +:+ decimal (d_n_symbols st + Z.of_nat i)) (seq 0 n)
  ∧ d_n_symbols (pick_symbols n st).2 = d_n_symbols st + Z.of_nat n.
Proof.
  revert st. induction n as [|n IH]; intros st Hmode Hlo Hhi.
  - simpl. split; [reflexivity|lia].
  - simpl. rewrite (pick_symbol_simple_mode st Hmode).
    set (st1 := with_n_symbols st (wrap64 (d_n_symbols st + 1))).
    assert (Hn1 : d_n_symbols st1 = d_n_symbols st + 1).
    { subst st1. simpl. unfold wrap64. apply Z.mod_small.
      unfold UINT64_MOD in *. lia. }
    destruct (IH st1) as [IHs IHn]; [done|lia|lia|].
    destruct (pick_symbols n st1) as [ss st2]. simpl in *.
    split.
    + rewrite Z.add_0_r. f_equal. rewrite IHs, <- seq_shift, map_map.
      apply map_ext. intros i. rewrite Hn1. do 2 f_equal. lia.
    + lia.
Qed.

Example pick_symbol_first_three :
  (pick_symbols 3 (Examples.fresh_manager [])).1 = ["_x0"; "_x1"; "_x2"].
Proof. vm_compute. reflexivity. Qed.

Example pick_symbol_piped :
  is_piped (pick_symbol random_symbols_len3).1 = true
  ∧ String.length (pick_symbol random_symbols_len3).1 = 5%nat.
Proof. vm_compute. split; reflexivity. Qed.

End PickSymbol.

(* ====================================================================== *)
(** * Operator kinds *)
(* ====================================================================== *)

Section PickOpKind.
Import Murxla OpExamples.

Lemma args_have_terms_spec st op i n :
  args_have_terms st op i n = true ↔
  ∀ j : nat, (i ≤ j < i + n)%nat → has_term st (get_arg_sort_kind op j) = true.
Proof.
  revert i. induction n as [|n IH]; intros i; simpl.
  - split; [intros _ j Hj; lia|reflexivity].
  - destruct (has_term st (get_arg_sort_kind op i)) eqn:Hi.
    + rewrite IH. split.
      * intros H j Hj. destruct (decide (j = i)) as [->|Hne]; [done|].
        apply H. lia.
      * intros H j Hj. apply H. lia.
    + split; [discriminate|]. intros H. rewrite <- Hi. apply H. lia.
Qed.

Lemma op_has_terms_covered st op :
  op_has_terms st op = true ↔ args_covered st op.
Proof.
  unfold op_has_terms, args_covered. destruct (d_arity op <? 0); [done|].
  rewrite args_have_terms_spec. split; intros H j Hj; apply H; lia.
Qed.

Lemma qualifies_spec st op :
  qualifies st op = true ↔
  args_covered st op
  ∧ (d_kind op = FORALL ∨ d_kind op = EXISTS →
     db_has_var (d_term_db st) = true
     ∧ db_has_quant_body (d_term_db st) = true).
Proof.
  unfold qualifies, quantifier_blocked.
  rewrite andb_true_iff, negb_true_iff, op_has_terms_covered.
  split.
  - intros [Hq Hargs]. split; [done|]. intros Hkind.
    apply andb_false_iff in Hq as [Hq|Hq].
    + apply orb_false_iff in Hq as [H1 H2].
      apply bool_decide_eq_false in H1, H2. tauto.
    + apply orb_false_iff in Hq as [H1 H2].
      apply negb_false_iff in H1, H2. done.
  - intros [Hargs Hq]. split; [|done].
    destruct (bool_decide (d_kind op = FORALL)
              || bool_decide (d_kind op = EXISTS)) eqn:Hk; [|done].
    apply orb_true_iff in Hk.
    destruct Hq as [-> ->]; [|done].
    destruct Hk as [Hk|Hk]; apply bool_decide_eq_true in Hk; tauto.
Qed.

Lemma collect_kinds_cons st op rest kinds :
  collect_kinds st (op :: rest) kinds
  = collect_kinds st rest
      (if qualifies st op
       then <[d_theory op :=
                {[d_kind op]} ∪ default ∅ (kinds !! d_theory op)]> kinds
       else kinds).
Proof.
  simpl. unfold qualifies.
  destruct (quantifier_blocked st op); [reflexivity|].
  destruct (op_has_terms st op); reflexivity.
Qed.

Lemma kind_in_insert kinds theory kind t k :
  kind_in (<[theory := {[kind]} ∪ default ∅ (kinds !! theory)]> kinds) t k
  ↔ kind_in kinds t k ∨ (t = theory ∧ k = kind).
Proof.
  unfold kind_in. destruct (decide (t = theory)) as [->|Hne].
  - rewrite lookup_insert_eq. split.
    + intros (ks & [= <-] & Hk).
      apply elem_of_union in Hk as [Hk|Hk].
      * right. apply elem_of_singleton in Hk. done.
      * left. destruct (kinds !! theory) as [ks|]; simpl in Hk.
        -- eauto.
        -- by apply not_elem_of_empty in Hk.
    + intros [(ks & Hks & Hk)|[_ ->]]; eexists; (split; [reflexivity|]).
      * rewrite Hks. simpl. set_solver.
      * set_solver.
  - rewrite lookup_insert_ne by done. split; [by left|].
    intros [H|[? _]]; [done|congruence].
Qed.

(** The loop records exactly the kinds of the qualifying operators, each
    under the theory of its operator. *)
Lemma collect_kinds_spec st ops kinds t k :
  kind_in (collect_kinds st ops kinds) t k ↔
  kind_in kinds t k
  ∨ ∃ op, op ∈ ops ∧ qualifies st op = true
          ∧ d_theory op = t ∧ d_kind op = k.
Proof.
  revert kinds. induction ops as [|op ops IH]; intros kinds.
  - simpl. split; [by left|]. intros [H|(op & Hin & _)]; [done|inversion Hin].
  - rewrite collect_kinds_cons, IH.
    destruct (qualifies st op) eqn:Hq.
    + rewrite kind_in_insert. split.
      * intros [[H|[-> ->]]|(op' & Hin & H)].
        -- by left.
        -- right. exists op. split; [left|done].
        -- right. exists op'. split; [by right|done].
      * intros [H|(op' & Hin & Hq' & Ht & Hk)]; [by left; left|].
        apply elem_of_cons in Hin as [->|Hin].
        -- left. right. done.
        -- right. exists op'. done.
    + split.
      * intros [H|(op' & Hin & H)]; [by left|].
        right. exists op'. split; [by right|done].
      * intros [H|(op' & Hin & Hq' & Ht & Hk)]; [by left|].
        apply elem_of_cons in Hin as [->|Hin]; [congruence|].
        right. exists op'. done.
Qed.

(** No theory is recorded with an empty set of kinds. *)
Lemma collect_kinds_inhabited st ops kinds :
  (∀ t ks, kinds !! t = Some ks → ks ≠ ∅) →
  ∀ t ks, collect_kinds st ops kinds !! t = Some ks → ks ≠ ∅.
Proof.
  revert kinds. induction ops as [|op ops IH]; intros kinds Hinv; [done|].
  rewrite collect_kinds_cons. apply IH.
  destruct (qualifies st op); [|done].
  intros t ks. destruct (decide (t = d_theory op)) as [->|Hne].
  - rewrite lookup_insert_eq. intros [= <-]. set_solver.
  - rewrite lookup_insert_ne by done. apply Hinv.
Qed.

Lemma collect_kinds_empty_iff st ops :
  collect_kinds st ops ∅ = ∅ ↔
  ∀ op, op ∈ ops → qualifies st op = false.
Proof.
  split.
  - intros Hempty op Hin. destruct (qualifies st op) eqn:Hq; [|done].
    assert (kind_in (collect_kinds st ops ∅) (d_theory op) (d_kind op))
      as (ks & Hks & _).
    { apply collect_kinds_spec. right. exists op. done. }
    rewrite Hempty, lookup_empty in Hks. discriminate.
  - intros Hall. apply map_empty. intros t.
    destruct (collect_kinds st ops ∅ !! t) as [ks|] eqn:Hks; [|done].
    exfalso.
    assert (Hne : ks ≠ ∅).
    { eapply (collect_kinds_inhabited st ops ∅); [|exact Hks].
      intros ? ?. rewrite lookup_empty. discriminate. }
    apply set_choose_L in Hne as [k Hk].
    assert (kind_in (collect_kinds st ops ∅) t k) as Hin by (exists ks; done).
    apply collect_kinds_spec in Hin as [(? & Hl & _)|(op & Hin & Hq & _)].
    + rewrite lookup_empty in Hl. discriminate.
    + rewrite (Hall op Hin) in Hq. discriminate.
Qed.

Lemma pick_op_kind_none_qualifies st :
  (∀ op, op ∈ d_op_kinds st → qualifies st op = false) →
  pick_op_kind st true = Returns (UNDEFINED, st).
Proof.
  intros Hnone. unfold pick_op_kind.
  assert (Hk : collect_kinds st (d_op_kinds st) ∅ = ∅)
    by by apply collect_kinds_empty_iff.
  rewrite Hk, map_size_empty. reflexivity.
Qed.

Lemma pick_op_kind_some_qualifies st :
  let kinds := collect_kinds st (d_op_kinds st) ∅ in
  let theories := map fst (map_to_list kinds) in
  let r1 := advance (d_rng st) in
  let r2 := advance r1 in
  (∃ op, op ∈ d_op_kinds st ∧ qualifies st op = true) →
  ∃ theory kind op,
    NoDup theories
    ∧ pick_from_set (d_rng st) theories = Returns (theory, r1)
    ∧ pick_from_set r1 (elements (default ∅ (kinds !! theory)))
      = Returns (kind, r2)
    ∧ pick_op_kind st true = Returns (kind, with_rng st r2)
    ∧ op ∈ d_op_kinds st ∧ d_kind op = kind ∧ d_theory op = theory
    ∧ args_covered st op
    ∧ (kind = FORALL ∨ kind = EXISTS →
       db_has_var (d_term_db st) = true
       ∧ db_has_quant_body (d_term_db st) = true).
Proof.
  cbv zeta. intros (op0 & Hin0 & Hq0).
  unfold pick_op_kind.
  remember (collect_kinds st (d_op_kinds st) ∅) as kinds eqn:Hkinds.
  assert (Hne : kinds ≠ ∅).
  { intros Hk. rewrite Hkinds in Hk.
    rewrite (proj1 (collect_kinds_empty_iff st _) Hk op0 Hin0) in Hq0.
    discriminate. }
  assert (Hth : map fst (map_to_list kinds) ≠ []).
  { intros Hnil. apply Hne.
    apply map_to_list_empty_iff. by destruct (map_to_list kinds). }
  destruct (pick_from_set_nonempty (d_rng st) _ Hth)
    as (theory & Hpick1 & Htheory).
  apply list_elem_of_In, in_map_iff in Htheory as ([t ks] & Heq & Hin).
  simpl in Heq. subst theory.
  apply list_elem_of_In, elem_of_map_to_list in Hin.
  assert (Hks : ks ≠ ∅).
  { rewrite Hkinds in Hin.
    eapply (collect_kinds_inhabited st (d_op_kinds st) ∅); [|exact Hin].
    intros ? ?. rewrite lookup_empty. discriminate. }
  assert (Hel : elements ks ≠ []).
  { intros Hnil. apply Hks. apply elements_empty_iff in Hnil.
    by apply leibniz_equiv. }
  destruct (pick_from_set_nonempty (advance (d_rng st)) (elements ks) Hel)
    as (kind & Hpick2 & Hkind).
  apply elem_of_elements in Hkind.
  assert (kind_in kinds t kind) as Hrec by (exists ks; done).
  rewrite Hkinds in Hrec.
  apply collect_kinds_spec in Hrec
    as [(? & Hl & _)|(op & Hop & Hq & Ht & Hk)];
    [rewrite lookup_empty in Hl; discriminate|].
  apply qualifies_spec in Hq as [Hargs Hquant].
  exists t, kind, op.
  split; [apply NoDup_fst_map_to_list|].
  split; [exact Hpick1|].
  split; [rewrite Hin; exact Hpick2|].
  split.
  { rewrite bool_decide_eq_false_2
      by (intros Hsz; apply Hne; by apply map_size_empty_iff).
    rewrite Hpick1. simpl. rewrite Hin. simpl. rewrite Hpick2. reflexivity. }
  split; [exact Hop|]. split; [exact Hk|]. split; [exact Ht|].
  split; [exact Hargs|].
  intros Hkind'. apply Hquant. rewrite Hk. exact Hkind'.
Qed.









(** [pick_op_kind(true)] always returns. *)
Lemma pick_op_kind_with_terms_returns st :
  is_returns (pick_op_kind st true) = true.
Proof.
  destruct (decide (collect_kinds st (d_op_kinds st) ∅ = ∅)) as [He|Hne].
  - rewrite pick_op_kind_none_qualifies; [done|].
    by apply collect_kinds_empty_iff.
  - destruct (pick_op_kind_some_qualifies st)
      as (? & ? & ? & _ & _ & _ & -> & _); [|done].
    apply map_choose in Hne as (t & ks & Hks).
    assert (Hne : ks ≠ ∅).
    { eapply (collect_kinds_inhabited st (d_op_kinds st) ∅); [|exact Hks].
      intros ? ?. rewrite lookup_empty. discriminate. }
    apply set_choose_L in Hne as [k Hk].
    assert (kind_in (collect_kinds st (d_op_kinds st) ∅) t k) as Hin
      by (exists ks; done).
    apply collect_kinds_spec in Hin as [(? & Hl & _)|(op & Hin & Hq & _)].
    + rewrite lookup_empty in Hl. discriminate.
    + exists op. done.
Qed.

Example pick_op_kind_bool_bv :
  pick_op_kind with_bool_bv_terms true
  = Returns (OpNamed "OP_BV_ADD",
             with_rng with_bool_bv_terms
                      (advance (advance (d_rng with_bool_bv_terms)))).
Proof. vm_compute. reflexivity. Qed.

Example pick_op_kind_no_terms :
  pick_op_kind without_terms true = Returns (UNDEFINED, without_terms).
Proof. vm_compute. reflexivity. Qed.

End PickOpKind.

(* ====================================================================== *)
(** * The sort database *)
(* ====================================================================== *)

Section AddSort.
Import SortExamples.

Lemma bind_returns {A B : Type} (m : outcome A) (k : A → outcome B) b :
  m ≫= k = Returns b ↔ ∃ a, m = Returns a ∧ k a = Returns b.
Proof.
  destruct m as [a| |]; simpl.
  - split; [eauto|]. by intros (a' & [= <-] & H).
  - split; [discriminate|]. by intros (? & ? & _).
  - split; [discriminate|]. by intros (? & ? & _).
Qed.

Lemma assert_that_returns c which u :
  assert_that c which = Returns u ↔ c = true.
Proof. destruct c, u; simpl; split; done. Qed.

(** Peel the binds and assertions off a hypothesis [_ = Returns _]. *)
Ltac outcome_inv H :=
  repeat match type of H with
         | _ ≫= _ = Returns _ =>
             let a := fresh "a" in
             let Ha := fresh "Ha" in
             apply bind_returns in H as (a & Ha & H);
             try (apply assert_that_returns in Ha)
         end.

(** *** The earlier revision *)

(** One call never changes the contents of a per-kind set: it only makes
    sure an entry for [sort_kind] exists. *)
Lemma smtmbt_add_sort_kind_map st sort sort_kind sort' st' :
  SmtMbt.add_sort st sort sort_kind = Returns (sort', st') →
  d_sort_kind_to_sorts st'
  = <[sort_kind := default ∅ (d_sort_kind_to_sorts st !! sort_kind)]>
      (d_sort_kind_to_sorts st).
Proof.
  unfold SmtMbt.add_sort. intros H. outcome_inv H.
  destruct a0 as [s st1].
  outcome_inv H. injection H as _ <-. simpl.
  assert (Hmap : d_sort_kind_to_sorts st1 = d_sort_kind_to_sorts st).
  { destruct (d_sorts st !! _) as [found|].
    - outcome_inv Ha0. by injection Ha0 as _ <-.
    - by injection Ha0 as _ <-. }
  rewrite Hmap. f_equal.
  destruct (default ∅ (d_sort_kind_to_sorts st !! sort_kind) !! sort_native s)
    as [x|] eqn:Hx; [|reflexivity].
  unfold sortset_insert. by rewrite Hx.
Qed.

(** Hence, starting from an empty database, every per-kind set stays
    empty whatever is added. *)
Lemma smtmbt_add_sorts_kind_map_empty calls : ∀ st st',
  (∀ k set, d_sort_kind_to_sorts st !! k = Some set → set = ∅) →
  SmtMbt.add_sorts st calls = Returns st' →
  ∀ k set, d_sort_kind_to_sorts st' !! k = Some set → set = ∅.
Proof.
  induction calls as [|[sort sort_kind] rest IH]; intros st st' Hinv Hrun.
  - by injection Hrun as <-.
  - simpl in Hrun. apply bind_returns in Hrun as ([s st1] & Hcall & Hrun).
    apply (IH st1 st'); [|exact Hrun].
    rewrite (smtmbt_add_sort_kind_map _ _ _ _ _ Hcall).
    intros k set. destruct (decide (k = sort_kind)) as [->|Hne].
    + rewrite lookup_insert_eq. intros [= <-].
      destruct (d_sort_kind_to_sorts st !! sort_kind) as [set0|] eqn:Hs;
        [exact (Hinv _ _ Hs)|reflexivity].
    + rewrite lookup_insert_ne by done. apply Hinv.
Qed.

(** C2, the defect: in the earlier revision, adding the first bit-vector
    sort to an empty database stores it in [d_sorts] with id 1 and kind
    [SORT_BV], but leaves the set of [SORT_BV] sorts empty, because the
    insertion is performed only when the sort is already there. *)
Theorem smtmbt_add_sort_misses_kind_map :
  ∃ sort st',
    SmtMbt.add_sort empty_db bv8 SORT_BV = Returns (sort, st')
    ∧ d_sorts st' !! 7%nat = Some sort
    ∧ get_id sort = 1 ∧ get_kind sort = SORT_BV ∧ d_n_sorts st' = 1
    ∧ d_sort_kind_to_sorts st' !! SORT_BV = Some ∅.
Proof.
  eexists _, _. split; [vm_compute; reflexivity|].
  vm_compute. repeat split; reflexivity.
Qed.

(** *** The current revision *)

Lemma initial_sort_db_invariant subtyping simple rng options ops db :
  sort_db_invariant (initial subtyping simple rng options ops db).
Proof.
  unfold sort_db_invariant, initial, UINT64_MOD. simpl.
  split; [lia|]. split.
  - intros h s. rewrite lookup_empty. discriminate.
  - intros k set h s. rewrite lookup_empty. discriminate.
Qed.

Lemma sortset_insert_lookup (set : SortSet) (s : AbsSort) h :
  sortset_insert s set !! h
  = if decide (h = sort_native s)
    then Some (default s (set !! sort_native s))
    else set !! h.
Proof.
  unfold sortset_insert.
  destruct (set !! sort_native s) as [x|] eqn:Hx; case_decide as Hh; subst.
  - by rewrite Hx.
  - reflexivity.
  - by rewrite lookup_insert_eq.
  - by rewrite lookup_insert_ne.
Qed.

Lemma insert_if_absent (set : SortSet) (s : AbsSort) :
  match set !! sort_native s with
  | Some _ => set
  | None => sortset_insert s set
  end = sortset_insert s set.
Proof. unfold sortset_insert. by destruct (set !! sort_native s). Qed.

Lemma murxla_add_sort_result st sort sort_kind sort' st' :
  Murxla.add_sort st sort sort_kind = Returns (sort', st') →
  let s1 := if bool_decide (get_kind sort = SORT_ANY)
            then set_kind sort sort_kind else sort in
  let set0 := default ∅ (d_sort_kind_to_sorts st !! sort_kind) in
  sort_kind ≠ SORT_ANY
  ∧ get_id sort' ≠ 0
  ∧ match d_sorts st !! sort_native sort with
    | Some found =>
        sort' = found
        ∧ st' = with_sort_kind_to_sorts st
                  (<[sort_kind := sortset_insert found set0]>
                     (d_sort_kind_to_sorts st))
    | None =>
        sort' = set_id s1 (wrap64 (d_n_sorts st + 1))
        ∧ st' = with_sort_kind_to_sorts
                  (with_sorts st (<[sort_native sort := sort']> (d_sorts st))
                              (wrap64 (d_n_sorts st + 1))
                              (wrap64 (d_stats_sorts st + 1)))
                  (<[sort_kind := sortset_insert sort' set0]>
                     (d_sort_kind_to_sorts st))
    end.
Proof.
  intros H s1 set0. unfold Murxla.add_sort in H.
  apply bind_returns in H as ([] & Hany & H).
  apply assert_that_returns, negb_true_iff, bool_decide_eq_false in Hany.
  apply bind_returns in H as (s1' & Hs1 & H).
  assert (s1' = s1) as ->.
  { subst s1. revert Hs1.
    destruct (bool_decide (get_kind sort = SORT_ANY)); intros Hs1;
      [|by injection Hs1 as <-].
    apply bind_returns in Hs1 as ([] & _ & Hs1). by injection Hs1 as <-. }
  assert (Hs1n : sort_native s1 = sort_native sort).
  { subst s1. by destruct (bool_decide (get_kind sort = SORT_ANY)). }
  apply bind_returns in H as ([] & _ & H).
  apply bind_returns in H as ([] & _ & H).
  apply bind_returns in H as ([s2 st1] & Hlook & H).
  apply bind_returns in H as ([] & Hid & H).
  apply assert_that_returns, negb_true_iff, bool_decide_eq_false in Hid.
  apply bind_returns in H as ([] & _ & H).
  injection H as <- <-.
  split; [done|]. split; [done|].
  rewrite Hs1n in Hlook.
  destruct (d_sorts st !! sort_native sort) as [found|] eqn:Hfound.
  - apply bind_returns in Hlook as ([] & _ & Hlook).
    apply bind_returns in Hlook as ([] & _ & Hlook).
    injection Hlook as <- <-. split; [done|].
    by rewrite insert_if_absent.
  - injection Hlook as <- <-. split; [done|].
    rewrite insert_if_absent. simpl. by rewrite Hs1n.
Qed.

Lemma wrap64_next n :
  0 ≤ n < UINT64_MOD → wrap64 (n + 1) ≠ 0 →
  wrap64 (n + 1) = n + 1 ∧ n + 1 < UINT64_MOD.
Proof.
  unfold wrap64, UINT64_MOD. intros Hn Hnz.
  destruct (decide (n + 1 = 2 ^ 64)) as [Heq|Hneq].
  - exfalso. apply Hnz. rewrite Heq. apply Z.mod_same. lia.
  - split; [apply Z.mod_small|]; lia.
Qed.

Lemma murxla_add_sort_step st sort sort_kind sort' st' :
  sort_db_invariant st →
  sort_argument st sort →
  Murxla.add_sort st sort sort_kind = Returns (sort', st') →
  sort_db_invariant st'
  ∧ sort_native sort' = sort_native sort
  ∧ d_sorts st' !! sort_native sort' = Some sort'
  ∧ ∃ set, d_sort_kind_to_sorts st' !! sort_kind = Some set
           ∧ set !! sort_native sort' = Some sort'.
Proof.
  intros (Hn & Hdb & Hkm) Harg H.
  apply murxla_add_sort_result in H as (Hany & Hid & H). cbv zeta in H.
  set (set0 := default ∅ (d_sort_kind_to_sorts st !! sort_kind)) in *.
  assert (Hset0 : ∀ h s, set0 !! h = Some s → d_sorts st !! h = Some s).
  { intros h s Hs. subst set0.
    destruct (d_sort_kind_to_sorts st !! sort_kind) as [set1|] eqn:Hk1;
      simpl in Hs; [|by rewrite lookup_empty in Hs].
    exact (Hkm _ _ _ _ Hk1 Hs). }
  destruct (d_sorts st !! sort_native sort) as [found|] eqn:Hfound.
  - destruct H as [-> ->].
    destruct (Hdb _ _ Hfound) as (Hfn & Hfid & Hfk & setf & Hsetf & Hinf).
    assert (Hnew : default found (set0 !! sort_native found) = found).
    { destruct (set0 !! sort_native found) as [x|] eqn:Hx; [|done].
      simpl. apply Hset0 in Hx. rewrite Hfn in Hx. congruence. }
    split; [|split; [done|split; [by rewrite Hfn|]]].
    + split; [exact Hn|]. split.
      * intros h s Hs. simpl in Hs |- *.
        destruct (Hdb _ _ Hs) as (Hsn & Hsid & Hsk & set & Hset & Hin).
        split; [done|]. split; [done|]. split; [done|].
        destruct (decide (get_kind s = sort_kind)) as [Hk|Hk].
        -- rewrite Hk, lookup_insert_eq. eexists. split; [reflexivity|].
           rewrite sortset_insert_lookup. case_decide as Hh.
           ++ rewrite Hnew. f_equal. rewrite Hh, Hfn in Hs. congruence.
           ++ subst set0. rewrite <- Hk, Hset. exact Hin.
        -- rewrite lookup_insert_ne by done. eauto.
      * intros k set h s Hk Hs. simpl in Hk |- *.
        destruct (decide (k = sort_kind)) as [->|Hne].
        -- rewrite lookup_insert_eq in Hk. injection Hk as <-.
           rewrite sortset_insert_lookup in Hs. case_decide as Hh.
           ++ rewrite Hnew in Hs. injection Hs as <-.
              rewrite Hh, Hfn. exact Hfound.
           ++ by apply Hset0.
        -- rewrite lookup_insert_ne in Hk by done. exact (Hkm _ _ _ _ Hk Hs).
    + simpl. rewrite lookup_insert_eq. eexists. split; [reflexivity|].
      rewrite sortset_insert_lookup, decide_True by reflexivity.
      by rewrite Hnew.
  - destruct H as [Hsort' ->].
    assert (Hkind1 : get_kind sort' = sort_kind ∧ sort_native sort' = sort_native sort
                     ∧ get_id sort' = wrap64 (d_n_sorts st + 1)).
    { rewrite Hsort'. simpl. destruct Harg as [[Hk _]|Halias]; [|congruence].
      by rewrite bool_decide_eq_true_2. }
    destruct Hkind1 as (Hk1 & Hn1 & Hid1).
    rewrite Hid1 in Hid.
    destruct (wrap64_next _ Hn Hid) as [Hnext Hlt].
    assert (Habsent : set0 !! sort_native sort = None).
    { destruct (set0 !! sort_native sort) as [x|] eqn:Hx; [|done].
      apply Hset0 in Hx. congruence. }
    assert (Hnew : default sort' (set0 !! sort_native sort') = sort').
    { by rewrite Hn1, Habsent. }
    split; [|split; [done|split; [by simpl; rewrite Hn1, lookup_insert_eq|]]].
    + split; [simpl; lia|]. split.
      * intros h s Hs. simpl in Hs |- *.
        destruct (decide (h = sort_native sort)) as [->|Hne].
        -- rewrite lookup_insert_eq in Hs. injection Hs as <-.
           split; [done|]. split; [lia|]. split; [congruence|].
           rewrite Hk1, lookup_insert_eq. eexists. split; [reflexivity|].
           rewrite sortset_insert_lookup, decide_True by done.
           by rewrite Hnew.
        -- rewrite lookup_insert_ne in Hs by done.
           destruct (Hdb _ _ Hs) as (Hsn & Hsid & Hsk & set & Hset & Hin).
           split; [done|]. split; [lia|]. split; [done|].
           destruct (decide (get_kind s = sort_kind)) as [Hk|Hk].
           ++ rewrite Hk, lookup_insert_eq. eexists. split; [reflexivity|].
              rewrite sortset_insert_lookup, decide_False by congruence.
              subst set0. rewrite <- Hk, Hset. exact Hin.
           ++ rewrite lookup_insert_ne by done. eauto.
      * intros k set h s Hk Hs. simpl in Hk |- *.
        assert (Hold : ∀ h s, set0 !! h = Some s ∨ d_sorts st !! h = Some s →
                  <[sort_native sort := sort']> (d_sorts st) !! h = Some s).
        { intros h0 s0 [Hs0%Hset0|Hs0];
            (rewrite lookup_insert_ne; [done|congruence]). }
        destruct (decide (k = sort_kind)) as [->|Hne].
        -- rewrite lookup_insert_eq in Hk. injection Hk as <-.
           rewrite sortset_insert_lookup in Hs. case_decide as Hh.
           ++ rewrite Hnew in Hs. injection Hs as <-.
              rewrite Hh, Hn1. by rewrite lookup_insert_eq.
           ++ apply Hold. by left.
        -- rewrite lookup_insert_ne in Hk by done. apply Hold. right.
           exact (Hkm _ _ _ _ Hk Hs).
    + simpl. rewrite lookup_insert_eq. eexists. split; [reflexivity|].
      rewrite sortset_insert_lookup, decide_True by reflexivity.
      by rewrite Hnew.
Qed.


(** Any run of calls keeps the database coherent. *)
Lemma murxla_sort_calls_invariant st calls st' :
  sort_calls Murxla.add_sort st calls st' →
  sort_db_invariant st → sort_db_invariant st'.
Proof.
  induction 1 as [|st sort sort_kind sort' st' rest st'' Harg Hcall _ IH];
    intros Hinv; [exact Hinv|].
  apply IH. by destruct (murxla_add_sort_step _ _ _ _ _ Hinv Harg Hcall).
Qed.

Lemma murxla_sort_calls_add_sorts st calls st' :
  sort_calls Murxla.add_sort st calls st' →
  Murxla.add_sorts st calls = Returns st'.
Proof.
  induction 1 as [|st sort sort_kind sort' st' rest st'' _ Hcall _ IH];
    [reflexivity|].
  simpl. rewrite Hcall. exact IH.
Qed.

(** In the current revision the property of C2 holds: after any run of
    [add_sort] calls from the initial state, every stored sort has an id in
    [1, d_n_sorts] and is listed under its kind, and each call leaves the
    interned sort listed under the kind it was added with. *)
Lemma murxla_add_sort_database subtyping simple rng options ops db calls st :
  sort_calls Murxla.add_sort
             (initial subtyping simple rng options ops db) calls st →
  (∀ h s, d_sorts st !! h = Some s →
          1 ≤ get_id s ≤ d_n_sorts st
          ∧ ∃ set, d_sort_kind_to_sorts st !! get_kind s = Some set
                   ∧ set !! h = Some s)
  ∧ (∀ sort sort_kind sort' st',
       sort_argument st sort →
       Murxla.add_sort st sort sort_kind = Returns (sort', st') →
       ∃ set, d_sort_kind_to_sorts st' !! sort_kind = Some set
              ∧ set !! sort_native sort' = Some sort').
Proof.
  intros Hrun.
  assert (Hinv : sort_db_invariant st).
  { eapply murxla_sort_calls_invariant; [exact Hrun|].
    apply initial_sort_db_invariant. }
  split.
  - intros h s Hs. destruct Hinv as (_ & Hdb & _).
    destruct (Hdb _ _ Hs) as (_ & ? & _ & ?). done.
  - intros sort sort_kind sort' st' Harg Hcall.
    by destruct (murxla_add_sort_step _ _ _ _ _ Hinv Harg Hcall)
      as (_ & _ & _ & ?).
Qed.

Example murxla_add_sort_bv8 :
  ∃ sort st',
    Murxla.add_sort empty_db bv8 SORT_BV = Returns (sort, st')
    ∧ get_id sort = 1 ∧ get_kind sort = SORT_BV
    ∧ d_sort_kind_to_sorts st' !! SORT_BV = Some {[7%nat := sort]}.
Proof.
  eexists _, _. split; [vm_compute; reflexivity|].
  vm_compute. repeat split; reflexivity.
Qed.

(** The earlier revision breaks the coherence with its first call. *)
Lemma smtmbt_add_sort_breaks_invariant :
  ∃ sort st',
    SmtMbt.add_sort empty_db bv8 SORT_BV = Returns (sort, st')
    ∧ sort_db_invariant empty_db ∧ sort_argument empty_db bv8
    ∧ ¬ sort_db_invariant st'.
Proof.
  eexists _, _. split; [vm_compute; reflexivity|].
  split; [apply initial_sort_db_invariant|]. split; [by left|].
  intros (_ & Hdb & _).
  destruct (Hdb 7%nat (mkSort 7 1 SORT_BV false 8 []))
    as (_ & _ & _ & set & Hset & Hin); [vm_compute; reflexivity|].
  vm_compute in Hset. injection Hset as <-.
  vm_compute in Hin. discriminate.
Qed.

End AddSort.

(* ====================================================================== *)
(** * Command line *)
(* ====================================================================== *)

Section CliProofs.
Import Cli CliExamples ReplayExamples.

Lemma bind_ok {A B : Type} (m : result A) (k : A → result B) b :
  m ≫= k = Ok b ↔ ∃ a, m = Ok a ∧ k a = Ok b.
Proof.
  destruct m; simpl; split; try discriminate; eauto;
    try (by intros (? & ? & _)).
  by intros (a' & [= <-] & H).
Qed.

Lemma MURXLA_EXIT_ERROR_ok cond msg u :
  MURXLA_EXIT_ERROR cond msg = Ok u ↔ cond = false.
Proof. unfold MURXLA_EXIT_ERROR. destruct cond, u; split; done. Qed.

Lemma append_assoc (s t u : string) : (s +:+ t) +:+ u = s +:+ (t +:+ u).
Proof.
  induction s as [|c s IH]; [reflexivity|].
  change (String c ((s +:+ t) +:+ u) = String c (s +:+ (t +:+ u))).
  f_equal. exact IH.
Qed.

Lemma append_nil_r (s : string) : s +:+ "" = s.
Proof.
  induction s as [|c s IH]; [reflexivity|].
  change (String c (s +:+ "") = String c s). f_equal. exact IH.
Qed.

Lemma prefix_append (s t : string) : String.prefix s (s +:+ t) = true.
Proof.
  induction s as [|c s IH]; [by destruct t|].
  change (String.prefix (String c s) (String c (s +:+ t)) = true).
  simpl. destruct (ascii_dec c c); [exact IH|congruence].
Qed.

Lemma arg_is_app arg l1 l2 :
  arg_is arg (l1 ++ l2) = arg_is arg l1 || arg_is arg l2.
Proof. apply existsb_app. Qed.

Lemma arg_is_true arg names : arg_is arg names = true ↔ arg ∈ names.
Proof.
  unfold arg_is. rewrite existsb_exists, list_elem_of_In. split.
  - intros (x & Hin & Heq). apply String.eqb_eq in Heq. by subst.
  - intros Hin. exists arg. split; [done|apply String.eqb_refl].
Qed.

(** ** The scan for [-u] *)

Lemma get_options_scan_cons arg rest args o :
  get_options_scan (arg :: rest) args o
  = if arg_is arg untrace_flags then
      match rest with
      | [] =>
          match last args with
          | Some option => check_next_arg option []
          | None => UndefinedBehaviour "args.back() on an empty vector"
          end ≫= λ _, Ok (o, args)
      | file :: rest' =>
          get_options_scan rest' args (set_untrace_file_name file o)
      end
    else get_options_scan rest (args ++ [arg]) o.
Proof. reflexivity. Qed.

Lemma get_options_scan_plain xs : ∀ args o,
  (∀ a, a ∈ xs → arg_is a untrace_flags = false) →
  get_options_scan xs args o = Ok (o, args ++ xs).
Proof.
  induction xs as [|x xs IH]; intros args o Hxs.
  - simpl. by rewrite app_nil_r.
  - rewrite get_options_scan_cons, (Hxs x) by left.
    rewrite IH by (intros a Ha; apply Hxs; by right).
    by rewrite <- app_assoc.
Qed.

Lemma get_options_scan_untrace pre flag file post args o :
  (∀ a, a ∈ pre → arg_is a untrace_flags = false) →
  arg_is flag untrace_flags = true →
  get_options_scan (pre ++ flag :: file :: post) args o
  = get_options_scan post (args ++ pre) (set_untrace_file_name file o).
Proof.
  revert args. induction pre as [|x pre IH]; intros args Hpre Hflag.
  - simpl app. by rewrite get_options_scan_cons, Hflag, app_nil_r.
  - simpl app. rewrite get_options_scan_cons, (Hpre x) by left.
    rewrite IH; [|intros a Ha; apply Hpre; by right|done].
    by rewrite <- app_assoc.
Qed.

(** What the scan returns contains neither [-u] nor [--untrace]. *)
Lemma get_options_scan_no_untrace xs : ∀ args o o' args',
  get_options_scan xs args o = Ok (o', args') →
  (∀ a, a ∈ args → arg_is a untrace_flags = false) →
  ∀ a, a ∈ args' → arg_is a untrace_flags = false.
Proof.
  induction xs as [xs IH] using (induction_ltof1 _ (@length string)).
  unfold ltof in IH. intros args o o' args' Hscan Hargs.
  destruct xs as [|x xs]; [by injection Hscan as <- <-|].
  rewrite get_options_scan_cons in Hscan.
  destruct (arg_is x untrace_flags) eqn:Hx.
  - destruct xs as [|file rest].
    + apply bind_ok in Hscan as (? & Hcheck & _).
      destruct (last args); discriminate.
    + eapply (IH rest); [simpl; lia|exact Hscan|exact Hargs].
  - eapply (IH xs); [simpl; lia|exact Hscan|].
    intros a Ha. apply elem_of_app in Ha as [Ha|Ha]; [by apply Hargs|].
    apply list_elem_of_singleton in Ha. by subst.
Qed.

(** ** One iteration of the parsing loop *)

(** Case analysis over the chain of comparisons in [parse_arg]. *)
Ltac parse_arg_cases :=
  repeat match goal with
         | |- context [if arg_is ?a ?l then _ else _] =>
             destruct (arg_is a l) eqn:?
         | H : context [if arg_is ?a ?l then _ else _] |- _ =>
             destruct (arg_is a l) eqn:?
         end.

(** An iteration looks at most at the argument right after the current
    one. *)
Lemma parse_arg_head ctx st arg next rest :
  parse_arg ctx st arg (next :: rest) = parse_arg ctx st arg [next].
Proof.
  unfold parse_arg, valued, check_next_arg.
  parse_arg_cases; reflexivity.
Qed.

(** An iteration that succeeds at the last argument does not advance, and
    does the same when an option follows. *)
Lemma parse_arg_last ctx st arg st' advanced next rest :
  parse_arg ctx st arg [] = Ok (st', advanced) →
  first_char next = "-"%char →
  advanced = false
  ∧ parse_arg ctx st arg (next :: rest) = Ok (st', false).
Proof.
  intros H Hnext. unfold parse_arg in *.
  parse_arg_cases;
    unfold valued, check_next_arg, flag, enable_theory, disable_theory,
      exit_stream in *;
    simpl in *; try discriminate; rewrite ?Hnext; simpl;
    try (injection H as <- <-; done).
  all: destruct (check_solver_kind ctx _); simpl in *; try discriminate;
    injection H as <- <-; done.
Qed.

(** ** The parsing loop *)

Lemma parse_args_cons ctx st arg rest :
  parse_args ctx st (arg :: rest)
  = parse_arg ctx st arg rest ≫= λ '(st', advanced),
      if advanced : bool then
        match rest with
        | [] => Ok st'
        | _ :: rest' => parse_args ctx st' rest'
        end
      else parse_args ctx st' rest.
Proof.
  simpl. destruct (parse_arg ctx st arg rest) as [[st' adv]| | | | |];
    reflexivity.
Qed.

(** The loop runs left to right: once a prefix of the arguments has been
    parsed on its own, parsing the whole list continues from the state the
    prefix produced, provided what follows starts with an option. *)
Lemma parse_args_app ctx xs : ∀ st st1 ys,
  parse_args ctx st xs = Ok st1 →
  (∀ y ys', ys = y :: ys' → first_char y = "-"%char) →
  parse_args ctx st (xs ++ ys) = parse_args ctx st1 ys.
Proof.
  induction xs as [xs IH] using (induction_ltof1 _ (@length string)).
  unfold ltof in IH. intros st st1 ys Hxs Hys.
  destruct xs as [|arg rest].
  - simpl in *. by injection Hxs as <-.
  - rewrite parse_args_cons in Hxs.
    apply bind_ok in Hxs as ([st' adv] & Harg & Hrest).
    change ((arg :: rest) ++ ys) with (arg :: (rest ++ ys)).
    rewrite parse_args_cons.
    destruct rest as [|next rest'].
    + destruct ys as [|y ys'].
      * simpl. rewrite Harg. exact Hrest.
      * destruct (parse_arg_last _ _ _ _ _ y ys' Harg (Hys _ _ eq_refl))
          as [-> Hy].
        simpl app. rewrite Hy. simpl in *. by injection Hrest as <-.
    + simpl app. rewrite parse_arg_head. rewrite parse_arg_head in Harg.
      rewrite Harg. simpl. destruct adv.
      * apply IH; [simpl; lia|exact Hrest|exact Hys].
      * apply (IH (next :: rest')); [simpl; lia|exact Hrest|exact Hys].
Qed.

Lemma parse_options_ok ctx o argv st :
  parse_options ctx o argv = Ok st ↔
  ∃ o' args st1 line,
    get_options ctx o argv = Ok (o', args)
    ∧ parse_args ctx (initial_state o') args = Ok st1
    ∧ record_cmd_line args "set-murxla-options" = Ok line
    ∧ st = upd (set_cmd_line_trace line) (upd settle_solver st1).
Proof.
  unfold parse_options. rewrite bind_ok. split.
  - intros ([o' args] & Hget & H).
    apply bind_ok in H as (st1 & Hparse & H).
    apply bind_ok in H as (line & Hline & H).
    injection H as <-. by exists o', args, st1, line.
  - intros (o' & args & st1 & line & Hget & Hparse & Hline & ->).
    exists (o', args). split; [done|].
    rewrite Hparse. simpl. rewrite Hline. reflexivity.
Qed.

(** ** Options taken from the untraced file *)

(** The options that enable a theory neither take nor look at the next
    argument. *)
Lemma parse_arg_theory_option ctx st arg rest t :
  lookup_flag theory_flags arg = Some t →
  parse_arg ctx st arg rest = Ok (enable_theories [t] st, false).
Proof.
  unfold lookup_flag, theory_flags.
  repeat match goal with
         | |- context [String.eqb arg ?flag] =>
             destruct (String.eqb_spec arg flag) as [->|_];
             [intros [= <-]; reflexivity|]
         end.
  discriminate.
Qed.

Lemma enable_theories_nil st : enable_theories [] st = st.
Proof.
  destruct st as [o csv export]. unfold enable_theories, upd. simpl.
  by rewrite app_nil_r.
Qed.

Lemma enable_theories_app l1 l2 st :
  enable_theories l2 (enable_theories l1 st) = enable_theories (l1 ++ l2) st.
Proof.
  destruct st as [o csv export]. unfold enable_theories, upd. simpl.
  by rewrite app_assoc.
Qed.

(** Options that enable theories at the front of the arguments take
    effect one after the other; the loop then goes on with what follows
    them. *)
Lemma parse_args_theory_options ctx opts : ∀ st args,
  theory_options opts →
  parse_args ctx st (opts ++ args)
  = parse_args ctx (enable_theories (theories_named opts) st) args.
Proof.
  induction opts as [|opt opts IH]; intros st args Hopts.
  - simpl. by rewrite enable_theories_nil.
  - destruct (Hopts opt) as [t Ht]; [left|].
    change ((opt :: opts) ++ args) with (opt :: (opts ++ args)).
    change (theories_named (opt :: opts))
      with (match lookup_flag theory_flags opt with
            | Some t => t :: theories_named opts
            | None => theories_named opts
            end).
    rewrite Ht, parse_args_cons, (parse_arg_theory_option _ _ _ _ _ Ht).
    unfold mbind, result_bind. cbv beta iota.
    rewrite IH by (intros a Ha; apply Hopts; by right).
    by rewrite enable_theories_app.
Qed.

Lemma parse_args_theory_options_all ctx args st :
  theory_options args →
  parse_args ctx st args
  = Ok (enable_theories (theories_named args) st).
Proof.
  intros Hargs.
  pose proof (parse_args_theory_options ctx args st [] Hargs) as H.
  by rewrite app_nil_r in H.
Qed.

Lemma record_cmd_line_theory_options args : ∀ ss,
  theory_options args →
  record_cmd_line args ss = Ok (ss +:+ join_args args).
Proof.
  induction args as [|arg args IH]; intros ss Hargs.
  - simpl. by rewrite append_nil_r.
  - assert (Hrest : theory_options args)
      by (intros a Ha; apply Hargs; by right).
    destruct (Hargs arg) as [t Ht]; [left|].
    assert (Hstep : record_cmd_line (arg :: args) ss
                    = record_cmd_line args (ss +:+ " " +:+ arg)).
    { revert Ht. unfold lookup_flag, theory_flags.
      repeat match goal with
             | |- context [String.eqb arg ?flag] =>
                 destruct (String.eqb_spec arg flag) as [->|_];
                 [intros _; reflexivity|]
             end.
      discriminate. }
    rewrite Hstep, IH by done. simpl. by rewrite !append_assoc.
Qed.

Lemma settle_solver_enabled o :
  enabled_theories (settle_solver o) = enabled_theories o
  ∧ untrace_file_name (settle_solver o) = untrace_file_name o.
Proof.
  unfold settle_solver.
  repeat match goal with
         | |- context [if ?c then _ else _] => destruct c
         end; split; reflexivity.
Qed.

Lemma arg_is_untrace_false a :
  a ≠ "-u" → a ≠ "--untrace" → arg_is a untrace_flags = false.
Proof.
  intros H1 H2. unfold arg_is, untrace_flags. simpl.
  apply String.eqb_neq in H1, H2. by rewrite H1, H2.
Qed.

(** With the file name given once on the command line, the arguments
    handed to the parsing loop are the options of the trace followed by
    the command line without the two [-u] arguments. *)
Lemma get_options_with_untrace
    ctx o prog pre flag file post content keyword opts :
  (∀ a, a ∈ pre → arg_is a untrace_flags = false) →
  (∀ a, a ∈ post → arg_is a untrace_flags = false) →
  arg_is flag untrace_flags = true →
  file ≠ "" →
  read_file ctx file = Some content →
  String.prefix "set-murxla-options" (getline content) = true →
  split ctx (getline content) " "%char = keyword :: opts →
  get_options ctx o (prog :: pre ++ flag :: file :: post)
  = Ok (set_untrace_file_name file o, opts ++ pre ++ post).
Proof.
  intros Hpre Hpost Hflag Hfile Hread Hprefix Hsplit.
  unfold get_options. simpl tail.
  rewrite get_options_scan_untrace by assumption.
  rewrite get_options_scan_plain by assumption.
  simpl. apply String.eqb_neq in Hfile. rewrite Hfile, Hread, Hprefix, Hsplit.
  reflexivity.
Qed.

Lemma add_solver_options_untrace ctx prefix opts f : ∀ o,
  add_solver_options ctx prefix opts (set_untrace_file_name f o)
  = add_solver_options ctx prefix opts o ≫= λ o',
      Ok (set_untrace_file_name f o').
Proof.
  induction opts as [|opt opts IH]; intros o; simpl; [reflexivity|].
  destruct (split ctx opt "="%char) as [|name [|value [|? ?]]];
    try reflexivity.
  - apply IH.
  - apply (IH (set_solver_options
                 (solver_options o ++ [(prefix +:+ name, value)]) o)).
Qed.

(** No option but [-u] reads or writes the name of the untraced file. *)
Lemma parse_arg_untrace_name ctx st arg rest f :
  arg ≠ "-u" → arg ≠ "--untrace" →
  parse_arg ctx (upd (set_untrace_file_name f) st) arg rest
  = parse_arg ctx st arg rest ≫= λ '(st', advanced),
      Ok (upd (set_untrace_file_name f) st', advanced).
Proof.
  intros H1 H2. destruct st as [o csv export].
  unfold parse_arg. parse_arg_cases;
    unfold valued, check_next_arg, flag, enable_theory, disable_theory,
      exit_stream, MURXLA_EXIT_ERROR, upd;
    cbn [options g_errors_print_csv g_export_errors];
    try reflexivity.
  all: try (destruct rest as [|next rest]; cbn; try reflexivity).
  all: repeat match goal with
         | |- context [if ?c then _ else _] =>
             destruct c eqn:?; cbn; try reflexivity
         end.
  all: try (exfalso;
            match goal with
            | H : arg_is _ ["-u"; "--untrace"] = true |- _ =>
                apply arg_is_true, list_elem_of_In in H; simpl in H;
                intuition congruence
            end).
  all: rewrite ?add_solver_options_untrace;
    match goal with
    | |- context [check_solver_kind ?c ?k] => destruct (check_solver_kind c k)
    | |- context [add_solver_options ?c ?p ?l ?o] =>
        destruct (add_solver_options c p l o)
    | |- context [stoi ?v] => destruct (stoi v)
    end; reflexivity.
Qed.

Lemma parse_args_untrace_name ctx f args : ∀ st,
  (∀ a, a ∈ args → a ≠ "-u" ∧ a ≠ "--untrace") →
  parse_args ctx (upd (set_untrace_file_name f) st) args
  = parse_args ctx st args ≫= λ st', Ok (upd (set_untrace_file_name f) st').
Proof.
  induction args as [args IH] using (induction_ltof1 _ (@length string)).
  unfold ltof in IH. intros st Hargs.
  destruct args as [|arg rest]; [reflexivity|].
  rewrite !parse_args_cons.
  rewrite parse_arg_untrace_name by (apply Hargs; by left).
  destruct (parse_arg ctx st arg rest) as [[st1 adv]| | | | |];
    try reflexivity.
  cbn. destruct adv; [destruct rest as [|next rest']|].
  - reflexivity.
  - apply IH; [simpl; lia|]. intros a Ha. apply Hargs. right. by right.
  - apply IH; [simpl; lia|]. intros a Ha. apply Hargs. by right.
Qed.

Lemma settle_solver_untrace_name f o :
  settle_solver (set_untrace_file_name f o)
  = set_untrace_file_name f (settle_solver o).
Proof.
  destruct o. unfold settle_solver. cbn.
  repeat match goal with
         | |- context [if ?c then _ else _] => destruct c eqn:?; cbn in *
         end; first [reflexivity | congruence].
Qed.

(** Replaying with the trace file is the run of the command line that has
    the options of the trace typed in front. *)
Lemma parse_options_untrace_as_typed
    ctx o prog pre flag file post content keyword opts :
  flag = "-u" ∨ flag = "--untrace" →
  (∀ a, a ∈ pre ++ post → a ≠ "-u" ∧ a ≠ "--untrace") →
  file ≠ "" →
  read_file ctx file = Some content →
  String.prefix "set-murxla-options" (getline content) = true →
  split ctx (getline content) " "%char = keyword :: opts →
  untrace_file_name o = "" →
  (∀ a, a ∈ opts → a ≠ "-u" ∧ a ≠ "--untrace") →
  parse_options ctx o (prog :: pre ++ flag :: file :: post)
  = parse_options ctx o (prog :: opts ++ pre ++ post) ≫= λ st,
      Ok (upd (set_untrace_file_name file) st).
Proof.
  intros Hflag Hplain Hfile Hread Hprefix Hsplit Hname Hopts.
  assert (Hall : ∀ a, a ∈ opts ++ pre ++ post → a ≠ "-u" ∧ a ≠ "--untrace").
  { intros a Ha. apply elem_of_app in Ha as [Ha|Ha]; auto. }
  unfold parse_options at 1.
  rewrite (get_options_with_untrace ctx o prog pre flag file post content
             keyword opts).
  2,3: intros a Ha; apply arg_is_untrace_false; apply Hplain, elem_of_app; auto.
  2: apply arg_is_true, list_elem_of_In; simpl; destruct Hflag; auto.
  2-5: done.
  unfold parse_options. unfold get_options. simpl tail.
  rewrite get_options_scan_plain
    by (intros a Ha; apply arg_is_untrace_false; by apply Hall).
  cbn. rewrite Hname. cbn.
  change (initial_state (set_untrace_file_name file o))
    with (upd (set_untrace_file_name file) (initial_state o)).
  rewrite parse_args_untrace_name by done.
  destruct (parse_args ctx (initial_state o) (opts ++ pre ++ post))
    as [st1| | | | |]; try reflexivity.
  cbn.
  destruct (record_cmd_line (opts ++ pre ++ post) "set-murxla-options");
    try reflexivity.
  cbn. destruct st1 as [o1 csv export]. unfold upd. cbn.
  by rewrite settle_solver_untrace_name.
Qed.
(** C4: when the file given via [-u]/[--untrace] can be read and its first
    line begins with "set-murxla-options", the tokens after the first one
    are put in front of the remaining command-line arguments, and option
    parsing runs over that list from left to right.  The options of the
    trace configure the run before the command line does: where they
    enable theories, these theories are entered first and the
    command-line arguments are parsed in the state so reached; where the
    command line enables theories as well, its theories follow those of
    the trace.  Altogether the run is the one of the command line that has
    the tokens of the trace typed in front, but for the name of the
    untraced file. *)
Theorem untrace_options_are_parsed_first
    ctx o prog pre flag file post content keyword opts :
  flag = "-u" ∨ flag = "--untrace" →
  (∀ a, a ∈ pre ++ post → a ≠ "-u" ∧ a ≠ "--untrace") →
  file ≠ "" →
  read_file ctx file = Some content →
  String.prefix "set-murxla-options" (getline content) = true →
  split ctx (getline content) " "%char = keyword :: opts →
  get_options ctx o (prog :: pre ++ flag :: file :: post)
  = Ok (set_untrace_file_name file o, opts ++ pre ++ post)
  ∧ parse_options ctx o (prog :: pre ++ flag :: file :: post)
    = (parse_args ctx (initial_state (set_untrace_file_name file o))
         (opts ++ pre ++ post) ≫= λ st,
       record_cmd_line (opts ++ pre ++ post) "set-murxla-options" ≫= λ line,
       Ok (upd (set_cmd_line_trace line) (upd settle_solver st)))
  ∧ (theory_options opts →
     parse_args ctx (initial_state (set_untrace_file_name file o))
       (opts ++ pre ++ post)
     = parse_args ctx
         (enable_theories (theories_named opts)
            (initial_state (set_untrace_file_name file o)))
         (pre ++ post))
  ∧ (theory_options opts → theory_options (pre ++ post) →
     ∃ st, parse_options ctx o (prog :: pre ++ flag :: file :: post) = Ok st
           ∧ enabled_theories (options st)
             = enabled_theories o ++ theories_named opts
               ++ theories_named (pre ++ post)
           ∧ untrace_file_name (options st) = file)
  ∧ (untrace_file_name o = "" →
     (∀ a, a ∈ opts → a ≠ "-u" ∧ a ≠ "--untrace") →
     parse_options ctx o (prog :: pre ++ flag :: file :: post)
     = parse_options ctx o (prog :: opts ++ pre ++ post) ≫= λ st,
         Ok (upd (set_untrace_file_name file) st)).
Proof.
  intros Hflag Hplain Hfile Hread Hprefix Hsplit.
  assert (Hget : get_options ctx o (prog :: pre ++ flag :: file :: post)
                 = Ok (set_untrace_file_name file o, opts ++ pre ++ post)).
  { unfold get_options. simpl tail.
    rewrite get_options_scan_untrace.
    - rewrite get_options_scan_plain.
      + simpl. apply String.eqb_neq in Hfile.
        by rewrite Hfile, Hread, Hprefix, Hsplit.
      + intros a Ha. apply arg_is_untrace_false; apply Hplain;
          apply elem_of_app; by right.
    - intros a Ha. apply arg_is_untrace_false; apply Hplain;
        apply elem_of_app; by left.
    - apply arg_is_true, list_elem_of_In. simpl. destruct Hflag; auto. }
  assert (Hrun : parse_options ctx o (prog :: pre ++ flag :: file :: post)
    = (parse_args ctx (initial_state (set_untrace_file_name file o))
         (opts ++ pre ++ post) ≫= λ st,
       record_cmd_line (opts ++ pre ++ post) "set-murxla-options" ≫= λ line,
       Ok (upd (set_cmd_line_trace line) (upd settle_solver st)))).
  { unfold parse_options. by rewrite Hget. }
  split; [exact Hget|]. split; [exact Hrun|]. split; [|split].
  - intros Hopts. by apply parse_args_theory_options.
  - intros Hopts Hargs. rewrite Hrun.
    rewrite parse_args_theory_options by done.
    rewrite parse_args_theory_options_all by done.
    rewrite record_cmd_line_theory_options
      by (intros a Ha; apply elem_of_app in Ha as [Ha|Ha]; auto).
    unfold mbind, result_bind.
    eexists. split; [reflexivity|].
    set (st2 := enable_theories (theories_named (pre ++ post)) _).
    change (enabled_theories (settle_solver (options st2))
            = enabled_theories o ++ theories_named opts
              ++ theories_named (pre ++ post)
            ∧ untrace_file_name (settle_solver (options st2)) = file).
    destruct (settle_solver_enabled (options st2)) as [-> ->].
    subst st2. split; [|reflexivity].
    unfold enable_theories, upd, initial_state. simpl.
    by rewrite <- app_assoc.
  - intros Hname Hopts.
    by eapply parse_options_untrace_as_typed.
Qed.

Example untrace_example_scan :
  get_options_scan (tail argv_untrace) [] default_options
  = Ok (set_untrace_file_name "run.trace" default_options,
        ["--stats"; "-t"; "20"]).
Proof. reflexivity. Qed.

Lemma untrace_options_are_parsed_first_witness :
  get_options machine_with_theories default_options argv_replay
  = Ok (set_untrace_file_name "theories.trace" default_options,
        ["--bv"; "--fp"] ++ ["--ints"] ++ ["--uf"])
  ∧ (∃ st, parse_options machine_with_theories default_options argv_replay
          = Ok st
          ∧ enabled_theories (options st)
            = [] ++ [THEORY_BV; THEORY_FP] ++ [THEORY_INT; THEORY_UF]
          ∧ untrace_file_name (options st) = "theories.trace")
  ∧ parse_options machine_with_theories default_options argv_replay
    = parse_options machine_with_theories default_options
        ("murxla" :: ["--bv"; "--fp"] ++ ["--ints"] ++ ["--uf"]) ≫= λ st,
        Ok (upd (set_untrace_file_name "theories.trace") st).
Proof.
  assert (Htheories : ∀ args : list string,
            Forall (λ a, is_Some (lookup_flag theory_flags a)) args →
            theory_options args).
  { intros args Hall a Ha. by eapply Forall_forall in Hall. }
  destruct (untrace_options_are_parsed_first machine_with_theories
              default_options "murxla" ["--ints"] "-u" "theories.trace"
              ["--uf"] theories_trace "set-murxla-options" ["--bv"; "--fp"])
    as (Hget & _ & _ & Hrun & Htyped).
  - by left.
  - intros a Ha. apply list_elem_of_In in Ha.
    destruct Ha as [<-|[<-|[]]]; split; discriminate.
  - discriminate.
  - reflexivity.
  - reflexivity.
  - reflexivity.
  - split; [exact Hget|]. split.
    + apply Hrun; apply Htheories; repeat constructor; eexists; reflexivity.
    + apply Htyped; [reflexivity|].
      intros a Ha. apply list_elem_of_In in Ha.
      destruct Ha as [<-|[<-|[]]]; split; discriminate.
Defined.

(** The later command-line option overrides the one of the trace. *)
Example untrace_example_time :
  time (options (parsed machine argv_untrace)) = "20"
  ∧ enabled_theories (options (parsed machine argv_untrace)) = [THEORY_BV]
  ∧ print_stats (options (parsed machine argv_untrace)) = true.
Proof. vm_compute. repeat split; reflexivity. Qed.

(** ** The recorded configuration line *)

Lemma record_cmd_line_cons arg rest ss :
  record_cmd_line (arg :: rest) ss
  = if arg_is arg untrace_flags
    then (if String.eqb arg "-u" then AssertFails "args[i] != -u"
          else AssertFails "args[i] != --untrace")
    else if arg_is arg dropped_with_value then
      match rest with
      | [] => Ok ss
      | _ :: rest' => record_cmd_line rest' ss
      end
    else if arg_is arg dropped_alone then record_cmd_line rest ss
    else record_cmd_line rest (ss +:+ " " +:+ arg).
Proof.
  unfold arg_is, untrace_flags. simpl.
  destruct (String.eqb arg "-u"); [reflexivity|].
  destruct (String.eqb arg "--untrace"); reflexivity.
Qed.

Lemma record_cmd_line_recorded args : ∀ ss line,
  record_cmd_line args ss = Ok line →
  ∃ kept, recorded args kept ∧ line = ss +:+ join_args kept.
Proof.
  induction args as [args IH] using (induction_ltof1 _ (@length string)).
  unfold ltof in IH. intros ss line Hrec.
  destruct args as [|arg rest].
  - injection Hrec as <-. exists []. split; [constructor|].
    symmetry. apply append_nil_r.
  - rewrite record_cmd_line_cons in Hrec.
    destruct (arg_is arg untrace_flags) eqn:Hu.
    { destruct (String.eqb arg "-u"); discriminate. }
    destruct (arg_is arg dropped_with_value) eqn:Hv.
    { destruct rest as [|value rest'].
      - injection Hrec as <-. exists []. split; [by constructor|].
        symmetry. apply append_nil_r.
      - destruct (IH rest' ltac:(simpl; lia) _ _ Hrec) as (kept & Hk & ->).
        exists kept. split; [by constructor|reflexivity]. }
    destruct (arg_is arg dropped_alone) eqn:Hd.
    { destruct (IH rest ltac:(simpl; lia) _ _ Hrec) as (kept & Hk & ->).
      exists kept. split; [by constructor|reflexivity]. }
    destruct (IH rest ltac:(simpl; lia) _ _ Hrec) as (kept & Hk & ->).
    exists (arg :: kept). split.
    + apply recorded_keep; [|exact Hk].
      by rewrite !arg_is_app, Hu, Hv, Hd.
    + simpl. by rewrite !append_assoc.
Qed.

Lemma recorded_sublist args kept : recorded args kept → sublist kept args.
Proof.
  induction 1.
  - constructor.
  - by do 2 apply sublist_cons.
  - apply sublist_cons. constructor.
  - by apply sublist_cons.
  - by apply sublist_skip.
Qed.

Lemma recorded_kept args kept :
  recorded args kept →
  ∀ a, a ∈ kept →
       arg_is a (untrace_flags ++ dropped_with_value ++ dropped_alone) = false.
Proof.
  induction 1 as [| | | |arg rest kept Harg _ IH]; intros a Ha;
    try (by inversion Ha); try (by apply IHrecorded).
  apply elem_of_cons in Ha as [->|Ha]; [exact Harg|by apply IH].
Qed.

(** Decide between hypotheses that place one argument in or outside the
    flag lists. *)
Ltac flags_contradiction :=
  exfalso;
  repeat match goal with
         | H : arg_is _ _ = _ |- _ =>
             unfold arg_is, untrace_flags, dropped_with_value,
               dropped_alone in H;
             simpl in H
         end;
  repeat match goal with
         | H : context [String.eqb ?a ?s] |- _ =>
             destruct (String.eqb_spec a s); subst; simpl in *
         end;
  discriminate.

(** The relation is functional: the recorded arguments are determined. *)
Lemma recorded_functional args kept1 :
  recorded args kept1 → ∀ kept2, recorded args kept2 → kept1 = kept2.
Proof.
  induction 1 as [|flag value rest kept Hv _ IH|flag Hv|flag rest kept Hd _ IH
                 |arg rest kept Hk _ IH];
    intros kept2 H2; inversion H2; subst;
    try reflexivity; try (by apply IH); try (f_equal; by apply IH);
    flags_contradiction.
Qed.

(** What the recording loop does: after a successful parse,
    [cmd_line_trace] is "set-murxla-options" followed by the recorded
    arguments, each behind a blank; the recorded arguments are those of the
    argument list [args] built by [get_options] that remain when every
    argument spelled [-s], [--seed], [-a], [--api-trace] is removed
    together with the argument after it and every argument spelled [-d],
    [--dd] is removed; they keep their order.  The loop goes by the
    spelling of an argument, whether it stands for an option or for the
    value of one. *)
Lemma cmd_line_trace_records_arguments ctx argv st :
  parse_options ctx default_options argv = Ok st →
  ∃ o args kept,
    get_options ctx default_options argv = Ok (o, args)
    ∧ recorded args kept
    ∧ cmd_line_trace (options st) = "set-murxla-options" +:+ join_args kept
    ∧ String.prefix "set-murxla-options" (cmd_line_trace (options st)) = true
    ∧ (∀ a, a ∈ kept →
            arg_is a (untrace_flags ++ dropped_with_value ++ dropped_alone)
            = false)
    ∧ sublist kept args.
Proof.
  intros Hparse.
  apply parse_options_ok in Hparse
    as (o & args & st1 & line & Hget & _ & Hline & ->).
  apply record_cmd_line_recorded in Hline as (kept & Hkept & ->).
  exists o, args, kept.
  split; [exact Hget|]. split; [exact Hkept|]. split; [reflexivity|].
  split; [apply prefix_append|].
  split; [exact (recorded_kept _ _ Hkept)|by apply recorded_sublist].
Qed.

Example parse_seeded_example :
  parse_options machine default_options argv_seeded
  = Ok (parsed machine argv_seeded)
  ∧ cmd_line_trace (options (parsed machine argv_seeded))
    = "set-murxla-options --cvc5 --no-fp --stats".
Proof. vm_compute. split; reflexivity. Qed.

(** The file name given to [-u] is not part of [args] and is not recorded;
    the options of the trace are. *)
Example untraced_file_name_not_recorded :
  cmd_line_trace (options (parsed machine argv_untrace))
  = "set-murxla-options --bv -t 10 --stats -t 20".
Proof. vm_compute. reflexivity. Qed.

(** C5: the recording loop takes the value of another option for a flag
    when it is spelled like one.  On the command line
    [--dd-match-err -a --stats] the value of [--dd-match-err] is [-a] and
    statistics are switched on, yet the recorded line holds neither [-a]
    nor [--stats]; replayed as the first line of a trace, that line ends
    the program, since [--dd-match-err] has lost its argument. *)
Theorem cmd_line_trace_loses_option_in_effect :
  parse_options machine default_options argv_flag_like_value
  = Ok (parsed machine argv_flag_like_value)
  ∧ dd_match_err (options (parsed machine argv_flag_like_value)) = "-a"
  ∧ print_stats (options (parsed machine argv_flag_like_value)) = true
  ∧ cmd_line_trace (options (parsed machine argv_flag_like_value))
    = "set-murxla-options --dd-match-err"
  ∧ parse_options machine_with_recorded default_options
      ["murxla"; "-u"; "recorded.trace"]
    = ExitStream EXIT_ERROR
        ("murxla: ERROR: missing argument to option '--dd-match-err'"
         +:+ endl).
Proof. vm_compute. repeat split; reflexivity. Qed.

(** An argument that holds blanks is recorded as it is, so that the line
    read back holds more options than the command line had. *)
Example value_with_blanks_recorded :
  cmd_line_trace
    (options (parsed machine ["murxla"; "--dd-match-out"; "x -s 5"]))
  = "set-murxla-options --dd-match-out x -s 5".
Proof. vm_compute. reflexivity. Qed.

(** ** Theories disabled by default *)

Lemma add_solver_options_disabled ctx prefix opts : ∀ o o',
  add_solver_options ctx prefix opts o = Ok o' →
  disabled_theories o' = disabled_theories o.
Proof.
  induction opts as [|opt rest IH]; intros o o' H; simpl in H.
  - by injection H as <-.
  - destruct (split ctx opt "="%char) as [|name [|value [|? ?]]];
      try discriminate.
    + by apply IH.
    + apply IH in H. exact H.
Qed.

(** Peel what surrounds the resulting state in a successful iteration. *)
Ltac iteration_result :=
  unfold enable_theory, disable_theory, valued, check_next_arg, flag,
    exit_stream, MURXLA_EXIT_ERROR in *;
  repeat match goal with
         | H : _ ≫= _ = Ok _ |- _ =>
             let a := fresh "a" in
             let Ha := fresh "Ha" in
             apply bind_ok in H as (a & Ha & H)
         | H : (if ?c then _ else _) = Ok _ |- _ =>
             destruct c eqn:?; try discriminate
         | H : match ?x with _ => _ end = Ok _ |- _ =>
             destruct x eqn:?; try discriminate
         | H : Ok _ = Ok _ |- _ => injection H as H; subst
         | H : (_, _) = (_, _) |- _ => injection H as ? ?; subst
         end;
  try discriminate.

Lemma parse_arg_disabled ctx st arg rest st' advanced :
  parse_arg ctx st arg rest = Ok (st', advanced) →
  disabled_theories (options st') = disabled_theories (options st)
  ∨ ∃ t, (arg, t) ∈ no_theory_flags
         ∧ disabled_theories (options st')
           = {[t]} ∪ disabled_theories (options st).
Proof.
  intros H. unfold parse_arg in H.
  parse_arg_cases; iteration_result.
  all: try (left; reflexivity).
  all: try (left; simpl;
            match goal with
            | Ho : add_solver_options _ _ _ _ = Ok _ |- _ =>
                exact (add_solver_options_disabled _ _ _ _ _ Ho)
            end).
  all: right; eexists; (split; [|reflexivity]);
    match goal with
    | Ht : arg_is ?a _ = true |- _ =>
        apply arg_is_true, list_elem_of_singleton in Ht; subst a
    end;
    apply list_elem_of_In; simpl; tauto.
Qed.

(** Option parsing only ever adds to [disabled_theories], and only the
    theory named by a [--no-...] argument. *)
Lemma parse_args_disabled ctx args : ∀ st st',
  parse_args ctx st args = Ok st' →
  disabled_theories (options st) ⊆ disabled_theories (options st')
  ∧ ∀ t, t ∈ disabled_theories (options st') →
         t ∈ disabled_theories (options st)
         ∨ ∃ flag, flag ∈ args ∧ (flag, t) ∈ no_theory_flags.
Proof.
  induction args as [args IH] using (induction_ltof1 _ (@length string)).
  unfold ltof in IH. intros st st' Hparse.
  destruct args as [|arg rest].
  - injection Hparse as <-. split; [done|]. intros t Ht. by left.
  - rewrite parse_args_cons in Hparse.
    apply bind_ok in Hparse as ([st1 adv] & Harg & Hrest).
    assert (Hstep : disabled_theories (options st)
                      ⊆ disabled_theories (options st1)
                    ∧ ∀ t, t ∈ disabled_theories (options st1) →
                           t ∈ disabled_theories (options st)
                           ∨ (arg, t) ∈ no_theory_flags).
    { destruct (parse_arg_disabled _ _ _ _ _ _ Harg) as [->|(t0 & Hin & ->)].
      - split; [done|]. intros t Ht. by left.
      - split; [apply union_subseteq_r|]. intros t Ht.
        apply elem_of_union in Ht as [Ht|Ht]; [|by left].
        apply elem_of_singleton in Ht. subst. by right. }
    destruct Hstep as [Hsub Hnew].
    assert (Htail : ∃ tail, (∀ a, a ∈ tail → a ∈ rest)
                            ∧ (length tail < length (arg :: rest))%nat
                            ∧ parse_args ctx st1 tail = Ok st').
    { destruct adv; [destruct rest as [|next rest']|].
      - exists []. split; [intros a Ha; inversion Ha|].
        split; [simpl; lia|exact Hrest].
      - exists rest'. split; [intros a Ha; by right|].
        split; [simpl; lia|exact Hrest].
      - exists rest. split; [done|]. split; [simpl; lia|exact Hrest]. }
    destruct Htail as (tail & Hsubl & Hlen & Htailp).
    destruct (IH tail Hlen _ _ Htailp) as [Hsub' Hnew'].
    split; [by etrans|].
    intros t Ht. destruct (Hnew' t Ht) as [Ht1|(flag & Hflag & Hin)].
    + destruct (Hnew t Ht1) as [?|?]; [by left|].
      right. exists arg. split; [left|done].
    + right. exists flag. split; [right; by apply Hsubl|done].
Qed.

Lemma settle_solver_disabled o :
  disabled_theories (settle_solver o) = disabled_theories o.
Proof.
  unfold settle_solver.
  repeat match goal with
         | |- context [if ?c then _ else _] => destruct c
         end; reflexivity.
Qed.


Lemma get_options_scan_disabled xs : ∀ args o o' args',
  get_options_scan xs args o = Ok (o', args') →
  disabled_theories o' = disabled_theories o.
Proof.
  induction xs as [xs IH] using (induction_ltof1 _ (@length string)).
  unfold ltof in IH. intros args o o' args' Hscan.
  destruct xs as [|x xs]; [by injection Hscan as <- <-|].
  rewrite get_options_scan_cons in Hscan.
  destruct (arg_is x untrace_flags).
  - destruct xs as [|file rest].
    + apply bind_ok in Hscan as (? & Hcheck & _).
      destruct (last args); discriminate.
    + by rewrite (IH rest ltac:(simpl; lia) _ _ _ _ Hscan).
  - exact (IH xs ltac:(simpl; lia) _ _ _ _ Hscan).
Qed.

Lemma get_options_disabled ctx o argv o' args :
  get_options ctx o argv = Ok (o', args) →
  disabled_theories o' = disabled_theories o.
Proof.
  unfold get_options. intros H.
  apply bind_ok in H as ([o1 args1] & Hscan & H).
  apply get_options_scan_disabled in Hscan. rewrite <- Hscan.
  repeat match type of H with
         | (if ?c then _ else _) = Ok _ => destruct c
         | match ?x with _ => _ end = Ok _ => destruct x; try discriminate
         end; by injection H as <- _.
Qed.

(** C10: [Options::disabled_theories] starts as the set of bags, sequences
    and sets and nothing else, and no theory is enabled explicitly; option
    parsing keeps these three disabled and adds only theories named by a
    [--no-...] argument, so without such an argument exactly the three
    remain disabled. *)
Theorem default_disabled_theories :
  disabled_theories default_options
  = {[THEORY_BAG; THEORY_SEQ; THEORY_SET]}
  ∧ (∀ t, t ∈ disabled_theories default_options ↔
          t = THEORY_BAG ∨ t = THEORY_SEQ ∨ t = THEORY_SET)
  ∧ enabled_theories default_options = []
  ∧ ∀ ctx argv st,
      parse_options ctx default_options argv = Ok st →
      ∃ o args,
        get_options ctx default_options argv = Ok (o, args)
        ∧ {[THEORY_BAG; THEORY_SEQ; THEORY_SET]}
            ⊆ disabled_theories (options st)
        ∧ (∀ t, t ∈ disabled_theories (options st) →
                t ∈ ({[THEORY_BAG; THEORY_SEQ; THEORY_SET]} : gset TheoryId)
                ∨ ∃ flag, flag ∈ args ∧ (flag, t) ∈ no_theory_flags)
        ∧ ((∀ flag t, (flag, t) ∈ no_theory_flags → flag ∉ args) →
           disabled_theories (options st)
           = {[THEORY_BAG; THEORY_SEQ; THEORY_SET]}).
Proof.
  split; [reflexivity|]. split.
  { intros t. change (disabled_theories default_options)
      with ({[THEORY_BAG; THEORY_SEQ; THEORY_SET]} : gset TheoryId).
    rewrite !elem_of_union, !elem_of_singleton. tauto. }
  split; [reflexivity|].
  intros ctx argv st Hparse.
  apply parse_options_ok in Hparse
    as (o & args & st1 & line & Hget & Hargs & _ & ->).
  exists o, args. split; [exact Hget|].
  apply get_options_disabled in Hget.
  apply parse_args_disabled in Hargs as [Hsub Hnew].
  change (disabled_theories
            (options (upd (set_cmd_line_trace line) (upd settle_solver st1))))
    with (disabled_theories (settle_solver (options st1))).
  rewrite settle_solver_disabled.
  change (disabled_theories (options (initial_state o)))
    with (disabled_theories o) in *.
  rewrite Hget in *.
  change (disabled_theories default_options)
    with ({[THEORY_BAG; THEORY_SEQ; THEORY_SET]} : gset TheoryId) in *.
  split; [exact Hsub|]. split; [exact Hnew|].
  intros Hnone. apply set_eq. intros t. split.
  - intros Ht. destruct (Hnew t Ht) as [?|(flag & Hflag & Hin)]; [done|].
    by destruct (Hnone _ _ Hin).
  - apply Hsub.
Qed.

Example disabled_after_no_fp :
  elements (disabled_theories (options (parsed machine argv_seeded)))
  = [THEORY_SET; THEORY_SEQ; THEORY_FP; THEORY_BAG].
Proof. vm_compute. reflexivity. Qed.

(** [--bags] records the theory as enabled and leaves it in the disabled
    set. *)
Example bags_enabled_still_disabled :
  enabled_theories (options (parsed machine ["murxla"; "--bags"]))
  = [THEORY_BAG]
  ∧ THEORY_BAG
      ∈ disabled_theories (options (parsed machine ["murxla"; "--bags"])).
Proof. split; [vm_compute; reflexivity|]. by vm_compute. Qed.

(** ** Tracing into the untraced file *)

Lemma main_after_parse ctx argv st :
  initialize_statistics ctx = Ok tt →
  parse_options ctx default_options argv = Ok st →
  main ctx argv
  = (create_tmp_directory ctx (tmp_dir (options st)) ≫= λ TMP_DIR,
     MURXLA_EXIT_ERROR
       (negb (String.eqb (api_trace_file_name (options st)) "")
        && String.eqb (api_trace_file_name (options st))
                      (untrace_file_name (options st)))
       "tracing into the file that is untraced is not supported" ≫= λ _,
     Ok (mkFuzzerStart st TMP_DIR)).
Proof. intros Hinit Hparse. unfold main. by rewrite Hinit, Hparse. Qed.

(** C9: when, after option parsing, the API-trace file name is non-empty
    and equals the untrace file name, control never reaches the
    construction of the fuzzer, behind which all running, tracing and
    replaying lies.  When the statistics could be set up and the temporary
    directory exists or could be created, [main] writes "murxla: ERROR:
    tracing into the file that is untraced is not supported" to stderr and
    exits with [EXIT_ERROR]; when creating the directory throws, which
    happens before the check and outside the [try] block, the exception
    leaves [main] instead. *)
Theorem main_rejects_tracing_into_untraced_file ctx argv st :
  parse_options ctx default_options argv = Ok st →
  api_trace_file_name (options st) ≠ "" →
  api_trace_file_name (options st) = untrace_file_name (options st) →
  (∀ start, main ctx argv ≠ Ok start)
  ∧ (initialize_statistics ctx = Ok tt →
     ∀ TMP_DIR,
       create_tmp_directory ctx (tmp_dir (options st)) = Ok TMP_DIR →
       main ctx argv
       = ExitStream EXIT_ERROR
           ("murxla: ERROR: tracing into the file that is untraced is not supported"
            +:+ endl))
  ∧ (initialize_statistics ctx = Ok tt →
     ∀ what,
       create_tmp_directory ctx (tmp_dir (options st)) = Throws what →
       main ctx argv = Throws what).
Proof.
  intros Hparse Hne Heq.
  apply String.eqb_neq in Hne.
  split; [|split].
  - intros start. unfold main. rewrite Hparse.
    destruct (initialize_statistics ctx); simpl; try discriminate.
    destruct (create_tmp_directory ctx (tmp_dir (options st))); simpl;
      try discriminate.
    rewrite Hne, <- Heq, String.eqb_refl. discriminate.
  - intros Hinit TMP_DIR Htmp.
    rewrite (main_after_parse _ _ _ Hinit Hparse), Htmp. simpl.
    by rewrite Hne, <- Heq, String.eqb_refl.
  - intros Hinit what Htmp.
    by rewrite (main_after_parse _ _ _ Hinit Hparse), Htmp.
Qed.

Lemma main_rejects_tracing_into_untraced_file_witness :
  (∀ start, main machine argv_same_file ≠ Ok start)
  ∧ main machine argv_same_file
    = ExitStream EXIT_ERROR
        ("murxla: ERROR: tracing into the file that is untraced is not supported"
         +:+ endl).
Proof.
  destruct (main_rejects_tracing_into_untraced_file machine argv_same_file
              (parsed machine argv_same_file)) as (Hnever & Hexit & _).
  - vm_compute. reflexivity.
  - vm_compute. discriminate.
  - vm_compute. reflexivity.
  - split; [exact Hnever|].
    apply (Hexit eq_refl ("/tmp", "murxla-4711")). reflexivity.
Defined.

(** Where the temporary directory cannot be created, the exception ends
    the program before the check is reached. *)
Example main_tmp_directory_throws :
  main machine_read_only argv_same_file
  = Throws "filesystem::filesystem_error".
Proof. vm_compute. reflexivity. Qed.

(** Otherwise [main] goes on to construct the fuzzer. *)
Lemma main_reaches_fuzzer ctx argv st TMP_DIR :
  initialize_statistics ctx = Ok tt →
  parse_options ctx default_options argv = Ok st →
  create_tmp_directory ctx (tmp_dir (options st)) = Ok TMP_DIR →
  api_trace_file_name (options st) = ""
  ∨ api_trace_file_name (options st) ≠ untrace_file_name (options st) →
  main ctx argv = Ok (mkFuzzerStart st TMP_DIR).
Proof.
  intros Hinit Hparse Htmp Hcond.
  rewrite (main_after_parse _ _ _ Hinit Hparse), Htmp. simpl.
  destruct Hcond as [->|Hne]; [reflexivity|].
  apply String.eqb_neq in Hne. rewrite Hne, andb_false_r. reflexivity.
Qed.

End CliProofs.

Section CliExtra.
Import Cli CliExamples.

(** ** Reading the recorded line back *)

Lemma list_ascii_of_append (s t : string) :
  list_ascii_of_string (s +:+ t)
  = list_ascii_of_string s ++ list_ascii_of_string t.
Proof.
  induction s as [|c s IH]; [reflexivity|].
  change (c :: list_ascii_of_string (s +:+ t)
          = c :: (list_ascii_of_string s ++ list_ascii_of_string t)).
  f_equal. exact IH.
Qed.

Lemma getline_split_go_token delim t : ∀ cs token,
  contains_char delim t = false →
  getline_split_go delim (list_ascii_of_string t ++ cs) token
  = getline_split_go delim cs (token +:+ t).
Proof.
  induction t as [|c t IH]; intros cs token Hfree.
  - simpl. by rewrite append_nil_r.
  - unfold contains_char in Hfree. simpl in Hfree.
    apply orb_false_iff in Hfree as [Hc Hfree].
    change (list_ascii_of_string (String c t) ++ cs)
      with (c :: (list_ascii_of_string t ++ cs)).
    simpl. rewrite Ascii.eqb_sym, Hc.
    rewrite IH by exact Hfree.
    rewrite append_assoc. reflexivity.
Qed.

Lemma getline_split_go_join kept : ∀ token,
  token ≠ "" →
  (∀ a, a ∈ kept → a ≠ "" ∧ contains_char " " a = false) →
  getline_split_go " " (list_ascii_of_string (join_args kept)) token
  = token :: kept.
Proof.
  induction kept as [|a kept IH]; intros token Htoken Hkept.
  - simpl. apply String.eqb_neq in Htoken. by rewrite Htoken.
  - destruct (Hkept a) as [Ha Hfree]; [left|].
    change (join_args (a :: kept)) with (" " +:+ a +:+ join_args kept).
    change (list_ascii_of_string (" " +:+ a +:+ join_args kept))
      with (" "%char :: list_ascii_of_string (a +:+ join_args kept)).
    rewrite list_ascii_of_append. simpl. f_equal.
    rewrite getline_split_go_token by exact Hfree.
    apply IH; [exact Ha|]. intros b Hb. apply Hkept. by right.
Qed.

(** The recorded line splits back into the keyword and the recorded
    arguments, as long as none of them is empty or contains a blank: this
    is what [get_options] relies on when the trace is replayed. *)
Lemma recorded_line_reads_back kept :
  (∀ a, a ∈ kept → a ≠ "" ∧ contains_char " " a = false) →
  getline_split ("set-murxla-options" +:+ join_args kept) " "
  = "set-murxla-options" :: kept.
Proof.
  intros Hkept. unfold getline_split.
  rewrite list_ascii_of_append.
  rewrite getline_split_go_token by reflexivity.
  by apply getline_split_go_join.
Qed.

End CliExtra.
(* ====================================================================== *)
(** * Enabled theories and sort kinds *)
(* ====================================================================== *)

Section Theories.
Import Smgr.

Lemma outcome_bind_returns {A B : Type} (m : outcome A) (k : A → outcome B) b :
  m ≫= k = Returns b ↔ ∃ a, m = Returns a ∧ k a = Returns b.
Proof.
  destruct m as [a| |]; simpl.
  - split; [eauto|]. by intros (a' & [= <-] & H).
  - split; [discriminate|]. by intros (? & ? & _).
  - split; [discriminate|]. by intros (? & ? & _).
Qed.

Lemma assert_that_true c which u :
  assert_that c which = Returns u ↔ c = true.
Proof. destruct c, u; simpl; split; done. Qed.

Lemma theory_lt_spec a b :
  theory_lt a b = true ↔ (TheoryId_to_nat a < TheoryId_to_nat b)%nat.
Proof. unfold theory_lt. apply Nat.ltb_lt. Qed.

Lemma TheoryId_to_nat_inj a b :
  TheoryId_to_nat a = TheoryId_to_nat b → a = b.
Proof. by destruct a, b. Qed.

Lemma elem_of_sorted_insert x xs y :
  y ∈ sorted_insert x xs ↔ y = x ∨ y ∈ xs.
Proof.
  induction xs as [|z xs IH]; simpl.
  - rewrite list_elem_of_singleton, elem_of_nil. tauto.
  - destruct (theory_lt z x).
    + rewrite !elem_of_cons, IH. tauto.
    + rewrite !elem_of_cons. tauto.
Qed.

Lemma elem_of_std_sort xs y : y ∈ std_sort xs ↔ y ∈ xs.
Proof.
  induction xs as [|x xs IH]; simpl; [done|].
  rewrite elem_of_sorted_insert, elem_of_cons, IH. tauto.
Qed.

Lemma sorted_insert_sorted x xs :
  StronglySorted theory_le xs → StronglySorted theory_le (sorted_insert x xs).
Proof.
  induction 1 as [|z xs Hs IH Hall]; simpl.
  - repeat constructor.
  - destruct (theory_lt z x) eqn:Hlt.
    + constructor; [exact IH|].
      apply Forall_forall. intros y Hy.
      apply elem_of_sorted_insert in Hy as [->|Hy].
      * apply theory_lt_spec in Hlt. unfold theory_le. lia.
      * rewrite Forall_forall in Hall. by apply Hall.
    + assert (Hxz : theory_le x z).
      { unfold theory_le. destruct (Nat.ltb_spec (TheoryId_to_nat z)
                                      (TheoryId_to_nat x)) as [H|H];
          [|exact H].
        apply theory_lt_spec in H. congruence. }
      constructor; [by constructor|].
      constructor; [exact Hxz|].
      eapply Forall_impl; [exact Hall|].
      intros y Hy. unfold theory_le in *. lia.
Qed.

Lemma std_sort_sorted xs : StronglySorted theory_le (std_sort xs).
Proof.
  induction xs as [|x xs IH]; simpl; [constructor|].
  by apply sorted_insert_sorted.
Qed.

(** On sorted ranges [std::set_intersection] yields the common elements. *)
Lemma elem_of_set_intersection xs : ∀ ys z,
  StronglySorted theory_le xs → StronglySorted theory_le ys →
  z ∈ set_intersection xs ys ↔ z ∈ xs ∧ z ∈ ys.
Proof.
  induction xs as [|x xs IHx]; intros ys z Hxs Hys.
  - simpl. rewrite elem_of_nil. tauto.
  - apply StronglySorted_inv in Hxs as [Hxs Hx].
    rewrite Forall_forall in Hx.
    induction ys as [|y ys IHy].
    + simpl. rewrite !elem_of_nil. tauto.
    + pose proof Hys as Hys'.
      apply StronglySorted_inv in Hys' as [Hys' Hy].
      rewrite Forall_forall in Hy.
      change (set_intersection (x :: xs) (y :: ys))
        with (if theory_lt x y then set_intersection xs (y :: ys)
              else if theory_lt y x then set_intersection (x :: xs) ys
              else x :: set_intersection xs ys).
      destruct (theory_lt x y) eqn:Hxy;
        [|destruct (theory_lt y x) eqn:Hyx].
      * apply theory_lt_spec in Hxy.
        rewrite (IHx (y :: ys) z Hxs Hys), !elem_of_cons.
        split; [tauto|]. intros [[->|Hz] Hz']; [|tauto].
        exfalso. destruct Hz' as [->|Hz']; [lia|].
        apply Hy in Hz'. unfold theory_le in Hz'. lia.
      * apply theory_lt_spec in Hyx.
        rewrite (IHy Hys'), !elem_of_cons.
        split; [tauto|]. intros [Hz [->|Hz']]; [|tauto].
        exfalso. destruct Hz as [->|Hz]; [lia|].
        apply Hx in Hz. unfold theory_le in Hz. lia.
      * assert (x = y) as <-.
        { apply TheoryId_to_nat_inj.
          apply Nat.ltb_ge in Hxy, Hyx. lia. }
        rewrite !elem_of_cons, (IHx ys z Hxs Hys'). tauto.
Qed.

Lemma theories_below_all_list :
  theories_below_all
  = [THEORY_ARRAY; THEORY_BAG; THEORY_BOOL; THEORY_BV; THEORY_DT; THEORY_FP;
     THEORY_INT; THEORY_QUANT; THEORY_REAL; THEORY_SEQ; THEORY_SET;
     THEORY_STRING; THEORY_TRANSCENDENTAL; THEORY_UF].
Proof. reflexivity. Qed.

Lemma elem_of_theories_below_all theory :
  theory ∈ theories_below_all ↔ theory ≠ THEORY_ALL.
Proof.
  rewrite theories_below_all_list, !elem_of_cons, elem_of_nil.
  destruct theory; intuition congruence.
Qed.

Lemma elem_of_requested_theories enabled_theories theory :
  theory ∈ requested_theories enabled_theories
  ↔ match enabled_theories with
    | [] => theory ≠ THEORY_ALL
    | _ => theory ∈ enabled_theories ∨ theory = THEORY_BOOL
    end.
Proof.
  destruct enabled_theories as [|t ts]; simpl.
  - apply elem_of_theories_below_all.
  - change (t :: ts ++ [THEORY_BOOL]) with ((t :: ts) ++ [THEORY_BOOL]).
    rewrite elem_of_app, list_elem_of_singleton. tauto.
Qed.

(** X1.  [add_enabled_theories] enables exactly the theories that the
    solver supports and that were asked for: with an empty request every
    theory below [THEORY_ALL], otherwise the requested ones and
    [THEORY_BOOL]. *)
Theorem add_enabled_theories_enables b m enabled_theories theory :
  theory ∈ d_enabled_theories (add_enabled_theories b m enabled_theories)
  ↔ theory ∈ get_supported_theories b
    ∧ match enabled_theories with
      | [] => theory ≠ THEORY_ALL
      | _ => theory ∈ enabled_theories ∨ theory = THEORY_BOOL
      end.
Proof.
  unfold add_enabled_theories. simpl.
  rewrite elem_of_list_to_set.
  rewrite elem_of_set_intersection by apply std_sort_sorted.
  rewrite !elem_of_std_sort, elem_of_requested_theories. tauto.
Qed.

End Theories.
Section SortKinds.
Import Smgr.

Lemma lookup_emplace `{Countable K} {V : Type} (k k' : K) (v d : V)
    (m : gmap K V) :
  emplace k v m !! k' = Some d → m !! k' = Some d ∨ (k' = k ∧ d = v).
Proof.
  unfold emplace. destruct (m !! k) as [x|] eqn:Hk; [by left|].
  destruct (decide (k = k')) as [<-|Hne].
  - rewrite lookup_insert_eq. intros [= <-]. by right.
  - rewrite lookup_insert_ne by done. by left.
Qed.

Lemma lookup_emplace_old `{Countable K} {V : Type} (k k' : K) (v d : V)
    (m : gmap K V) :
  m !! k' = Some d → emplace k v m !! k' = Some d.
Proof.
  intros Hd. unfold emplace. destruct (m !! k) as [x|] eqn:Hk; [done|].
  rewrite lookup_insert_ne; [done|]. intros <-. congruence.
Qed.

Lemma add_sort_kinds_of_keeps theories theory kinds kinds' :
  theory ∈ theories →
  sort_kinds_of_theories theories kinds →
  add_sort_kinds_of theory kinds = Returns kinds' →
  sort_kinds_of_theories theories kinds'.
Proof.
  intros Hin Hok Hadd k data Hk.
  destruct theory; simpl in Hadd; try discriminate;
    injection Hadd as <-;
    repeat (apply lookup_emplace in Hk as [Hk|[-> ->]]; [|by split]);
    by apply Hok.
Qed.

Lemma add_sort_kinds_loop_keeps theories ts : ∀ kinds kinds',
  (∀ theory, theory ∈ ts → theory ∈ theories) →
  sort_kinds_of_theories theories kinds →
  add_sort_kinds_loop ts kinds = Returns kinds' →
  sort_kinds_of_theories theories kinds'.
Proof.
  induction ts as [|t ts IH]; intros kinds kinds' Hsub Hok Hloop; simpl in *.
  - by injection Hloop as <-.
  - apply outcome_bind_returns in Hloop as (kinds1 & Hone & Hloop).
    eapply IH; [|eapply add_sort_kinds_of_keeps|]; eauto.
    + intros; apply Hsub; by right.
    + apply Hsub; by left.
Qed.

Lemma add_sort_kinds_returns m m' :
  add_sort_kinds m = Returns m' →
  d_enabled_theories m' = d_enabled_theories m
  ∧ (sort_kinds_of_theories (d_enabled_theories m) (d_sort_kinds m) →
     sort_kinds_of_theories (d_enabled_theories m) (d_sort_kinds m')).
Proof.
  unfold add_sort_kinds. intros H.
  apply outcome_bind_returns in H as ([] & _ & H).
  apply outcome_bind_returns in H as (kinds & Hloop & H).
  injection H as <-. split; [done|]. intros Hok. simpl.
  eapply add_sort_kinds_loop_keeps; [|exact Hok|exact Hloop].
  intros t Ht. by apply elem_of_elements in Ht.
Qed.

Lemma pick_kind_returns `{Countable K} {V : Type} (m m' : Manager)
    (map : gmap K V) (data : V) :
  pick_kind m map = Returns (data, m') →
  (∃ k, map !! k = Some data) ∧ m' = set_rng m (advance (get_rng m)).
Proof.
  unfold pick_kind. intros Hp.
  apply outcome_bind_returns in Hp as ([] & _ & Hp). simpl in Hp.
  destruct (map_to_list map !! _) as [[k d]|] eqn:Hl; [|discriminate].
  injection Hp as <- <-. split; [|done].
  exists k. apply elem_of_map_to_list.
  eapply list_elem_of_lookup_2. exact Hl.
Qed.

Lemma pick_kind_nonempty `{Countable K} {V : Type} (m : Manager)
    (map : gmap K V) :
  map ≠ ∅ → ∃ data, pick_kind m map
                    = Returns (data, set_rng m (advance (get_rng m))).
Proof.
  intros Hne. unfold pick_kind.
  assert (Hsize : size map ≠ 0%nat) by by rewrite map_size_empty_iff.
  rewrite bool_decide_eq_false_2 by done. simpl.
  assert (Hlt : (Z.to_nat (wrap32 (engine (get_rng m) (cursor (get_rng m)))
                           mod Z.of_nat (size map))
                 < length (map_to_list map))%nat).
  { rewrite length_map_to_list.
    apply index_in_bounds; [apply wrap32_range|done]. }
  apply lookup_lt_is_Some_2 in Hlt as [[k d] Hkd].
  rewrite Hkd. by exists d.
Qed.

(** X2.  What the constructor establishes: every sort kind it registers is
    filed under its own key and belongs to a theory that the solver
    supports and that was asked for ([THEORY_BOOL] included); [pick_sort_kind_data]
    then returns one of these entries. *)
Theorem constructor_registers_enabled_sort_kinds
    b m enabled_theories m' data m'' :
  d_sort_kinds m = ∅ →
  constructor_body b m enabled_theories = Returns m' →
  pick_sort_kind_data m' = Returns (data, m'') →
  d_sort_kinds m' !! skd_kind data = Some data
  ∧ skd_theory data ∈ d_enabled_theories m'
  ∧ skd_theory data ∈ get_supported_theories b
  ∧ match enabled_theories with
    | [] => skd_theory data ≠ THEORY_ALL
    | _ => skd_theory data ∈ enabled_theories ∨ skd_theory data = THEORY_BOOL
    end.
Proof.
  intros Hempty Hctor Hpick. unfold constructor_body in Hctor.
  apply add_sort_kinds_returns in Hctor as [Hth Hok].
  assert (Hinv : sort_kinds_of_theories (d_enabled_theories m')
                   (d_sort_kinds m')).
  { rewrite Hth. apply Hok. simpl. rewrite Hempty.
    intros k d. rewrite lookup_empty. discriminate. }
  apply pick_kind_returns in Hpick as [[k Hk] _].
  destruct (Hinv k data Hk) as [Hkind Htheory].
  split; [by rewrite Hkind|]. split; [exact Htheory|].
  rewrite Hth in Htheory.
  by apply add_enabled_theories_enables in Htheory.
Qed.

Lemma constructor_registers_enabled_sort_kinds_witness :
  d_sort_kinds SmgrExamples.constructed
    !! skd_kind SmgrExamples.picked_data
  = Some SmgrExamples.picked_data
  ∧ skd_theory SmgrExamples.picked_data
    ∈ d_enabled_theories SmgrExamples.constructed
  ∧ skd_theory SmgrExamples.picked_data
    ∈ get_supported_theories SmgrExamples.solver_bv_fp
  ∧ (skd_theory SmgrExamples.picked_data ∈ [THEORY_BV]
     ∨ skd_theory SmgrExamples.picked_data = THEORY_BOOL).
Proof.
  eapply (constructor_registers_enabled_sort_kinds
            SmgrExamples.solver_bv_fp
            (SmgrExamples.blank SortExamples.empty_db SmgrExamples.no_calls)
            [THEORY_BV] SmgrExamples.constructed SmgrExamples.picked_data).
  - reflexivity.
  - vm_compute. reflexivity.
  - vm_compute. reflexivity.
Defined.


End SortKinds.
Section PickTheory.
Import Smgr.

Lemma elements_nil_iff `{Countable A} (X : gset A) : elements X = [] ↔ X = ∅.
Proof. rewrite elements_empty_iff. apply leibniz_equiv_iff. Qed.

Lemma size_zero_iff `{Countable A} (X : gset A) : size X = 0%nat ↔ X = ∅.
Proof. rewrite size_empty_iff. apply leibniz_equiv_iff. Qed.

(** X3.  Without terms, [has_theory] tells exactly whether [pick_theory]
    returns, and what it returns is an enabled theory; one number is
    drawn. *)
Theorem pick_theory_returns_enabled_theory m :
  (has_theory m false = true
   ↔ ∃ theory m', pick_theory m false = Returns (theory, m'))
  ∧ ∀ theory m', pick_theory m false = Returns (theory, m') →
                 theory ∈ d_enabled_theories m
                 ∧ m' = set_rng m (advance (get_rng m)).
Proof.
  unfold has_theory, pick_theory. split.
  - rewrite negb_true_iff, bool_decide_eq_false, size_zero_iff. split.
    + intros Hne.
      destruct (pick_from_set_nonempty (get_rng m)
                  (elements (d_enabled_theories m))) as (t & Hpick & _).
      { by rewrite elements_nil_iff. }
      rewrite Hpick. simpl. eauto.
    + intros (t & m' & Hpick) Hempty. rewrite Hempty in Hpick.
      rewrite elements_empty in Hpick. discriminate.
  - intros t m' Hpick.
    apply outcome_bind_returns in Hpick as ([t' r] & Hpick & Hret).
    injection Hret as <- <-.
    apply pick_from_set_elem in Hpick as [Hin ->].
    by apply elem_of_elements in Hin.
Qed.

Lemma collect_theories_spec m kinds : ∀ theories theories',
  collect_theories m kinds theories = Returns theories' →
  ∀ theory, theory ∈ theories' →
    theory ∈ theories
    ∨ (theory ∈ d_enabled_theories m
       ∧ ∃ sort_kind data,
           sort_kind ∈ kinds ∧ sort_kind ≠ SORT_RM
           ∧ has_term_of_kind m sort_kind = true
           ∧ d_sort_kinds m !! sort_kind = Some data
           ∧ skd_theory data = theory).
Proof.
  induction kinds as [|k kinds IH]; intros theories theories' Hc t Ht;
    simpl in Hc.
  - injection Hc as <-. by left.
  - case_bool_decide as Hrm.
    { destruct (IH _ _ Hc t Ht) as [?|(He & k' & d & Hk' & ?)]; [by left|].
      right. split; [done|]. exists k', d. split; [by right|done]. }
    destruct (has_term_of_kind m k) eqn:Hterm.
    2:{ destruct (IH _ _ Hc t Ht) as [?|(He & k' & d & Hk' & ?)]; [by left|].
        right. split; [done|]. exists k', d. split; [by right|done]. }
    destruct (d_sort_kinds m !! k) as [data|] eqn:Hdata; [|discriminate].
    apply outcome_bind_returns in Hc as ([] & Hen & Hc).
    apply assert_that_true, bool_decide_eq_true in Hen.
    destruct (IH _ _ Hc t Ht) as [Hin|(He & k' & d & Hk' & ?)].
    + apply elem_of_union in Hin as [Hin|Hin]; [|by left].
      apply elem_of_singleton in Hin as ->.
      right. split; [done|]. exists k, data. split; [by left|done].
    + right. split; [done|]. exists k', d. split; [by right|done].
Qed.

Lemma elem_of_sort_kinds_below_any sort_kind :
  sort_kind ∈ sort_kinds_below_any ↔ sort_kind ≠ SORT_ANY.
Proof.
  assert (Hlist : sort_kinds_below_any
                  = [SORT_ARRAY; SORT_BAG; SORT_BOOL; SORT_BV; SORT_DT;
                     SORT_FP; SORT_FUN; SORT_INT; SORT_REAL; SORT_RM;
                     SORT_REGLAN; SORT_SEQ; SORT_SET; SORT_STRING;
                     SORT_UNINTERPRETED]) by reflexivity.
  rewrite Hlist, !elem_of_cons, elem_of_nil.
  destruct sort_kind; intuition congruence.
Qed.

(** X4.  With terms, a theory that [pick_theory] returns is enabled and is
    the theory of a sort kind other than [SORT_RM] (and [SORT_ANY]) of
    which a term exists. *)
Theorem pick_theory_with_terms_has_terms m theory m' :
  pick_theory m true = Returns (theory, m') →
  theory ∈ d_enabled_theories m
  ∧ ∃ sort_kind data,
      sort_kind ≠ SORT_RM ∧ sort_kind ≠ SORT_ANY
      ∧ has_term_of_kind m sort_kind = true
      ∧ d_sort_kinds m !! sort_kind = Some data
      ∧ skd_theory data = theory.
Proof.
  unfold pick_theory. intros Hpick.
  apply outcome_bind_returns in Hpick as (theories & Hc & Hpick).
  apply outcome_bind_returns in Hpick as ([t r] & Hpick & Hret).
  injection Hret as <- <-.
  apply pick_from_set_elem in Hpick as [Hin _].
  apply elem_of_elements in Hin.
  destruct (collect_theories_spec _ _ _ _ Hc _ Hin)
    as [Hin'|(He & k & d & Hk & Hrm & Hterm & Hd & Ht)].
  - by apply not_elem_of_empty in Hin'.
  - split; [done|]. exists k, d.
    by apply elem_of_sort_kinds_below_any in Hk.
Qed.

Lemma pick_theory_with_terms_has_terms_witness :
  THEORY_BV ∈ d_enabled_theories SmgrExamples.constructed_with_terms
  ∧ ∃ sort_kind data,
      sort_kind ≠ SORT_RM ∧ sort_kind ≠ SORT_ANY
      ∧ has_term_of_kind SmgrExamples.constructed_with_terms sort_kind = true
      ∧ d_sort_kinds SmgrExamples.constructed_with_terms !! sort_kind
        = Some data
      ∧ skd_theory data = THEORY_BV.
Proof.
  eapply (pick_theory_with_terms_has_terms
            SmgrExamples.constructed_with_terms THEORY_BV).
  vm_compute. reflexivity.
Defined.


Lemma collect_theories_returns m kinds : ∀ theories,
  (∀ sort_kind, sort_kind ∈ kinds → has_term_of_kind m sort_kind = true →
     ∃ data, d_sort_kinds m !! sort_kind = Some data
             ∧ skd_theory data ∈ d_enabled_theories m) →
  ∃ theories',
    collect_theories m kinds theories = Returns theories'
    ∧ theories ⊆ theories'
    ∧ ∀ sort_kind data,
        sort_kind ∈ kinds → sort_kind ≠ SORT_RM →
        has_term_of_kind m sort_kind = true →
        d_sort_kinds m !! sort_kind = Some data →
        skd_theory data ∈ theories'.
Proof.
  induction kinds as [|k kinds IH]; intros theories Hreg; simpl.
  - exists theories. split; [done|]. split; [done|].
    intros k d Hk. by apply elem_of_nil in Hk.
  - assert (Hreg' : ∀ sort_kind, sort_kind ∈ kinds →
              has_term_of_kind m sort_kind = true →
              ∃ data, d_sort_kinds m !! sort_kind = Some data
                      ∧ skd_theory data ∈ d_enabled_theories m).
    { intros k' Hk'. apply Hreg. by right. }
    case_bool_decide as Hrm.
    { destruct (IH theories Hreg') as (ths & Hc & Hsub & Hall).
      exists ths. split; [done|]. split; [done|].
      intros k' d Hk' Hnrm. apply elem_of_cons in Hk' as [->|Hk']; [done|].
      by apply Hall. }
    destruct (has_term_of_kind m k) eqn:Hterm.
    2:{ destruct (IH theories Hreg') as (ths & Hc & Hsub & Hall).
        exists ths. split; [done|]. split; [done|].
        intros k' d Hk' Hnrm Ht. apply elem_of_cons in Hk' as [->|Hk'];
          [congruence|]. by apply Hall. }
    destruct (Hreg k) as (data & Hdata & Hen); [by left|done|].
    rewrite Hdata. simpl.
    rewrite bool_decide_eq_true_2 by done. simpl.
    destruct (IH ({[skd_theory data]} ∪ theories) Hreg')
      as (ths & Hc & Hsub & Hall).
    exists ths. split; [done|]. split.
    { intros t Ht. apply Hsub. apply elem_of_union. by right. }
    intros k' d Hk' Hnrm Ht Hd. apply elem_of_cons in Hk' as [->|Hk'].
    + assert (d = data) as -> by congruence.
      apply Hsub. apply elem_of_union. left. by apply elem_of_singleton.
    + by eapply Hall.
Qed.

(** X5.  [has_theory(true)] is the guard of [pick_theory(true)]: when the
    term database is coherent (if it has a term at all, it has one of some
    sort kind) and every sort kind with a term is registered under an
    enabled theory, [has_theory] answering [true] makes [pick_theory]
    return.  Terms of [SORT_RM] alone do not count, which is why the guard
    asks for a term of [SORT_FP] beside them. *)
Theorem has_theory_guards_pick_theory m :
  (has_term m = true →
   ∃ sort_kind, sort_kind ≠ SORT_ANY ∧ has_term_of_kind m sort_kind = true) →
  (∀ sort_kind, sort_kind ≠ SORT_ANY →
     has_term_of_kind m sort_kind = true →
     ∃ data, d_sort_kinds m !! sort_kind = Some data
             ∧ skd_theory data ∈ d_enabled_theories m) →
  has_theory m true = true →
  ∃ theory, pick_theory m true
            = Returns (theory, set_rng m (advance (get_rng m))).
Proof.
  intros Hcoherent Hreg Hguard. unfold has_theory in Hguard.
  apply andb_true_iff in Hguard as [Hany Hfp].
  destruct (Hcoherent Hany) as (k & Hk & Hterm).
  assert (∃ k', k' ≠ SORT_ANY ∧ k' ≠ SORT_RM
                ∧ has_term_of_kind m k' = true) as (k' & Hk' & Hrm & Hterm').
  { destruct (decide (k = SORT_RM)) as [->|Hne]; [|by exists k].
    rewrite Hterm in Hfp. simpl in Hfp. by exists SORT_FP. }
  destruct (collect_theories_returns m sort_kinds_below_any ∅)
    as (ths & Hc & _ & Hall).
  { intros k0 Hk0. apply Hreg. by apply elem_of_sort_kinds_below_any. }
  destruct (Hreg k' Hk' Hterm') as (data & Hdata & _).
  assert (Hin : skd_theory data ∈ ths).
  { eapply Hall; eauto. by apply elem_of_sort_kinds_below_any. }
  unfold pick_theory. rewrite Hc. simpl.
  destruct (pick_from_set_nonempty (get_rng m) (elements ths))
    as (t & Hpick & _).
  { rewrite elements_nil_iff. intros ->. by apply not_elem_of_empty in Hin. }
  rewrite Hpick. simpl. by exists t.
Qed.

Lemma has_theory_guards_pick_theory_witness :
  ∃ theory,
    pick_theory SmgrExamples.constructed_with_terms true
    = Returns (theory,
               set_rng SmgrExamples.constructed_with_terms
                 (advance (get_rng SmgrExamples.constructed_with_terms))).
Proof.
  apply (has_theory_guards_pick_theory SmgrExamples.constructed_with_terms).
  - intros _. exists SORT_BOOL. split; [discriminate|reflexivity].
  - intros sort_kind Hany Hterm.
    destruct sort_kind; try discriminate; try done.
    + eexists. split; [vm_compute; reflexivity|].
      apply elem_of_list_to_set. vm_compute.
      apply list_elem_of_In. simpl. tauto.
    + eexists. split; [vm_compute; reflexivity|].
      apply elem_of_list_to_set. vm_compute.
      apply list_elem_of_In. simpl. tauto.
  - reflexivity.
Defined.


(** Terms of [SORT_RM] alone: the guard answers [false]. *)
Lemma has_theory_rounding_modes_only m :
  has_term_of_kind m SORT_RM = true → has_term_of_kind m SORT_FP = false →
  has_theory m true = false.
Proof.
  intros Hrm Hfp. unfold has_theory. rewrite Hrm, Hfp. simpl.
  apply andb_false_r.
Qed.

End PickTheory.
Section SortDatabase.
Import Smgr.

Lemma elem_of_sorts_of (set : SortSet) (s : AbsSort) :
  s ∈ sorts_of set ↔ ∃ h, set !! h = Some s.
Proof.
  unfold sorts_of. rewrite list_elem_of_fmap. split.
  - intros ([h s'] & -> & Hin). exists h. by apply elem_of_map_to_list.
  - intros (h & Hh). exists (h, s). split; [done|].
    by apply elem_of_map_to_list.
Qed.

Lemma find_sort_by_id_some sorts sort_id sort :
  find_sort_by_id sorts sort_id = Some sort →
  sort ∈ sorts ∧ get_id sort = sort_id.
Proof.
  induction sorts as [|s sorts IH]; simpl; [discriminate|].
  case_bool_decide as Hid.
  - intros [= <-]. split; [by left|done].
  - intros H. destruct (IH H). split; [by right|done].
Qed.

Lemma find_sort_by_id_none sorts sort_id :
  find_sort_by_id sorts sort_id = None ↔
  ∀ s, s ∈ sorts → get_id s ≠ sort_id.
Proof.
  induction sorts as [|s sorts IH]; simpl.
  - split; [|done]. intros _ s Hs. by apply elem_of_nil in Hs.
  - case_bool_decide as Hid.
    + split; [discriminate|]. intros H. exfalso. apply (H s); [by left|done].
    + rewrite IH. split.
      * intros H s' Hs'. apply elem_of_cons in Hs' as [->|Hs']; auto.
      * intros H s' Hs'. apply H. by right.
Qed.

Lemma murxla_add_sort_sorts st sort sort_kind sort' st' :
  sort_db_invariant st →
  Murxla.add_sort st sort sort_kind = Returns (sort', st') →
  match d_sorts st !! sort_native sort with
  | Some found => sort' = found ∧ d_sorts st' = d_sorts st
  | None =>
      d_sorts st' = <[sort_native sort := sort']> (d_sorts st)
      ∧ get_id sort' = d_n_sorts st + 1
  end.
Proof.
  intros (Hn & _ & _) H.
  apply murxla_add_sort_result in H as (_ & Hid & H). cbv zeta in H.
  destruct (d_sorts st !! sort_native sort) as [found|].
  - destruct H as [-> ->]. done.
  - destruct H as [Hsort' ->]. split; [done|].
    assert (Hid' : get_id sort' = wrap64 (d_n_sorts st + 1))
      by by rewrite Hsort'.
    rewrite Hid' in Hid |- *.
    by destruct (wrap64_next _ Hn Hid).
Qed.

Lemma murxla_add_sort_ids_step st sort sort_kind sort' st' :
  sort_db_invariant st → sort_ids_distinct st →
  Murxla.add_sort st sort sort_kind = Returns (sort', st') →
  sort_ids_distinct st'.
Proof.
  intros Hinv Hdist Hcall.
  pose proof (murxla_add_sort_sorts _ _ _ _ _ Hinv Hcall) as Hs.
  destruct Hinv as (_ & Hdb & _).
  destruct (d_sorts st !! sort_native sort) as [found|] eqn:Hfound.
  - destruct Hs as [_ Heq]. unfold sort_ids_distinct. by rewrite Heq.
  - destruct Hs as [Heq Hid]. unfold sort_ids_distinct. rewrite Heq.
    assert (Hold : ∀ h s, d_sorts st !! h = Some s → get_id s ≠ get_id sort').
    { intros h s Hs. destruct (Hdb _ _ Hs) as (_ & Hrange & _). lia. }
    intros h1 h2 s1 s2 H1 H2 Hids.
    destruct (decide (h1 = sort_native sort)) as [->|Hne1];
      destruct (decide (h2 = sort_native sort)) as [->|Hne2]; [done|..].
    + rewrite lookup_insert_eq in H1. injection H1 as <-.
      rewrite lookup_insert_ne in H2 by done.
      exfalso. by apply (Hold _ _ H2).
    + rewrite lookup_insert_eq in H2. injection H2 as <-.
      rewrite lookup_insert_ne in H1 by done.
      exfalso. by apply (Hold _ _ H1).
    + rewrite lookup_insert_ne in H1, H2 by done. by eapply Hdist.
Qed.

(** X6.  [add_sort] never hands out an id twice: after any run of calls
    from the initial state, the sorts of [d_sorts] carry pairwise different
    ids. *)
Theorem add_sort_ids_distinct subtyping simple rng options ops db calls st :
  sort_calls Murxla.add_sort
             (initial subtyping simple rng options ops db) calls st →
  sort_ids_distinct st.
Proof.
  intros Hrun.
  cut (sort_db_invariant st ∧ sort_ids_distinct st); [tauto|].
  remember (initial subtyping simple rng options ops db) as st0 eqn:Hst0.
  assert (H0 : sort_db_invariant st0 ∧ sort_ids_distinct st0).
  { subst st0. split; [apply initial_sort_db_invariant|].
    intros h1 h2 s1 s2 H1. simpl in H1. by rewrite lookup_empty in H1. }
  clear Hst0. revert H0.
  induction Hrun as [|st sort sort_kind sort' st' rest st'' Harg Hcall _ IH];
    intros [Hinv Hdist]; [done|].
  apply IH. split.
  - by destruct (murxla_add_sort_step _ _ _ _ _ Hinv Harg Hcall).
  - by eapply murxla_add_sort_ids_step.
Qed.

Lemma add_sort_ids_distinct_witness :
  sort_ids_distinct (members SmgrExamples.with_bv8.2).
Proof.
  apply (add_sort_ids_distinct false true (replay [0; 1; 2; 3; 4; 5]) [] []
           Examples.no_terms [(SortExamples.bv8, SORT_BV)]).
  apply (sort_calls_cons _ _ SortExamples.bv8 SORT_BV
           SmgrExamples.with_bv8.1 (members SmgrExamples.with_bv8.2)).
  - left. split; reflexivity.
  - vm_compute. reflexivity.
  - apply sort_calls_nil.
Defined.


(** ** The untrace registry *)

(** X7.  [register_sort] under an id that is not yet registered: it returns
    [true] exactly when [d_sorts] holds a sort with the given sort id, and
    then [get_sort] finds that sort under the new id, all other ids
    answering as before; otherwise nothing changes. *)
Theorem register_sort_then_get_sort m untraced_id sort_id registered m' :
  get_sort m untraced_id = None →
  register_sort m untraced_id sort_id = Returns (registered, m') →
  if registered then
    ∃ sort, get_sort m' untraced_id = Some sort
            ∧ get_id sort = sort_id
            ∧ (∃ h, d_sorts (members m) !! h = Some sort)
            ∧ ∀ other, other ≠ untraced_id →
                       get_sort m' other = get_sort m other
  else
    m' = m
    ∧ ∀ h s, d_sorts (members m) !! h = Some s → get_id s ≠ sort_id.
Proof.
  intros Hfree. unfold register_sort.
  destruct (find_sort_by_id _ sort_id) as [sort|] eqn:Hfind.
  - rewrite Hfree. intros [= <- <-].
    apply find_sort_by_id_some in Hfind as [Hin Hid].
    exists sort. unfold get_sort. simpl.
    split; [by rewrite lookup_insert_eq|]. split; [done|].
    split; [by apply elem_of_sorts_of|].
    intros other Hother. by rewrite lookup_insert_ne.
  - intros [= <- <-]. split; [done|].
    intros h s Hs. eapply find_sort_by_id_none; [exact Hfind|].
    apply elem_of_sorts_of. eauto.
Qed.

Lemma register_sort_then_get_sort_witness :
  ∃ sort, get_sort SmgrExamples.bv8_registered 5 = Some sort
          ∧ get_id sort = 1
          ∧ (∃ h, d_sorts (members SmgrExamples.with_bv8.2) !! h = Some sort)
          ∧ ∀ other, other ≠ 5 →
                     get_sort SmgrExamples.bv8_registered other
                     = get_sort SmgrExamples.with_bv8.2 other.
Proof.
  apply (register_sort_then_get_sort SmgrExamples.with_bv8.2 5 1 true
           SmgrExamples.bv8_registered).
  - reflexivity.
  - vm_compute. reflexivity.
Defined.


(** X8.  [register_sort] never rebinds an id: under a registered id it
    changes nothing, and it answers [true] only if the sort it finds for
    the given sort id is the registered one (the same back-end sort). *)
Theorem register_sort_keeps_registration
    m untraced_id sort_id sort registered m' :
  get_sort m untraced_id = Some sort →
  register_sort m untraced_id sort_id = Returns (registered, m') →
  m' = m
  ∧ (registered = true →
     ∃ h found, d_sorts (members m) !! h = Some found
                ∧ get_id found = sort_id
                ∧ sort_native found = sort_native sort).
Proof.
  intros Hreg. unfold register_sort.
  destruct (find_sort_by_id _ sort_id) as [found|] eqn:Hfind.
  - rewrite Hreg. intros H.
    apply outcome_bind_returns in H as ([] & Heq & H).
    injection H as <- <-. split; [done|]. intros _.
    apply assert_that_true, bool_decide_eq_true in Heq.
    apply find_sort_by_id_some in Hfind as [Hin Hid].
    apply elem_of_sorts_of in Hin as [h Hh]. by exists h, found.
  - intros [= <- <-]. split; [done|]. discriminate.
Qed.

Lemma register_sort_keeps_registration_witness :
  SmgrExamples.bv8_registered = SmgrExamples.bv8_registered
  ∧ (true = true →
     ∃ h found,
       d_sorts (members SmgrExamples.bv8_registered) !! h = Some found
       ∧ get_id found = 1
       ∧ sort_native found = sort_native SmgrExamples.with_bv8.1).
Proof.
  apply (register_sort_keeps_registration SmgrExamples.bv8_registered 5 1
           SmgrExamples.with_bv8.1 true SmgrExamples.bv8_registered).
  - vm_compute. reflexivity.
  - vm_compute. reflexivity.
Defined.


Lemma find_sort_by_id_unique (st : SolverManager) sort :
  sort_ids_distinct st →
  (∀ h s, d_sorts st !! h = Some s → sort_native s = h) →
  d_sorts st !! sort_native sort = Some sort →
  find_sort_by_id (sorts_of (d_sorts st)) (get_id sort) = Some sort.
Proof.
  intros Hdist Hkeys Hsort.
  destruct (find_sort_by_id _ _) as [s|] eqn:Hfind.
  - apply find_sort_by_id_some in Hfind as [Hin Hid].
    apply elem_of_sorts_of in Hin as [h Hh].
    pose proof (Hdist _ _ _ _ Hh Hsort Hid) as ->. congruence.
  - exfalso. eapply find_sort_by_id_none; [exact Hfind| |reflexivity].
    apply elem_of_sorts_of. eauto.
Qed.

(** X9.  A sort that [add_sort] has just interned can be registered for
    untracing by the id it was given, and [get_sort] then yields that very
    sort. *)
Theorem add_sort_register_sort_get_sort
    m sort sort_kind sort' m1 untraced_id :
  sort_db_invariant (members m) →
  sort_ids_distinct (members m) →
  sort_argument (members m) sort →
  get_sort m untraced_id = None →
  add_sort m sort sort_kind = Returns (sort', m1) →
  ∃ m2, register_sort m1 untraced_id (get_id sort') = Returns (true, m2)
        ∧ get_sort m2 untraced_id = Some sort'.
Proof.
  intros Hinv Hdist Harg Hfree Hadd. unfold add_sort in Hadd.
  apply outcome_bind_returns in Hadd as ([s st'] & Hcall & Hret).
  injection Hret as <- <-.
  pose proof (murxla_add_sort_ids_step _ _ _ _ _ Hinv Hdist Hcall) as Hdist'.
  destruct (murxla_add_sort_step _ _ _ _ _ Hinv Harg Hcall)
    as (Hinv' & _ & Hstored & _).
  unfold register_sort. simpl.
  rewrite (find_sort_by_id_unique st' s Hdist'); [|by intros h s0 Hs0;
    destruct Hinv' as (_ & Hdb & _); destruct (Hdb _ _ Hs0)|exact Hstored].
  unfold get_sort in *. simpl. rewrite Hfree.
  eexists. split; [reflexivity|]. simpl. by rewrite lookup_insert_eq.
Qed.

Lemma add_sort_register_sort_get_sort_witness :
  ∃ m2, register_sort SmgrExamples.with_bv8.2 5
          (get_id SmgrExamples.with_bv8.1)
        = Returns (true, m2)
        ∧ get_sort m2 5 = Some SmgrExamples.with_bv8.1.
Proof.
  apply (add_sort_register_sort_get_sort SmgrExamples.constructed
           SortExamples.bv8 SORT_BV).
  - apply initial_sort_db_invariant.
  - intros h1 h2 s1 s2 H1. vm_compute in H1. discriminate.
  - left. split; reflexivity.
  - reflexivity.
  - vm_compute. reflexivity.
Defined.


(** X10.  A sort handed out again by the solver is mapped by [find_sort] to
    the sort that [add_sort] interned for the same back-end object, which
    has an id and a kind. *)
Theorem find_sort_returns_interned m sort sort_kind sort' m1 again :
  sort_db_invariant (members m) →
  sort_argument (members m) sort →
  add_sort m sort sort_kind = Returns (sort', m1) →
  sort_native again = sort_native sort →
  find_sort m1 again = sort'
  ∧ get_id sort' ≠ 0 ∧ get_kind sort' ≠ SORT_ANY.
Proof.
  intros Hinv Harg Hadd Hnative. unfold add_sort in Hadd.
  apply outcome_bind_returns in Hadd as ([s st'] & Hcall & Hret).
  injection Hret as <- <-.
  destruct (murxla_add_sort_step _ _ _ _ _ Hinv Harg Hcall)
    as ((_ & Hdb & _) & Hn & Hstored & _).
  unfold find_sort. simpl. rewrite Hnative, <- Hn, Hstored.
  destruct (Hdb _ _ Hstored) as (_ & Hid & Hkind & _).
  split; [done|]. split; [lia|done].
Qed.

Lemma find_sort_returns_interned_witness :
  find_sort SmgrExamples.with_bv8.2 SortExamples.bv8
  = SmgrExamples.with_bv8.1
  ∧ get_id SmgrExamples.with_bv8.1 ≠ 0
  ∧ get_kind SmgrExamples.with_bv8.1 ≠ SORT_ANY.
Proof.
  apply (find_sort_returns_interned SmgrExamples.constructed
           SortExamples.bv8 SORT_BV).
  - apply initial_sort_db_invariant.
  - left. split; reflexivity.
  - vm_compute. reflexivity.
  - reflexivity.
Defined.


End SortDatabase.
Section SortPicks.
Import Smgr.

Lemma existsb_sorts_of (P : AbsSort → bool) (set : SortSet) :
  existsb P (sorts_of set) = true ↔ ∃ h s, set !! h = Some s ∧ P s = true.
Proof.
  rewrite existsb_exists. split.
  - intros (s & Hin & HP). apply list_elem_of_In, elem_of_sorts_of in Hin.
    destruct Hin as [h Hh]. eauto.
  - intros (h & s & Hh & HP). exists s. split; [|done].
    apply list_elem_of_In, elem_of_sorts_of. eauto.
Qed.

Lemma lookup_sorts_excluding m exclude_sorts with_terms h s :
  sorts_excluding m exclude_sorts with_terms !! h = Some s
  ↔ d_sorts (members m) !! h = Some s
    ∧ (get_kind s ∉ exclude_sorts)
    ∧ (with_terms = false ∨ has_term_of_sort m s = true).
Proof. unfold sorts_excluding. rewrite map_lookup_filter_Some. tauto. Qed.

(** X11.  [pick_sort(exclude_sorts, with_terms)] returns the null pointer
    exactly when no sort qualifies, without drawing; a sort it returns is
    one of [d_sorts] whose kind is not excluded and, with [with_terms], of
    which a term exists.  Without terms the null pointer is returned
    exactly when [has_sort(exclude_sorts)] is [false]. *)
Theorem pick_sort_excluding_spec m exclude_sorts :
  (has_sort_excluding m exclude_sorts = false
   ↔ pick_sort_excluding m exclude_sorts false = Returns (None, m))
  ∧ ∀ with_terms res m',
      pick_sort_excluding m exclude_sorts with_terms = Returns (res, m') →
      match res with
      | Some sort =>
          (∃ h, d_sorts (members m) !! h = Some sort)
          ∧ (get_kind sort ∉ exclude_sorts)
          ∧ (with_terms = true → has_term_of_sort m sort = true)
          ∧ get_id sort ≠ 0
          ∧ m' = set_rng m (advance (get_rng m))
      | None =>
          m' = m
          ∧ ∀ h s, d_sorts (members m) !! h = Some s →
                   (get_kind s ∉ exclude_sorts) →
                   with_terms = true ∧ has_term_of_sort m s = false
      end.
Proof.
  split.
  - unfold pick_sort_excluding.
    rewrite <- not_true_iff_false.
    unfold has_sort_excluding. rewrite existsb_sorts_of.
    case_bool_decide as Hsize.
    + apply map_size_empty_iff in Hsize. split; [done|]. intros _.
      intros (h & s & Hs & Hk). apply bool_decide_eq_true in Hk.
      assert (Hl : sorts_excluding m exclude_sorts false !! h = Some s).
      { apply lookup_sorts_excluding. auto. }
      rewrite Hsize in Hl. by rewrite lookup_empty in Hl.
    + split.
      * intros Hnone. exfalso. apply Hsize. apply map_size_empty_iff.
        apply map_eq. intros h. rewrite lookup_empty.
        destruct (sorts_excluding m exclude_sorts false !! h) as [s|] eqn:Hl;
          [|done].
        apply lookup_sorts_excluding in Hl as (Hs & Hk & _).
        exfalso. apply Hnone. exists h, s. split; [done|].
        by apply bool_decide_eq_true.
      * intros H. apply outcome_bind_returns in H as ([s r] & _ & H).
        apply outcome_bind_returns in H as ([] & _ & H). discriminate.
  - intros with_terms res m'. unfold pick_sort_excluding.
    case_bool_decide as Hsize.
    + intros [= <- <-]. split; [done|].
      apply map_size_empty_iff in Hsize.
      intros h s Hs Hk.
      destruct with_terms.
      * split; [done|].
        destruct (has_term_of_sort m s) eqn:Hterm; [|done].
        assert (Hl : sorts_excluding m exclude_sorts true !! h = Some s).
        { apply lookup_sorts_excluding. auto. }
        rewrite Hsize in Hl. by rewrite lookup_empty in Hl.
      * assert (Hl : sorts_excluding m exclude_sorts false !! h = Some s).
        { apply lookup_sorts_excluding. auto. }
        rewrite Hsize in Hl. by rewrite lookup_empty in Hl.
    + intros H. apply outcome_bind_returns in H as ([s r] & Hpick & H).
      apply outcome_bind_returns in H as ([] & Hid & H).
      injection H as <- <-.
      apply assert_that_true, negb_true_iff, bool_decide_eq_false in Hid.
      apply pick_from_set_elem in Hpick as [Hin ->].
      apply elem_of_sorts_of in Hin as [h Hl].
      apply lookup_sorts_excluding in Hl as (Hs & Hk & Hterm).
      split; [eauto|]. split; [done|]. split; [|done].
      intros ->. by destruct Hterm.
Qed.

Lemma first_sort_bv_returns b bw sorts sort :
  first_sort_bv b bw sorts = Returns sort →
  sort ∈ sorts ∧ is_bv b sort = true ∧ get_bv_size sort = bw
  ∧ get_id sort ≠ 0.
Proof.
  induction sorts as [|s sorts IH]; simpl; [discriminate|].
  destruct (is_bv b s && bool_decide (get_bv_size s = bw)) eqn:Hs.
  - intros H. apply outcome_bind_returns in H as ([] & Hid & H).
    injection H as <-.
    apply assert_that_true, negb_true_iff, bool_decide_eq_false in Hid.
    apply andb_true_iff in Hs as [Hbv Hbw].
    apply bool_decide_eq_true in Hbw. split; [by left|done].
  - intros H. destruct (IH H) as (? & ? & ? & ?). split; [by right|done].
Qed.

Lemma first_sort_bv_found b bw sorts :
  existsb (λ sort, is_bv b sort && bool_decide (get_bv_size sort = bw)) sorts
  = true →
  (∀ s, s ∈ sorts → get_id s ≠ 0) →
  ∃ sort, first_sort_bv b bw sorts = Returns sort.
Proof.
  induction sorts as [|s sorts IH]; simpl; [discriminate|].
  intros Hex Hids.
  destruct (is_bv b s && bool_decide (get_bv_size s = bw)) eqn:Hs.
  - exists s. rewrite bool_decide_eq_false_2; [done|].
    apply Hids. by left.
  - simpl in Hex. apply IH; [done|]. intros s' Hs'. apply Hids. by right.
Qed.

Lemma collect_sorts_bv_max_spec b bw_max sorts : ∀ bv_sorts sort,
  sort ∈ collect_sorts_bv_max b bw_max sorts bv_sorts
  ↔ sort ∈ bv_sorts
    ∨ (sort ∈ sorts ∧ is_bv b sort = true ∧ get_bv_size sort ≤ bw_max).
Proof.
  induction sorts as [|s sorts IH]; intros bv_sorts sort; simpl.
  - rewrite elem_of_nil. tauto.
  - destruct (is_bv b s && bool_decide (get_bv_size s ≤ bw_max)) eqn:Hs.
    + apply andb_true_iff in Hs as [Hbv Hbw].
      apply bool_decide_eq_true in Hbw.
      rewrite IH, elem_of_app, list_elem_of_singleton, elem_of_cons.
      split; [|tauto]. intros [[?| ->]|?]; tauto.
    + rewrite IH, elem_of_cons. split; [tauto|].
      intros [?|[[ ->|?] [Hbv Hbw]]]; [tauto| |tauto].
      rewrite Hbv in Hs. simpl in Hs.
      apply bool_decide_eq_false in Hs. done.
Qed.

(** X12.  Under their guards [has_sort_bv] and [has_sort_bv_max], and when
    the sorts looked at carry ids, [pick_sort_bv] and [pick_sort_bv_max]
    return: a bit-vector sort among the sorts looked at, of exactly the
    width asked for, respectively of a width up to the bound.  When the
    guard does not hold, the guarding assertion fails. *)
Theorem pick_sort_bv_under_guard b m with_terms :
  (∀ h s, sorts_for m with_terms !! h = Some s → get_id s ≠ 0) →
  (∀ bw,
     if has_sort_bv b m bw with_terms then
       ∃ sort h, pick_sort_bv b m bw with_terms = Returns sort
                 ∧ sorts_for m with_terms !! h = Some sort
                 ∧ is_bv b sort = true ∧ get_bv_size sort = bw
     else pick_sort_bv b m bw with_terms
          = AssertionFailed "has_sort_bv(bw, with_terms)")
  ∧ (∀ bw_max,
       if has_sort_bv_max b m bw_max with_terms then
         ∃ sort h, pick_sort_bv_max b m bw_max with_terms
                   = Returns (sort, set_rng m (advance (get_rng m)))
                   ∧ sorts_for m with_terms !! h = Some sort
                   ∧ is_bv b sort = true ∧ get_bv_size sort ≤ bw_max
       else pick_sort_bv_max b m bw_max with_terms
            = AssertionFailed "has_sort_bv_max(bw_max, with_terms)").
Proof.
  intros Hids.
  assert (Hids' : ∀ s, s ∈ sorts_of (sorts_for m with_terms) → get_id s ≠ 0).
  { intros s Hs. apply elem_of_sorts_of in Hs as [h Hh]. eauto. }
  split.
  - intros bw. unfold pick_sort_bv.
    destruct (has_sort_bv b m bw with_terms) eqn:Hguard; [|done]. simpl.
    destruct (first_sort_bv_found b bw _ Hguard Hids') as [sort Hsort].
    pose proof (first_sort_bv_returns _ _ _ _ Hsort) as (Hin & Hbv & Hbw & _).
    apply elem_of_sorts_of in Hin as [h Hh]. by exists sort, h.
  - intros bw_max. unfold pick_sort_bv_max.
    destruct (has_sort_bv_max b m bw_max with_terms) eqn:Hguard; [|done].
    simpl.
    set (bv_sorts := collect_sorts_bv_max b bw_max
                       (sorts_of (sorts_for m with_terms)) []).
    assert (Hne : bv_sorts ≠ []).
    { unfold has_sort_bv_max in Hguard.
      apply existsb_exists in Hguard as (s & Hin & Hs).
      apply list_elem_of_In in Hin.
      apply andb_true_iff in Hs as [Hbv Hbw].
      apply bool_decide_eq_true in Hbw.
      assert (Hs : s ∈ bv_sorts).
      { apply collect_sorts_bv_max_spec. by right. }
      intros Heq. rewrite Heq in Hs. by apply elem_of_nil in Hs. }
    rewrite bool_decide_eq_false_2
      by (destruct bv_sorts; [done|simpl; lia]).
    simpl.
    destruct (pick_from_set_nonempty (get_rng m) bv_sorts Hne)
      as (sort & Hpick & Hin).
    rewrite Hpick. simpl.
    apply collect_sorts_bv_max_spec in Hin as [Hin|(Hin & Hbv & Hbw)];
      [by apply elem_of_nil in Hin|].
    rewrite bool_decide_eq_false_2 by by apply Hids'.
    simpl. apply elem_of_sorts_of in Hin as [h Hh]. by exists sort, h.
Qed.

Lemma pick_sort_bv_under_guard_witness :
  (∀ bw,
     if has_sort_bv SmgrExamples.solver_bv_fp SmgrExamples.with_bv8.2 bw false
     then
       ∃ sort h,
         pick_sort_bv SmgrExamples.solver_bv_fp SmgrExamples.with_bv8.2 bw
           false
         = Returns sort
         ∧ sorts_for SmgrExamples.with_bv8.2 false !! h = Some sort
         ∧ is_bv SmgrExamples.solver_bv_fp sort = true
         ∧ get_bv_size sort = bw
     else pick_sort_bv SmgrExamples.solver_bv_fp SmgrExamples.with_bv8.2 bw
            false
          = AssertionFailed "has_sort_bv(bw, with_terms)")
  ∧ (∀ bw_max,
       if has_sort_bv_max SmgrExamples.solver_bv_fp SmgrExamples.with_bv8.2
            bw_max false
       then
         ∃ sort h,
           pick_sort_bv_max SmgrExamples.solver_bv_fp SmgrExamples.with_bv8.2
             bw_max false
           = Returns (sort,
                      set_rng SmgrExamples.with_bv8.2
                        (advance (get_rng SmgrExamples.with_bv8.2)))
           ∧ sorts_for SmgrExamples.with_bv8.2 false !! h = Some sort
           ∧ is_bv SmgrExamples.solver_bv_fp sort = true
           ∧ get_bv_size sort ≤ bw_max
       else pick_sort_bv_max SmgrExamples.solver_bv_fp
              SmgrExamples.with_bv8.2 bw_max false
            = AssertionFailed "has_sort_bv_max(bw_max, with_terms)").
Proof.
  apply (pick_sort_bv_under_guard SmgrExamples.solver_bv_fp
           SmgrExamples.with_bv8.2 false).
  intros h s Hs.
  destruct (murxla_add_sort_step SortExamples.empty_db SortExamples.bv8
              SORT_BV SmgrExamples.with_bv8.1
              (members SmgrExamples.with_bv8.2))
    as ((_ & Hdb & _) & _).
  - apply initial_sort_db_invariant.
  - left. split; reflexivity.
  - vm_compute. reflexivity.
  - destruct (Hdb h s Hs) as (_ & Hid & _). lia.
Defined.

Example pick_sort_bv_width_8 :
  pick_sort_bv SmgrExamples.solver_bv_fp SmgrExamples.with_bv8.2 8 false
  = Returns SmgrExamples.with_bv8.1
  ∧ pick_sort_bv SmgrExamples.solver_bv_fp SmgrExamples.with_bv8.2 16 false
    = AssertionFailed "has_sort_bv(bw, with_terms)".
Proof. split; vm_compute; reflexivity. Qed.


(** X13.  After a call of [add_sort] for a registered sort kind,
    [has_sort(sort_kind)] holds and [pick_sort(sort_kind, false)] returns a
    sort that is filed under that kind. *)
Theorem add_sort_then_pick_sort_of_kind m sort sort_kind sort' m1 :
  sort_db_invariant (members m) →
  sort_argument (members m) sort →
  is_Some (d_sort_kinds m !! sort_kind) →
  add_sort m sort sort_kind = Returns (sort', m1) →
  has_sort_of_kind m1 sort_kind = true
  ∧ ∃ res sorts,
      pick_sort_of_kind m1 sort_kind false
      = Returns (res, set_rng m1 (advance (get_rng m1)))
      ∧ d_sort_kind_to_sorts (members m1) !! sort_kind = Some sorts
      ∧ sorts !! sort_native res = Some res.
Proof.
  intros Hinv Harg [data Hdata] Hadd. unfold add_sort in Hadd.
  apply outcome_bind_returns in Hadd as ([s st'] & Hcall & Hret).
  injection Hret as <- <-.
  pose proof (murxla_add_sort_result _ _ _ _ _ Hcall) as (Hany & _).
  destruct (murxla_add_sort_step _ _ _ _ _ Hinv Harg Hcall)
    as ((_ & Hdb & Hkm) & _ & _ & sorts & Hsorts & Hin).
  assert (Hne : sorts ≠ ∅).
  { intros ->. by rewrite lookup_empty in Hin. }
  assert (Hguard : has_sort_of_kind (with_members m st') sort_kind = true).
  { unfold has_sort_of_kind. simpl.
    rewrite bool_decide_eq_false_2 by done.
    rewrite Hdata, Hsorts. by rewrite bool_decide_eq_false_2. }
  split; [exact Hguard|].
  unfold pick_sort_of_kind. simpl.
  rewrite (bool_decide_eq_false_2 (sort_kind = SORT_ANY)) by done. simpl.
  rewrite Hguard. simpl. rewrite Hsorts.
  destruct (pick_from_set_nonempty (d_rng st') (sorts_of sorts))
    as (res & Hpick & Hres).
  { intros Hnil. apply Hne. apply map_eq. intros h. rewrite lookup_empty.
    destruct (sorts !! h) as [x|] eqn:Hx; [|done].
    assert (Hel : x ∈ sorts_of sorts) by (apply elem_of_sorts_of; eauto).
    rewrite Hnil in Hel. by apply elem_of_nil in Hel. }
  unfold get_rng. simpl. rewrite Hpick. simpl.
  apply elem_of_sorts_of in Hres as [h Hh].
  pose proof (Hkm _ _ _ _ Hsorts Hh) as Hstored.
  destruct (Hdb _ _ Hstored) as (Hnat & Hid & _).
  rewrite bool_decide_eq_false_2 by lia. simpl.
  exists res, sorts. split; [done|]. split; [done|]. by rewrite Hnat.
Qed.

Lemma add_sort_then_pick_sort_of_kind_witness :
  has_sort_of_kind SmgrExamples.with_bv8.2 SORT_BV = true
  ∧ ∃ res sorts,
      pick_sort_of_kind SmgrExamples.with_bv8.2 SORT_BV false
      = Returns (res,
                 set_rng SmgrExamples.with_bv8.2
                   (advance (get_rng SmgrExamples.with_bv8.2)))
      ∧ d_sort_kind_to_sorts (members SmgrExamples.with_bv8.2) !! SORT_BV
        = Some sorts
      ∧ sorts !! sort_native res = Some res.
Proof.
  apply (add_sort_then_pick_sort_of_kind SmgrExamples.constructed
           SortExamples.bv8 SORT_BV SmgrExamples.with_bv8.1).
  - apply initial_sort_db_invariant.
  - left. split; reflexivity.
  - eexists. vm_compute. reflexivity.
  - vm_compute. reflexivity.
Defined.


(** X14.  [reset] restarts the numbering: the next sort that [add_sort]
    interns gets id 1 whatever was interned before, simple symbols start
    again at [_x0], and the untrace registry is empty; the statistics
    counter of sorts keeps counting. *)
Theorem reset_restarts_numbering b m :
  (∀ sort sort_kind sort' m',
     add_sort (reset b m) sort sort_kind = Returns (sort', m') →
     get_id sort' = 1
     ∧ d_stats_sorts (members m')
       = wrap64 (d_stats_sorts (members m) + 1))
  ∧ (d_simple_symbols (members m) = true →
     (Murxla.pick_symbol (members (reset b m))).1 = "_x0")
  ∧ ∀ id, get_sort (reset b m) id = None ∧ get_term (reset b m) id = None.
Proof.
  split; [|split].
  - intros sort sort_kind sort' m' Hadd. unfold add_sort in Hadd.
    apply outcome_bind_returns in Hadd as ([s st'] & Hcall & Hret).
    injection Hret as <- <-.
    apply murxla_add_sort_result in Hcall as (_ & _ & Hcall).
    cbv zeta in Hcall.
    assert (Hempty : d_sorts (members (reset b m)) = ∅).
    { unfold reset, clear. simpl.
      destruct (term_db_clear b _) as [db calls]. simpl.
      by destruct (term_db_reset b _) as [db' calls']. }
    assert (Hn : d_n_sorts (members (reset b m)) = 0).
    { unfold reset, clear. simpl.
      destruct (term_db_clear b _) as [db calls]. simpl.
      by destruct (term_db_reset b _) as [db' calls']. }
    assert (Hstats : d_stats_sorts (members (reset b m))
                     = d_stats_sorts (members m)).
    { unfold reset, clear. simpl.
      destruct (term_db_clear b _) as [db calls]. simpl.
      by destruct (term_db_reset b _) as [db' calls']. }
    rewrite Hempty, lookup_empty, Hn, Hstats in Hcall.
    destruct Hcall as [-> ->]. simpl. done.
  - intros Hsimple. unfold Murxla.pick_symbol.
    assert (Hs : d_simple_symbols (members (reset b m)) = true).
    { unfold reset, clear. simpl.
      destruct (term_db_clear b _) as [db calls]. simpl.
      by destruct (term_db_reset b _) as [db' calls']. }
    assert (Hn : d_n_symbols (members (reset b m)) = 0).
    { unfold reset, clear. simpl.
      destruct (term_db_clear b _) as [db calls]. simpl.
      by destruct (term_db_reset b _) as [db' calls']. }
    rewrite Hs, Hn. reflexivity.
  - intros id. unfold get_sort, get_term, reset, clear. simpl.
    destruct (term_db_clear b _) as [db calls]. simpl.
    destruct (term_db_reset b _) as [db' calls']. simpl.
    by rewrite !lookup_empty.
Qed.

End SortPicks.
Section Assumptions.
Import Smgr.

Lemma pick_assumed_assumption_returns m term m' :
  pick_assumed_assumption m = Returns (term, m') →
  is_assumed m term = true ∧ m' = set_rng m (advance (get_rng m)).
Proof.
  unfold pick_assumed_assumption. intros H.
  apply outcome_bind_returns in H as ([] & _ & H).
  apply outcome_bind_returns in H as ([t r] & Hpick & H).
  injection H as <- <-.
  apply pick_from_set_elem in Hpick as [Hin ->].
  apply elem_of_elements in Hin. split; [|done].
  by apply bool_decide_eq_true.
Qed.

Lemma pick_assumed_assumption_available m :
  has_assumed m = true →
  ∃ term, pick_assumed_assumption m
          = Returns (term, set_rng m (advance (get_rng m))).
Proof.
  intros Hguard. unfold pick_assumed_assumption. rewrite Hguard. simpl.
  apply negb_true_iff, bool_decide_eq_false in Hguard.
  destruct (pick_from_set_nonempty (get_rng m)
              (elements (d_assumptions (members m)))) as (t & Hpick & _).
  { by rewrite elements_nil_iff. }
  rewrite Hpick. by exists t.
Qed.

(** X15.  A term that [pick_assumption] returns is assumed from then on,
    beside the terms assumed before, and [pick_assumed_assumption], which
    returns assumed terms only, is then available.  After a sat call
    [reset_sat] forgets all of them: nothing is assumed and
    [pick_assumed_assumption] fails its assertion. *)
Theorem pick_assumption_assumed_until_reset_sat m term m' :
  pick_assumption m = Returns (term, m') →
  (∀ t, is_assumed m' t = true ↔ t = term ∨ is_assumed m t = true)
  ∧ (∃ t, pick_assumed_assumption m'
          = Returns (t, set_rng m' (advance (get_rng m')))
          ∧ is_assumed m' t = true)
  ∧ (d_sat_called (members m') = true →
     (∀ t, is_assumed (reset_sat m') t = false)
     ∧ pick_assumed_assumption (reset_sat m')
       = AssertionFailed "has_assumed()").
Proof.
  unfold pick_assumption. intros H.
  apply outcome_bind_returns in H as ([] & _ & H).
  apply outcome_bind_returns in H as ([res m1] & Hterm & H).
  injection H as <- <-.
  unfold pick_term_at in Hterm.
  apply outcome_bind_returns in Hterm as ([t r] & _ & Hterm).
  injection Hterm as <- <-.
  assert (Hassumed : ∀ t0,
            is_assumed
              (with_members (set_rng m r)
                 (with_assumptions (members (set_rng m r))
                    ({[t]} ∪ d_assumptions (members (set_rng m r))))) t0
            = true ↔ t0 = t ∨ is_assumed m t0 = true).
  { intros t0. unfold is_assumed. simpl.
    rewrite !bool_decide_eq_true, elem_of_union, elem_of_singleton. tauto. }
  split; [exact Hassumed|]. split.
  - match goal with |- ∃ _, pick_assumed_assumption ?m1 = _ ∧ _ =>
      destruct (pick_assumed_assumption_available m1) as [t0 Ht0]
    end.
    { unfold has_assumed. simpl.
      apply negb_true_iff, bool_decide_eq_false.
      intros Hempty.
      assert (Hin : t ∈ ({[t]} ∪ d_assumptions (members m) : gset nat))
        by (apply elem_of_union; left; by apply elem_of_singleton).
      rewrite Hempty in Hin. by apply not_elem_of_empty in Hin. }
    exists t0. split; [exact Ht0|].
    by apply pick_assumed_assumption_returns in Ht0 as [? _].
  - intros Hsat. simpl in Hsat.
    unfold reset_sat, Murxla.reset_sat, Murxla.clear_assumptions. simpl.
    rewrite Hsat. split.
    + intros t0. unfold is_assumed. simpl.
      apply bool_decide_eq_false. apply not_elem_of_empty.
    + reflexivity.
Qed.

Lemma pick_assumption_assumed_until_reset_sat_witness :
  (∀ t, is_assumed SmgrExamples.assumed_after_sat.2 t = true
        ↔ t = SmgrExamples.assumed_after_sat.1
          ∨ is_assumed SmgrExamples.checked_with_terms t = true)
  ∧ (∃ t, pick_assumed_assumption SmgrExamples.assumed_after_sat.2
          = Returns (t, set_rng SmgrExamples.assumed_after_sat.2
                          (advance
                             (get_rng SmgrExamples.assumed_after_sat.2)))
          ∧ is_assumed SmgrExamples.assumed_after_sat.2 t = true)
  ∧ (∀ t, is_assumed (reset_sat SmgrExamples.assumed_after_sat.2) t = false)
  ∧ pick_assumed_assumption (reset_sat SmgrExamples.assumed_after_sat.2)
    = AssertionFailed "has_assumed()".
Proof.
  destruct (pick_assumption_assumed_until_reset_sat
              SmgrExamples.checked_with_terms
              SmgrExamples.assumed_after_sat.1
              SmgrExamples.assumed_after_sat.2) as (Hin & Hpick & Hreset).
  - vm_compute. reflexivity.
  - split; [exact Hin|]. split; [exact Hpick|]. apply Hreset. reflexivity.
Defined.

(** Without a sat call in between, [reset_sat] keeps the assumption. *)
Example reset_sat_without_sat_call_keeps :
  is_assumed (reset_sat SmgrExamples.assumed.2) SmgrExamples.assumed.1
  = true.
Proof. vm_compute. reflexivity. Qed.


(** X16.  [register_term] binds an unused id to the term the database holds
    under the term id (or to the null pointer when it holds none), and
    never rebinds an id: under a registered id it changes nothing.  Other
    ids answer as before. *)
Theorem register_term_first_registration_wins b m untraced_id term_id m' :
  register_term b m untraced_id term_id = Returns m' →
  get_term m' untraced_id
  = (if decide (is_Some (d_untraced_terms m !! untraced_id))
     then get_term m untraced_id
     else db_get_term (d_term_db_calls m) term_id)
  ∧ (is_Some (d_untraced_terms m !! untraced_id) → m' = m)
  ∧ ∀ other, other ≠ untraced_id → get_term m' other = get_term m other.
Proof.
  unfold register_term.
  destruct (d_untraced_terms m !! untraced_id) as [old|] eqn:Hold.
  - destruct (get_term m untraced_id) as [t|] eqn:Ht;
      [|discriminate].
    destruct (db_get_term (d_term_db_calls m) term_id) as [term|];
      [|discriminate].
    intros H. apply outcome_bind_returns in H as ([] & _ & H).
    injection H as <-.
    rewrite decide_True by eauto. done.
  - intros [= <-]. rewrite decide_False by (intros [? ?]; done).
    unfold get_term. simpl. split; [by rewrite lookup_insert_eq|].
    split; [intros [? ?]; done|].
    intros other Hother. by rewrite lookup_insert_ne.
Qed.

Lemma register_term_first_registration_wins_witness :
  get_term
    (SmgrExamples.returned
       (register_term SmgrExamples.solver_bv_fp
          SmgrExamples.constructed_with_terms 3 9)
       SmgrExamples.constructed_with_terms) 3
  = (if decide (is_Some (d_untraced_terms SmgrExamples.constructed_with_terms
                           !! 3))
     then get_term SmgrExamples.constructed_with_terms 3
     else db_get_term (d_term_db_calls SmgrExamples.constructed_with_terms) 9)
  ∧ (is_Some (d_untraced_terms SmgrExamples.constructed_with_terms !! 3) →
     SmgrExamples.returned
       (register_term SmgrExamples.solver_bv_fp
          SmgrExamples.constructed_with_terms 3 9)
       SmgrExamples.constructed_with_terms
     = SmgrExamples.constructed_with_terms)
  ∧ ∀ other, other ≠ 3 →
      get_term
        (SmgrExamples.returned
           (register_term SmgrExamples.solver_bv_fp
              SmgrExamples.constructed_with_terms 3 9)
           SmgrExamples.constructed_with_terms) other
      = get_term SmgrExamples.constructed_with_terms other.
Proof.
  apply (register_term_first_registration_wins SmgrExamples.solver_bv_fp
           SmgrExamples.constructed_with_terms 3 9).
  vm_compute. reflexivity.
Defined.

Example register_term_twice :
  let m1 := SmgrExamples.returned
              (register_term SmgrExamples.solver_bv_fp
                 SmgrExamples.constructed_with_terms 3 9)
              SmgrExamples.constructed_with_terms in
  get_term m1 3 = Some 7%nat
  ∧ register_term SmgrExamples.solver_bv_fp m1 3 10 = Returns m1.
Proof. split; vm_compute; reflexivity. Qed.


End Assumptions.
(* ====================================================================== *)
(** * The error summary *)
(* ====================================================================== *)

Section EscapeCsv.
Import Cli Summary.

Lemma starts_with_char c s :
  starts_with [c] s = match s with
                      | [] => false
                      | x :: _ => Ascii.eqb c x
                      end.
Proof. destruct s as [|x s]; [done|]. simpl. apply andb_true_r. Qed.

Lemma find_from_absent c s : ∀ pos, c ∉ s → find_from [c] s pos = None.
Proof.
  induction s as [|x s IH]; intros pos Hc; [done|].
  cbn [find_from]. rewrite starts_with_char.
  assert (Hx : Ascii.eqb c x = false).
  { apply Ascii.eqb_neq. intros ->. apply Hc. by left. }
  rewrite Hx. apply IH. intros Hin. apply Hc. by right.
Qed.

Lemma find_from_first c a b : ∀ pos,
  c ∉ a → find_from [c] (a ++ c :: b) pos = Some (pos + length a)%nat.
Proof.
  induction a as [|x a IH]; intros pos Hc.
  - cbn [app find_from length]. rewrite starts_with_char, Ascii.eqb_refl.
    f_equal. lia.
  - cbn [app find_from length]. rewrite starts_with_char.
    assert (Hx : Ascii.eqb c x = false).
    { apply Ascii.eqb_neq. intros ->. apply Hc. by left. }
    rewrite Hx, IH by (intros Hin; apply Hc; by right).
    f_equal. lia.
Qed.

Lemma find_after_prefix search pre suf :
  find (pre ++ suf) search (length pre) = find_from search suf (length pre).
Proof.
  unfold find. rewrite length_app.
  destruct (Nat.leb_spec (length pre) (length pre + length suf)) as [_|H];
    [|lia].
  by rewrite drop_app_length.
Qed.

Lemma first_occurrence (c : ascii) (s : list ascii) :
  c ∉ s ∨ ∃ a b, s = a ++ c :: b ∧ c ∉ a.
Proof.
  induction s as [|x s IH].
  - left. apply not_elem_of_nil.
  - destruct (decide (x = c)) as [->|Hne].
    + right. exists [], s. split; [done|apply not_elem_of_nil].
    + destruct IH as [Hc|(a & b & -> & Ha)].
      * left. intros Hin. apply elem_of_cons in Hin as [->|Hin]; done.
      * right. exists (x :: a), b. split; [done|].
        intros Hin. apply elem_of_cons in Hin as [->|Hin]; done.
Qed.

Lemma substituted_absent c str s : c ∉ s → substituted c str s = s.
Proof.
  unfold substituted. induction s as [|x s IH]; intros Hc; [done|].
  cbn [map concat].
  assert (Hx : Ascii.eqb x c = false).
  { apply Ascii.eqb_neq. intros ->. apply Hc. by left. }
  rewrite Hx, IH by (intros Hin; apply Hc; by right). done.
Qed.

Lemma substituted_app c str s t :
  substituted c str (s ++ t) = substituted c str s ++ substituted c str t.
Proof. unfold substituted. by rewrite map_app, concat_app. Qed.

Lemma substituted_cons c str x s :
  substituted c str (x :: s)
  = (if Ascii.eqb x c then str else [x]) ++ substituted c str s.
Proof. reflexivity. Qed.

Lemma occurrences_app c s t :
  occurrences c (s ++ t) = (occurrences c s + occurrences c t)%nat.
Proof. unfold occurrences. by rewrite filter_app, length_app. Qed.

Lemma occurrences_cons c x s :
  occurrences c (x :: s)
  = ((if decide (x = c) then 1 else 0) + occurrences c s)%nat.
Proof.
  unfold occurrences. rewrite filter_cons.
  by destruct (decide (x = c)).
Qed.

Lemma occurrences_absent c s : c ∉ s ↔ occurrences c s = 0%nat.
Proof.
  induction s as [|x s IH].
  - split; [done|]. intros _. apply not_elem_of_nil.
  - rewrite occurrences_cons, not_elem_of_cons.
    destruct (decide (x = c)) as [->|Hne].
    + split; [by intros [? _]|]. simpl. lia.
    + simpl. rewrite IH. split; [tauto|]. intros H. split; [congruence|done].
Qed.

Lemma occurrences_le_length c s : (occurrences c s ≤ length s)%nat.
Proof. unfold occurrences. apply length_filter. Qed.

Lemma replace_at_first pre a c b str :
  replace (pre ++ a ++ c :: b) (length pre + length a) 1 str
  = Ok ((pre ++ a ++ str) ++ b).
Proof.
  unfold replace. rewrite !length_app. cbn [length].
  destruct (Nat.leb_spec (length pre + length a)
              (length pre + (length a + S (length b)))) as [_|H]; [|lia].
  f_equal.
  replace (pre ++ a ++ c :: b) with ((pre ++ a) ++ c :: b)
    by by rewrite <- app_assoc.
  replace (length pre + length a)%nat with (length (pre ++ a))
    by by rewrite length_app.
  rewrite take_app_length.
  replace (length (pre ++ a) + 1)%nat with (length ((pre ++ a) ++ [c]))
    by (rewrite !length_app; simpl; lia).
  replace ((pre ++ a) ++ c :: b) with (((pre ++ a) ++ [c]) ++ b)
    by by rewrite <- (app_assoc _ [c]).
  rewrite drop_app_length. by rewrite <- !app_assoc.
Qed.

(** The loop for a one-character [search]: given enough rounds it replaces
    every occurrence behind the position it was entered at. *)
Lemma replace_loop_char c str : ∀ rounds pre suf,
  (occurrences c suf ≤ rounds)%nat →
  replace_loop rounds [c] str (pre ++ suf)
    (find (pre ++ suf) [c] (length pre))
  = Some (Ok (pre ++ substituted c str suf)).
Proof.
  induction rounds as [|rounds IH]; intros pre suf Hrounds;
    rewrite find_after_prefix.
  - assert (Hc : c ∉ suf) by (apply occurrences_absent; lia).
    rewrite find_from_absent, substituted_absent by done. done.
  - destruct (first_occurrence c suf) as [Hc|(a & b & -> & Ha)].
    + rewrite find_from_absent, substituted_absent by done. done.
    + rewrite find_from_first by done.
      cbn [replace_loop length]. rewrite replace_at_first.
      replace (length pre + length a + length str)%nat
        with (length (pre ++ a ++ str))
        by (rewrite !length_app; lia).
      rewrite IH.
      * rewrite substituted_app, substituted_cons, Ascii.eqb_refl.
        rewrite (substituted_absent c str a) by done.
        by rewrite <- !app_assoc.
      * rewrite occurrences_app, occurrences_cons, decide_True in Hrounds
          by done.
        lia.
Qed.

Lemma replace_loop_all c str rounds s :
  (occurrences c s ≤ rounds)%nat →
  replace_loop rounds [c] str s (find s [c] 0)
  = Some (Ok (substituted c str s)).
Proof. intros H. exact (replace_loop_char c str rounds [] s H). Qed.

Lemma substituted_twice s :
  substituted quote [quote; quote]
    (substituted newline [backslash; "n"%char] s)
  = concat (map escaped_char s).
Proof.
  induction s as [|x s IH]; [done|].
  rewrite substituted_cons, substituted_app, IH. cbn [map concat].
  f_equal. unfold escaped_char.
  destruct (Ascii.eqb x newline) eqn:Hnl; [reflexivity|].
  unfold substituted. cbn [map concat].
  destruct (Ascii.eqb x quote); reflexivity.
Qed.

Lemma occurrences_quote_substituted s :
  occurrences quote (substituted newline [backslash; "n"%char] s)
  = occurrences quote s.
Proof.
  induction s as [|x s IH]; [done|].
  rewrite substituted_cons, occurrences_app, IH, occurrences_cons.
  f_equal.
  destruct (Ascii.eqb x newline) eqn:Hnl.
  - apply Ascii.eqb_eq in Hnl as ->. reflexivity.
  - rewrite occurrences_cons. unfold occurrences. simpl. lia.
Qed.

Lemma length_list_ascii_of_string s :
  length (list_ascii_of_string s) = String.length s.
Proof. induction s as [|c s IH]; simpl; congruence. Qed.

(** Both loops of [escape_csv] on the characters of the string. *)
Lemma escape_pairs_escapes rounds s :
  (length s ≤ rounds)%nat →
  escape_pairs rounds escape s = Some (Ok (concat (map escaped_char s))).
Proof.
  intros Hlen. unfold escape, escape_pairs.
  rewrite replace_loop_all
    by (etransitivity; [apply occurrences_le_length|exact Hlen]).
  rewrite replace_loop_all.
  - by rewrite substituted_twice.
  - rewrite occurrences_quote_substituted.
    etransitivity; [apply occurrences_le_length|exact Hlen].
Qed.

(** X17.  [escape_csv] replaces every line feed by backslash-n and doubles
    every double quote, leaving all other characters as they are; its two
    loops end after at most as many rounds as the string has characters. *)
Theorem escape_csv_escapes_every_character rounds str :
  (String.length str ≤ rounds)%nat →
  escape_csv rounds str = Some (Ok (escaped str)).
Proof.
  intros Hrounds. unfold escape_csv.
  rewrite escape_pairs_escapes.
  - reflexivity.
  - by rewrite length_list_ascii_of_string.
Qed.

Lemma escape_csv_escapes_every_character_witness :
  escape_csv 40 SummaryExamples.two_lines
  = Some (Ok (escaped SummaryExamples.two_lines)).
Proof.
  apply (escape_csv_escapes_every_character 40 SummaryExamples.two_lines).
  vm_compute. lia.
Defined.


End EscapeCsv.
(* ====================================================================== *)
(** * Command line: errors, edge cases and the mode of a run *)
(* ====================================================================== *)

Section CliEdges.
Import Cli CliExamples.

(** Case analysis over the chain of comparisons in [parse_arg]. *)
Ltac option_cases :=
  repeat match goal with
         | |- context [if arg_is ?a ?l then _ else _] =>
             destruct (arg_is a l) eqn:?
         | H : context [if arg_is ?a ?l then _ else _] |- _ =>
             destruct (arg_is a l) eqn:?
         end.

(** Peel what surrounds the resulting state in a successful iteration. *)
Ltac loop_result :=
  unfold enable_theory, disable_theory, valued, check_next_arg, flag,
    exit_stream, MURXLA_EXIT_ERROR in *;
  repeat match goal with
         | H : _ ≫= _ = Ok _ |- _ =>
             let a := fresh "a" in
             let Ha := fresh "Ha" in
             apply bind_ok in H as (a & Ha & H)
         | H : (if ?c then _ else _) = Ok _ |- _ =>
             destruct c eqn:?; try discriminate
         | H : match ?x with _ => _ end = Ok _ |- _ =>
             destruct x eqn:?; try discriminate
         | H : Ok _ = Ok _ |- _ => injection H as H; subst
         | H : (_, _) = (_, _) |- _ => injection H as ? ?; subst
         end;
  try discriminate.

(** ** The solver after parsing *)

(** X18.  When [parse_options] returns, a solver is selected; with the
    SMT-LIB solver checking is off and no check solver is named; and
    whenever checking is on, a check solver is named. *)
Theorem parse_options_settles_solver ctx o argv st :
  parse_options ctx o argv = Ok st →
  solver (options st) ≠ ""
  ∧ (solver (options st) = SOLVER_SMT2 →
     check_solver (options st) = false
     ∧ check_solver_name (options st) = "")
  ∧ (check_solver (options st) = true →
     check_solver_name (options st) ≠ "").
Proof.
  intros H. apply parse_options_ok in H
    as (o' & args & st1 & line & _ & _ & _ & ->).
  simpl. set (o1 := options st1). clearbody o1. unfold settle_solver.
  destruct (String.eqb (solver o1) "") eqn:Hempty; simpl;
    [repeat split; done|].
  apply String.eqb_neq in Hempty.
  destruct (String.eqb (solver o1) SOLVER_SMT2) eqn:Hsmt2; simpl;
    [repeat split; done|].
  apply String.eqb_neq in Hsmt2.
  destruct (check_solver o1) eqn:Hcheck; simpl.
  - destruct (String.eqb (check_solver_name o1) "") eqn:Hname; simpl.
    + split; [done|]. split; [by intros ?|]. done.
    + apply String.eqb_neq in Hname.
      split; [done|]. split; [by intros ?|]. done.
  - split; [done|]. split; [by intros ?|]. intros ?. congruence.
Qed.

Lemma parse_options_settles_solver_witness :
  solver (options (CliExamples.parsed CliExamples.machine
                     CliExamples.argv_seeded)) ≠ ""
  ∧ (solver (options (CliExamples.parsed CliExamples.machine
                        CliExamples.argv_seeded)) = SOLVER_SMT2 →
     check_solver (options (CliExamples.parsed CliExamples.machine
                              CliExamples.argv_seeded)) = false
     ∧ check_solver_name (options (CliExamples.parsed CliExamples.machine
                                     CliExamples.argv_seeded)) = "")
  ∧ (check_solver (options (CliExamples.parsed CliExamples.machine
                              CliExamples.argv_seeded)) = true →
     check_solver_name (options (CliExamples.parsed CliExamples.machine
                                   CliExamples.argv_seeded)) ≠ "").
Proof.
  apply (parse_options_settles_solver CliExamples.machine default_options
           CliExamples.argv_seeded).
  vm_compute. reflexivity.
Defined.


(** ** [--check] as the last argument *)

Lemma parse_args_last ctx st args st1 arg :
  parse_args ctx st args = Ok st1 →
  first_char arg = "-"%char →
  parse_args ctx st (args ++ [arg])
  = parse_arg ctx st1 arg [] ≫= λ '(st', _), Ok st'.
Proof.
  intros Hargs Harg.
  rewrite (parse_args_app ctx args st st1 [arg] Hargs)
    by (by intros y ys' [= <- <-]).
  rewrite parse_args_cons.
  destruct (parse_arg ctx st1 arg []) as [[st' adv]| | | | |]; simpl;
    try reflexivity.
  by destruct adv.
Qed.

Lemma get_options_plain ctx prog args :
  (∀ a, a ∈ args → arg_is a untrace_flags = false) →
  get_options ctx default_options (prog :: args)
  = Ok (default_options, args).
Proof.
  intros Hargs. unfold get_options. simpl tail.
  by rewrite get_options_scan_plain.
Qed.

(** X19.  [--check] looks at the argument after it without testing that
    there is one: as the last argument, behind arguments that parse, it
    makes option parsing read [args] past its end. *)
Theorem check_as_last_argument_reads_past_the_end ctx prog args st1 :
  (∀ a, a ∈ args → arg_is a untrace_flags = false) →
  parse_args ctx (initial_state default_options) args = Ok st1 →
  parse_options ctx default_options (prog :: args ++ ["--check"])
  = UndefinedBehaviour "args[i + 1] past the end".
Proof.
  intros Hargs Hparse. unfold parse_options.
  rewrite get_options_plain.
  2:{ intros a Ha. apply elem_of_app in Ha as [Ha|Ha]; [by apply Hargs|].
      apply list_elem_of_singleton in Ha. by subst. }
  simpl. rewrite (parse_args_last _ _ _ _ _ Hparse) by reflexivity.
  reflexivity.
Qed.

Lemma check_as_last_argument_reads_past_the_end_witness :
  parse_options CliExamples.machine default_options
    ("murxla" :: ["--stats"; "--bv"] ++ ["--check"])
  = UndefinedBehaviour "args[i + 1] past the end".
Proof.
  apply (check_as_last_argument_reads_past_the_end CliExamples.machine
           "murxla" ["--stats"; "--bv"]
           (match parse_args CliExamples.machine
                    (initial_state default_options) ["--stats"; "--bv"] with
            | Ok st => st
            | _ => initial_state default_options
            end)).
  - intros a Ha. apply list_elem_of_In in Ha.
    destruct Ha as [<-|[<-|[]]]; reflexivity.
  - vm_compute. reflexivity.
Defined.


(** ** A value that is missing *)

Lemma parse_arg_missing_value ctx st arg :
  arg ∈ valued_options →
  parse_arg ctx st arg []
  = exit_stream EXIT_ERROR ("missing argument to option '" +:+ arg +:+ "'").
Proof.
  intros Hin. unfold valued_options in Hin.
  repeat (apply elem_of_cons in Hin as [->|Hin]; [reflexivity|]).
  by apply elem_of_nil in Hin.
Qed.

Lemma valued_options_dash arg :
  arg ∈ valued_options → first_char arg = "-"%char.
Proof.
  intros Hin. unfold valued_options in Hin.
  repeat (apply elem_of_cons in Hin as [->|Hin]; [reflexivity|]).
  by apply elem_of_nil in Hin.
Qed.

(** X20.  An option that takes a value and stands last, behind arguments
    that parse, ends the program with [EXIT_ERROR] and the message that
    its argument is missing. *)
Theorem missing_argument_is_reported ctx st args st1 arg :
  parse_args ctx st args = Ok st1 →
  arg ∈ valued_options →
  parse_args ctx st (args ++ [arg])
  = ExitStream EXIT_ERROR
      ("murxla: ERROR: missing argument to option '" +:+ arg +:+ "'"
       +:+ endl).
Proof.
  intros Hparse Hin.
  rewrite (parse_args_last _ _ _ _ _ Hparse)
    by by apply valued_options_dash.
  rewrite parse_arg_missing_value by done. unfold exit_stream. simpl.
  by rewrite !append_assoc.
Qed.

Lemma missing_argument_is_reported_witness :
  parse_args CliExamples.machine (initial_state default_options)
    (["--stats"] ++ ["--time"])
  = ExitStream EXIT_ERROR
      ("murxla: ERROR: missing argument to option '" +:+ "--time" +:+ "'"
       +:+ endl).
Proof.
  apply (missing_argument_is_reported CliExamples.machine
           (initial_state default_options) ["--stats"]
           (match parse_args CliExamples.machine
                    (initial_state default_options) ["--stats"] with
            | Ok st => st
            | _ => initial_state default_options
            end) "--time").
  - vm_compute. reflexivity.
  - apply list_elem_of_In. vm_compute. tauto.
Defined.


(** ** An argument that is no option *)

(** X21.  An argument in an option position that is none of the options
    ends the program with [EXIT_ERROR] and the message that the option is
    unknown, whatever follows it. *)
Theorem unknown_option_is_rejected ctx st arg rest :
  arg ∉ valued_options → arg ∉ plain_options →
  parse_args ctx st (arg :: rest)
  = ExitStream EXIT_ERROR
      ("murxla: ERROR: unknown option '" +:+ arg +:+ "'" +:+ endl).
Proof.
  intros Hvalued Hplain.
  assert (Hno : ∀ names,
            (∀ n, n ∈ names → n ∈ valued_options ∨ n ∈ plain_options) →
            arg_is arg names = false).
  { intros names Hsub. apply not_true_iff_false. intros Hin.
    apply arg_is_true in Hin. destruct (Hsub _ Hin); done. }
  rewrite parse_args_cons. unfold parse_arg.
  repeat match goal with
         | |- context [if arg_is arg ?l then _ else _] =>
             rewrite (Hno l)
               by (intros n Hn;
                   repeat (apply elem_of_cons in Hn as [->|Hn];
                           [first [left; apply arg_is_true; reflexivity
                                  |right; apply arg_is_true; reflexivity]|]);
                   by apply elem_of_nil in Hn)
         end.
  unfold exit_stream. simpl. by rewrite !append_assoc.
Qed.

Lemma unknown_option_is_rejected_witness :
  parse_args CliExamples.machine (initial_state default_options)
    ("--frobnicate" :: ["--stats"])
  = ExitStream EXIT_ERROR
      ("murxla: ERROR: unknown option '" +:+ "--frobnicate" +:+ "'"
       +:+ endl).
Proof.
  apply (unknown_option_is_rejected CliExamples.machine
           (initial_state default_options) "--frobnicate" ["--stats"]).
  - intros H. apply list_elem_of_In in H. vm_compute in H.
    repeat (destruct H as [H|H]; [discriminate H|]). exact H.
  - intros H. apply list_elem_of_In in H. vm_compute in H.
    repeat (destruct H as [H|H]; [discriminate H|]). exact H.
Defined.


End CliEdges.
Section CliSeeds.
Import Cli CliExamples.

Ltac option_cases' :=
  repeat match goal with
         | |- context [if arg_is ?a ?l then _ else _] =>
             destruct (arg_is a l) eqn:?
         | H : context [if arg_is ?a ?l then _ else _] |- _ =>
             destruct (arg_is a l) eqn:?
         end.

Ltac loop_result' :=
  unfold enable_theory, disable_theory, valued, check_next_arg, flag,
    exit_stream, MURXLA_EXIT_ERROR in *;
  repeat match goal with
         | H : _ ≫= _ = Ok _ |- _ =>
             let a := fresh "a" in
             let Ha := fresh "Ha" in
             apply bind_ok in H as (a & Ha & H)
         | H : (if ?c then _ else _) = Ok _ |- _ =>
             destruct c eqn:?; try discriminate
         | H : match ?x with _ => _ end = Ok _ |- _ =>
             destruct x eqn:?; try discriminate
         | H : Ok _ = Ok _ |- _ => injection H as H; subst
         | H : (_, _) = (_, _) |- _ => injection H as ? ?; subst
         end;
  try discriminate.

(** ** Seeds *)

Lemma digit_value_range c d : digit_value c = Some d → 0 ≤ d < 16.
Proof.
  unfold digit_value.
  repeat match goal with
         | |- context [if ?b then _ else _] => destruct b eqn:?
         end; intros [= <-]; lia.
Qed.

Lemma is_xdigit_not_space c : is_xdigit c = true → is_space c = false.
Proof.
  destruct c as [[] [] [] [] [] [] [] []]; vm_compute; congruence.
Qed.

Lemma is_xdigit_not_sign c (sign : ascii) :
  is_xdigit c = true → sign = "+"%char ∨ sign = "-"%char →
  Ascii.eqb c sign = false.
Proof.
  intros Hx Hsign. apply Ascii.eqb_neq. intros ->.
  destruct Hsign as [->| ->]; vm_compute in Hx; discriminate.
Qed.

Lemma read_digits_hex cs : ∀ acc,
  forallb is_xdigit cs = true →
  read_digits 16 (Some acc) cs
  = Some (fold_left (λ acc d, acc * 16 + d) (xdigits cs) acc).
Proof.
  induction cs as [|c cs IH]; intros acc Hall; [done|].
  simpl in Hall. apply andb_true_iff in Hall as [Hc Hall].
  unfold is_xdigit in Hc. cbn [read_digits xdigits map fold_left].
  destruct (digit_value c) as [d|] eqn:Hd; [|discriminate].
  pose proof (digit_value_range _ _ Hd) as Hrange.
  destruct (Z.ltb_spec d 16) as [_|]; [|lia].
  simpl. by rewrite IH.
Qed.

Lemma extract_uint32_hex value :
  forallb is_xdigit (list_ascii_of_string value) = true →
  extract_uint32 16 value
  = if String.eqb value "" then None
    else Some (Z.min (digits_value 16 (xdigits (list_ascii_of_string value)))
                     (UINT32_MOD - 1)).
Proof.
  intros Hall. unfold extract_uint32, digits_value.
  destruct value as [|c value]; [reflexivity|].
  change (String.eqb (String c value) "") with false.
  change (list_ascii_of_string (String c value))
    with (c :: list_ascii_of_string value) in *.
  set (cs := list_ascii_of_string value) in *.
  simpl in Hall. apply andb_true_iff in Hall as [Hc Hall].
  cbn [skip_space]. rewrite (is_xdigit_not_space c Hc).
  rewrite (is_xdigit_not_sign c "+" Hc) by by left.
  unfold is_xdigit in Hc. cbn [read_digits xdigits map fold_left].
  destruct (digit_value c) as [d|] eqn:Hd; [|discriminate].
  pose proof (digit_value_range _ _ Hd) as Hrange.
  destruct (Z.ltb_spec d 16) as [_|]; [|lia].
  simpl. rewrite read_digits_hex by done.
  set (v := fold_left _ _ _).
  f_equal. destruct (Z.leb_spec UINT32_MOD v); lia.
Qed.

Lemma xdigits_no_dash value :
  forallb is_xdigit (list_ascii_of_string value) = true →
  contains_char "-" value = false.
Proof.
  unfold contains_char.
  induction (list_ascii_of_string value) as [|c cs IH]; [done|].
  cbn [existsb forallb]. intros Hall.
  apply andb_true_iff in Hall as [Hc Hall].
  rewrite IH by done. rewrite Ascii.eqb_sym.
  rewrite (is_xdigit_not_sign c "-" Hc) by by right. done.
Qed.

(** X22.  A seed whose characters are all hexadecimal digits is read in
    base 16, so a seed written with decimal digits only is read as a
    hexadecimal number as well; a value beyond 32 bits yields the largest
    32-bit number.  An empty value stores nothing: the seed set before
    stays.  In either case the run counts as seeded. *)
Theorem seed_of_hex_digits_is_read_in_base_16 ctx st arg value rest :
  arg_is arg ["-s"; "--seed"] = true →
  forallb is_xdigit (list_ascii_of_string value) = true →
  parse_arg ctx st arg (value :: rest)
  = Ok (upd (λ o, set_is_seeded true
                    (set_seed
                       (if String.eqb value "" then seed o
                        else Z.min (digits_value 16
                                      (xdigits (list_ascii_of_string value)))
                                   (UINT32_MOD - 1)) o)) st,
        true).
Proof.
  intros Harg Hall. unfold parse_arg.
  assert (Hhelp : arg_is arg ["-h"; "--help"] = false).
  { apply arg_is_true in Harg. apply not_true_iff_false. intros Hh.
    apply arg_is_true in Hh.
    repeat (apply elem_of_cons in Harg as [->|Harg];
            [repeat (apply elem_of_cons in Hh as [Hh|Hh];
                     [discriminate|]); by apply elem_of_nil in Hh|]).
    by apply elem_of_nil in Harg. }
  rewrite Hhelp, Harg. unfold valued, check_next_arg. simpl.
  rewrite xdigits_no_dash by done. simpl.
  rewrite Hall, extract_uint32_hex by done.
  by destruct (String.eqb value "").
Qed.

Lemma seed_of_hex_digits_is_read_in_base_16_witness :
  parse_arg CliExamples.machine (initial_state default_options) "-s"
    ("10" :: ["--stats"])
  = Ok (upd (λ o, set_is_seeded true
                    (set_seed
                       (if String.eqb "10" "" then seed o
                        else Z.min (digits_value 16
                                      (xdigits (list_ascii_of_string "10")))
                                   (UINT32_MOD - 1)) o))
            (initial_state default_options),
        true).
Proof.
  apply (seed_of_hex_digits_is_read_in_base_16 CliExamples.machine
           (initial_state default_options) "-s" "10" ["--stats"]).
  - reflexivity.
  - reflexivity.
Defined.

Example seed_10_is_sixteen ctx st :
  parse_arg ctx st "-s" ["10"]
  = Ok (upd (λ o, set_is_seeded true (set_seed 16 o)) st, true).
Proof. reflexivity. Qed.

(** A second [-s] with an empty value leaves the seed of the first. *)
Example empty_seed_keeps_seed :
  seed (options (parsed machine ["murxla"; "-s"; "5"; "-s"; ""])) = 5
  ∧ is_seeded (options (parsed machine ["murxla"; "-s"; "5"; "-s"; ""]))
    = true.
Proof. split; vm_compute; reflexivity. Qed.

(** ** [-u] without a file *)

(** X23.  When [-u] or [--untrace] is the last argument, [get_options]
    ends the program with the message that the argument is missing for
    the option named before it, not for [-u]; when nothing stands before
    it, it reads the last element of an empty vector. *)
Theorem untrace_without_file_names_the_previous_argument
    ctx o prog pre flag :
  (∀ a, a ∈ pre → arg_is a untrace_flags = false) →
  arg_is flag untrace_flags = true →
  get_options ctx o (prog :: pre ++ [flag])
  = match last pre with
    | Some previous =>
        ExitStream EXIT_ERROR
          ("murxla: ERROR: missing argument to option '" +:+ previous
           +:+ "'" +:+ endl)
    | None => UndefinedBehaviour "args.back() on an empty vector"
    end.
Proof.
  intros Hpre Hflag. unfold get_options. simpl tail.
  assert (Hscan : ∀ args,
            get_options_scan (pre ++ [flag]) args o
            = get_options_scan [flag] (args ++ pre) o).
  { clear -Hpre. induction pre as [|x pre IH]; intros args.
    - simpl app. by rewrite app_nil_r.
    - simpl app. rewrite get_options_scan_cons, (Hpre x) by left.
      rewrite IH by (intros a Ha; apply Hpre; by right).
      by rewrite <- app_assoc. }
  rewrite Hscan, get_options_scan_cons, Hflag. simpl app.
  destruct (last pre) as [previous|]; [|reflexivity].
  unfold check_next_arg, exit_stream. simpl. by rewrite !append_assoc.
Qed.

Lemma untrace_without_file_names_the_previous_argument_witness :
  get_options CliExamples.machine default_options
    ("murxla" :: ["--stats"] ++ ["-u"])
  = match last ["--stats"] with
    | Some previous =>
        ExitStream EXIT_ERROR
          ("murxla: ERROR: missing argument to option '" +:+ previous
           +:+ "'" +:+ endl)
    | None => UndefinedBehaviour "args.back() on an empty vector"
    end.
Proof.
  apply (untrace_without_file_names_the_previous_argument
           CliExamples.machine default_options "murxla" ["--stats"] "-u").
  - intros a Ha. apply list_elem_of_In in Ha.
    destruct Ha as [<-|[]]; reflexivity.
  - reflexivity.
Defined.


(** ** The mode of a run *)

Lemma add_solver_options_mode ctx prefix opts : ∀ o o',
  add_solver_options ctx prefix opts o = Ok o' →
  is_seeded o' = is_seeded o ∧ untrace_file_name o' = untrace_file_name o.
Proof.
  induction opts as [|opt rest IH]; intros o o' H; simpl in H.
  - by injection H as <-.
  - destruct (split ctx opt "="%char) as [|name [|value [|? ?]]];
      try discriminate.
    + by apply IH.
    + apply IH in H. exact H.
Qed.

Lemma parse_arg_mode ctx st arg rest st' advanced :
  arg_is arg ["-s"; "--seed"; "-u"; "--untrace"] = false →
  parse_arg ctx st arg rest = Ok (st', advanced) →
  is_seeded (options st') = is_seeded (options st)
  ∧ untrace_file_name (options st') = untrace_file_name (options st).
Proof.
  intros Hno H.
  assert (Hs : arg_is arg ["-s"; "--seed"] = false).
  { apply not_true_iff_false. intros Hin. apply arg_is_true in Hin.
    apply not_true_iff_false in Hno. apply Hno, arg_is_true.
    repeat (apply elem_of_cons in Hin as [->|Hin];
            [rewrite !elem_of_cons; tauto|]).
    by apply elem_of_nil in Hin. }
  assert (Hu : arg_is arg ["-u"; "--untrace"] = false).
  { apply not_true_iff_false. intros Hin. apply arg_is_true in Hin.
    apply not_true_iff_false in Hno. apply Hno, arg_is_true.
    repeat (apply elem_of_cons in Hin as [->|Hin];
            [rewrite !elem_of_cons; tauto|]).
    by apply elem_of_nil in Hin. }
  unfold parse_arg in H. rewrite Hs, Hu in H.
  option_cases'; loop_result'.
  all: try (split; reflexivity).
  all: simpl;
    match goal with
    | Ho : add_solver_options _ _ _ _ = Ok _ |- _ =>
        exact (add_solver_options_mode _ _ _ _ _ Ho)
    end.
Qed.

Lemma parse_args_mode ctx args : ∀ st st',
  (∀ a, a ∈ args → arg_is a ["-s"; "--seed"; "-u"; "--untrace"] = false) →
  parse_args ctx st args = Ok st' →
  is_seeded (options st') = is_seeded (options st)
  ∧ untrace_file_name (options st') = untrace_file_name (options st).
Proof.
  induction args as [args IH] using (induction_ltof1 _ (@length string)).
  unfold ltof in IH. intros st st' Hno Hparse.
  destruct args as [|arg rest].
  - by injection Hparse as <-.
  - rewrite parse_args_cons in Hparse.
    apply bind_ok in Hparse as ([st1 adv] & Harg & Hrest).
    apply parse_arg_mode in Harg as [Hs1 Hu1]; [|apply Hno; by left].
    rewrite <- Hs1, <- Hu1.
    destruct adv; [destruct rest as [|next rest']|].
    + by injection Hrest as <-.
    + apply (IH rest'); [simpl; lia| |exact Hrest].
      intros a Ha. apply Hno. right. by right.
    + apply (IH rest); [simpl; lia| |exact Hrest].
      intros a Ha. apply Hno. by right.
Qed.

Lemma settle_solver_mode o :
  is_seeded (settle_solver o) = is_seeded o
  ∧ untrace_file_name (settle_solver o) = untrace_file_name o.
Proof.
  unfold settle_solver.
  repeat match goal with
         | |- context [if ?c then _ else _] => destruct c
         end; split; reflexivity.
Qed.

(** X24.  With neither [-s]/[--seed] nor [-u]/[--untrace] among the
    arguments, a run that gets as far as constructing the fuzzer is a
    continuous one, and therefore forked. *)
Theorem no_seed_no_untrace_runs_continuously ctx prog args start :
  (∀ a, a ∈ args → arg_is a ["-s"; "--seed"; "-u"; "--untrace"] = false) →
  main ctx (prog :: args) = Ok start →
  Run.is_untrace (options (start_state start)) = false
  ∧ Run.is_continuous (options (start_state start)) = true
  ∧ Run.is_forked (options (start_state start)) = true.
Proof.
  intros Hno Hmain. unfold main in Hmain.
  apply bind_ok in Hmain as ([] & _ & Hmain).
  apply bind_ok in Hmain as (st & Hparse & Hmain).
  apply bind_ok in Hmain as (TMP_DIR & _ & Hmain).
  apply bind_ok in Hmain as ([] & _ & Hmain).
  injection Hmain as <-. simpl.
  apply parse_options_ok in Hparse
    as (o' & args' & st1 & line & Hget & Hargs & _ & ->).
  rewrite get_options_plain in Hget.
  2:{ intros a Ha. specialize (Hno a Ha).
      apply not_true_iff_false. intros Hin. apply arg_is_true in Hin.
      apply not_true_iff_false in Hno. apply Hno, arg_is_true.
      unfold untrace_flags in Hin.
      repeat (apply elem_of_cons in Hin as [->|Hin];
              [rewrite !elem_of_cons; tauto|]).
      by apply elem_of_nil in Hin. }
  injection Hget as <- <-.
  apply parse_args_mode in Hargs as [Hs Hu]; [|exact Hno].
  destruct (settle_solver_mode (options st1)) as [Hs' Hu'].
  unfold Run.is_forked, Run.is_continuous, Run.is_untrace. simpl.
  rewrite Hs', Hu', Hs, Hu. simpl. split; [done|]. split; [done|].
  apply orb_true_r.
Qed.

Lemma no_seed_no_untrace_runs_continuously_witness :
  Run.is_untrace
    (options (start_state
                (SummaryExamples.started CliExamples.machine
                   ["murxla"; "--stats"; "--cvc5"]))) = false
  ∧ Run.is_continuous
      (options (start_state
                  (SummaryExamples.started CliExamples.machine
                     ["murxla"; "--stats"; "--cvc5"]))) = true
  ∧ Run.is_forked
      (options (start_state
                  (SummaryExamples.started CliExamples.machine
                     ["murxla"; "--stats"; "--cvc5"]))) = true.
Proof.
  apply (no_seed_no_untrace_runs_continuously CliExamples.machine "murxla"
           ["--stats"; "--cvc5"]).
  - intros a Ha. apply list_elem_of_In in Ha.
    destruct Ha as [<-|[<-|[]]]; reflexivity.
  - vm_compute. reflexivity.
Defined.


End CliSeeds.
Section ErrorSummary.
Import Cli Summary.

Lemma line_feeds_append s t :
  line_feeds (s +:+ t) = (line_feeds s + line_feeds t)%nat.
Proof.
  unfold line_feeds. by rewrite list_ascii_of_append, occurrences_app.
Qed.

Lemma appended_refl out : appended out out 0.
Proof. exists "". by rewrite append_nil_r. Qed.

Lemma appended_trans out1 out2 out3 n1 n2 :
  appended out1 out2 n1 → appended out2 out3 n2 →
  appended out1 out3 (n1 + n2).
Proof.
  intros (t1 & H1 & Hn1) (t2 & H2 & Hn2). exists (t1 +:+ t2).
  rewrite H2, H1, append_assoc, line_feeds_append. by subst.
Qed.

Lemma appended_put text out : appended out (put text out) (line_feeds text).
Proof. by exists text. Qed.

Lemma line_feeds_decimal n : line_feeds (decimal n) = 0%nat.
Proof.
  unfold decimal, NilZero.string_of_uint.
  assert (H : ∀ d, line_feeds (NilEmpty.string_of_uint d) = 0%nat).
  { induction d; [reflexivity|..]; exact IHd. }
  destruct (N.to_uint (Z.to_N n)) eqn:Hd; [reflexivity|..];
    rewrite <- Hd; apply H.
Qed.

Lemma line_feeds_hexadecimal n : line_feeds (hexadecimal n) = 0%nat.
Proof.
  unfold hexadecimal, HexadecimalString.NilZero.string_of_uint.
  assert (H : ∀ d, line_feeds (HexadecimalString.NilEmpty.string_of_uint d)
                   = 0%nat).
  { induction d; [reflexivity|..]; exact IHd. }
  destruct (N.to_hex_uint (Z.to_N n)) eqn:Hd; [reflexivity|..];
    rewrite <- Hd; apply H.
Qed.

Lemma appended_put_number n out : appended out (put_number n out) 0.
Proof.
  unfold put_number.
  destruct (basefield_hex out).
  - rewrite <- (line_feeds_hexadecimal n). apply appended_put.
  - rewrite <- (line_feeds_decimal n). apply appended_put.
Qed.

Lemma appended_std_hex out : appended out (std_hex out) 0.
Proof. exists "". simpl. by rewrite append_nil_r. Qed.

Lemma appended_put_seeds_csv seeds : ∀ out,
  appended out (put_seeds_csv seeds out) 0.
Proof.
  induction seeds as [|seed rest IH]; intros out; simpl.
  - apply appended_refl.
  - change 0%nat with (0 + (0 + (0 + 0)))%nat.
    eapply appended_trans; [apply appended_std_hex|].
    eapply appended_trans; [apply appended_put_number|].
    eapply appended_trans; [apply (appended_put " ")|].
    apply IH.
Qed.

Lemma string_of_list_ascii_of_string_inv s :
  list_ascii_of_string (string_of_list_ascii s) = s.
Proof. apply list_ascii_of_string_of_list_ascii. Qed.

Lemma line_feeds_escaped err : line_feeds (escaped err) = 0%nat.
Proof.
  unfold line_feeds, escaped. rewrite string_of_list_ascii_of_string_inv.
  induction (list_ascii_of_string err) as [|c cs IH]; [reflexivity|].
  cbn [map concat]. rewrite occurrences_app, IH, Nat.add_0_r.
  unfold escaped_char.
  destruct (Ascii.eqb c newline) eqn:Hnl; [reflexivity|].
  destruct (Ascii.eqb c quote) eqn:Hq; [reflexivity|].
  rewrite occurrences_cons, decide_False; [reflexivity|].
  by apply Ascii.eqb_neq.
Qed.

Lemma put_errors_csv_lines rounds g_errors : ∀ out,
  (∀ key err seeds, (key, (err, seeds)) ∈ g_errors →
                    (String.length err ≤ rounds)%nat) →
  ∃ out', put_errors_csv rounds g_errors out = Some (Ok out')
          ∧ appended out out' (length g_errors).
Proof.
  induction g_errors as [|[key [err seeds]] rest IH]; intros out Hlen.
  - exists out. split; [done|apply appended_refl].
  - cbn [put_errors_csv].
    unfold escape_csv. rewrite escape_pairs_escapes
      by (rewrite length_list_ascii_of_string; eapply Hlen; by left).
    fold (escaped err).
    edestruct IH as (out' & Hrest & Happ).
    { intros k e s Hin. eapply Hlen. right. exact Hin. }
    exists out'. split; [exact Hrest|].
    cbn [length].
    change (S (length rest))
      with (0 + (0 + (0 + (0 + (0 + (0 + (0 + (1 + length rest))))))))%nat.
    eapply appended_trans; [apply (appended_put "murxla:csv:")|].
    eapply appended_trans; [apply appended_put_number|].
    eapply appended_trans; [apply (appended_put ",")|].
    eapply appended_trans; [apply (appended_put (String quote ""))|].
    eapply appended_trans.
    { rewrite <- (line_feeds_escaped err). apply appended_put. }
    eapply appended_trans; [apply (appended_put (String quote ","))|].
    eapply appended_trans; [apply appended_put_seeds_csv|].
    eapply appended_trans; [apply (appended_put endl)|].
    exact Happ.
Qed.

(** X25.  In CSV mode the summary of a non-empty error map is the heading,
    which takes three line feeds, and one line per error: an error message
    never breaks its line, whatever it contains, since [escape_csv] has
    replaced its line feeds. *)
Theorem csv_summary_has_one_line_per_error
    rounds term g_errors g_export_errors msgs out :
  g_errors ≠ [] →
  (∀ key err seeds, (key, (err, seeds)) ∈ g_errors →
                    (String.length err ≤ rounds)%nat) →
  ∃ printed text,
    print_error_summary rounds term g_errors true g_export_errors msgs out
    = Some (Ok printed)
    ∧ written (cout printed) = written out +:+ text
    ∧ line_feeds text = (3 + length g_errors)%nat.
Proof.
  intros Hne Hlen. unfold print_error_summary.
  destruct g_errors as [|entry rest] eqn:Hg; [done|]. rewrite <- Hg in *.
  match goal with
  | |- context [put_errors_csv rounds g_errors ?o] =>
      destruct (put_errors_csv_lines rounds g_errors o Hlen)
        as (out' & Hrows & Happ); rewrite Hrows
  end.
  assert (Hall : appended out out' (3 + length g_errors)).
  { change (3 + length g_errors)%nat
      with (1 + (0 + (1 + (1 + length g_errors))))%nat.
    eapply appended_trans;
      [apply (appended_put (String newline "Error statistics ("))|].
    eapply appended_trans; [apply appended_put_number|].
    eapply appended_trans;
      [apply (appended_put (" in total):" +:+ String newline ""))|].
    eapply appended_trans; [apply (appended_put endl)|].
    exact Happ. }
  destruct Hall as (text & Htext & Hfeeds).
  destruct (String.eqb g_export_errors "");
    eexists _, text; (split; [reflexivity|]); by split.
Qed.

Lemma csv_summary_has_one_line_per_error_witness :
  ∃ printed text,
    print_error_summary 40 SummaryExamples.no_colours
      SummaryExamples.two_errors true "" [] SummaryExamples.fresh_cout
    = Some (Ok printed)
    ∧ written (cout printed)
      = written SummaryExamples.fresh_cout +:+ text
    ∧ line_feeds text = (3 + length SummaryExamples.two_errors)%nat.
Proof.
  apply (csv_summary_has_one_line_per_error 40 SummaryExamples.no_colours
           SummaryExamples.two_errors "" [] SummaryExamples.fresh_cout).
  - discriminate.
  - intros key err seeds H. apply list_elem_of_In in H.
    destruct H as [H|[H|[]]]; inversion H; subst; vm_compute; lia.
Defined.


End ErrorSummary.

(* ====================================================================== *)
(** * main.cpp: numbers in the error summary after [std::hex] *)
(* ====================================================================== *)

Section SummaryNumbers.
Import Cli Summary.

Lemma put_errors_csv_row rounds key err seeds rest out :
  (String.length err ≤ rounds)%nat →
  put_errors_csv rounds ((key, (err, seeds)) :: rest) out
  = put_errors_csv rounds rest
      (put endl
         (put_seeds_csv seeds
            (put (String quote ",")
               (put (escaped err)
                  (put (String quote "")
                     (put ","
                        (put_number (Z.of_nat (length seeds))
                           (put "murxla:csv:" out)))))))).
Proof.
  intros Hlen. cbn [put_errors_csv]. unfold escape_csv.
  rewrite escape_pairs_escapes
    by (by rewrite length_list_ascii_of_string).
  reflexivity.
Qed.

Lemma put_errors_csv_app rounds before : ∀ rest out out1,
  put_errors_csv rounds before out = Some (Ok out1) →
  put_errors_csv rounds (before ++ rest) out
  = put_errors_csv rounds rest out1.
Proof.
  induction before as [|[key [err seeds]] before IH]; intros rest out out1.
  - cbn. by intros [= ->].
  - cbn [put_errors_csv app].
    destruct (escape_csv rounds err) as [[]|]; try discriminate.
    apply IH.
Qed.

Lemma basefield_put_seeds_csv seeds : ∀ out,
  basefield_hex out = true ∨ seeds ≠ [] →
  basefield_hex (put_seeds_csv seeds out) = true.
Proof.
  induction seeds as [|seed rest IH]; intros out H; cbn [put_seeds_csv].
  - by destruct H.
  - apply IH. by left.
Qed.

Lemma basefield_put_errors_csv rounds g_errors : ∀ out out',
  put_errors_csv rounds g_errors out = Some (Ok out') →
  basefield_hex out = true
  ∨ (∃ key err seeds, (key, (err, seeds)) ∈ g_errors ∧ seeds ≠ []) →
  basefield_hex out' = true.
Proof.
  induction g_errors as [|[key [err seeds]] rest IH]; intros out out'.
  - cbn. intros [= ->] [H|(k & e & s & Hin & _)]; [done|].
    by apply elem_of_nil in Hin.
  - cbn [put_errors_csv].
    destruct (escape_csv rounds err) as [[]|]; try discriminate.
    intros Hrest H. eapply IH; [exact Hrest|].
    destruct (decide (seeds = [])) as [->|Hseeds].
    + destruct H as [H|(k & e & s & Hin & Hs)].
      * by left.
      * apply elem_of_cons in Hin as [[= -> -> ->]|Hin]; [done|].
        right. by exists k, e, s.
    + left. cbn [put basefield_hex].
      apply basefield_put_seeds_csv. by right.
Qed.

(** X26.  [std::hex] stays in force on [std::cout]: in CSV mode, once a
    row with a seed has been written, the number of seeds at the head of
    every later row is written in hexadecimal, so that 16 seeds are
    reported as 10. *)
Theorem csv_seed_counts_turn_hexadecimal
    rounds before key err seeds rest out :
  (∀ k e s, (k, (e, s)) ∈ before ++ (key, (err, seeds)) :: rest →
            (String.length e ≤ rounds)%nat) →
  (∃ k e s, (k, (e, s)) ∈ before ∧ s ≠ []) →
  ∃ out1 out2 text,
    put_errors_csv rounds before out = Some (Ok out1)
    ∧ put_errors_csv rounds (before ++ (key, (err, seeds)) :: rest) out
      = Some (Ok out2)
    ∧ written out2
      = written out1 +:+ "murxla:csv:"
        +:+ hexadecimal (Z.of_nat (length seeds)) +:+ "," +:+ text.
Proof.
  intros Hlen Hseed.
  destruct (put_errors_csv_lines rounds before out) as (out1 & H1 & _).
  { intros k e s Hin. eapply Hlen. apply elem_of_app. left. exact Hin. }
  assert (Hhex : basefield_hex out1 = true).
  { eapply basefield_put_errors_csv; [exact H1|]. by right. }
  rewrite (put_errors_csv_app _ _ _ _ _ H1).
  rewrite put_errors_csv_row
    by (eapply Hlen; apply elem_of_app; right; by left).
  match goal with
  | |- context [put_errors_csv rounds rest ?o] =>
      destruct (put_errors_csv_lines rounds rest o) as (out2 & H2 & Happ)
  end.
  { intros k e s Hin. eapply Hlen. apply elem_of_app. right. right.
    exact Hin. }
  assert (Hrow : appended
                   (put "," (put_number (Z.of_nat (length seeds))
                               (put "murxla:csv:" out1)))
                   out2 (0 + (0 + (0 + (0 + (1 + length rest)))))).
  { eapply appended_trans; [apply (appended_put (String quote ""))|].
    eapply appended_trans.
    { rewrite <- (line_feeds_escaped err). apply appended_put. }
    eapply appended_trans; [apply (appended_put (String quote ","))|].
    eapply appended_trans; [apply appended_put_seeds_csv|].
    eapply appended_trans; [apply (appended_put endl)|].
    exact Happ. }
  destruct Hrow as (text & Hw & _).
  exists out1, out2, text. split; [exact H1|]. split; [exact H2|].
  rewrite Hw. unfold put_number. cbn [put written basefield_hex].
  rewrite Hhex. by rewrite !append_assoc.
Qed.

Lemma csv_seed_counts_turn_hexadecimal_witness :
  ∃ out1 out2 text,
    put_errors_csv 40 [("segfault", ("segfault", [255]))]
      SummaryExamples.fresh_cout = Some (Ok out1)
    ∧ put_errors_csv 40
        ([("segfault", ("segfault", [255]))]
         ++ ("timeout", ("timeout",
                         [1; 2; 3; 4; 5; 6; 7; 8; 9; 10; 11; 12; 13; 14; 15;
                          16])) :: [])
        SummaryExamples.fresh_cout
      = Some (Ok out2)
    ∧ written out2
      = written out1 +:+ "murxla:csv:"
        +:+ hexadecimal
              (Z.of_nat (length [1; 2; 3; 4; 5; 6; 7; 8; 9; 10; 11; 12; 13;
                                 14; 15; 16]))
        +:+ "," +:+ text.
Proof.
  apply (csv_seed_counts_turn_hexadecimal 40
           [("segfault", ("segfault", [255]))] "timeout" "timeout"
           [1; 2; 3; 4; 5; 6; 7; 8; 9; 10; 11; 12; 13; 14; 15; 16] []
           SummaryExamples.fresh_cout).
  - intros k e s H. apply list_elem_of_In in H.
    destruct H as [H|[H|[]]]; inversion H; subst; vm_compute; lia.
  - exists "segfault", "segfault", [255]. split; [by left|done].
Defined.

Example sixteen_seeds_reported_as_10 :
  hexadecimal 16 = "10"
  ∧ ∃ out2,
      put_errors_csv 40
        [("segfault", ("segfault", [255]));
         ("timeout", ("timeout", [1; 2; 3; 4; 5; 6; 7; 8; 9; 10; 11; 12; 13;
                                  14; 15; 16]))]
        SummaryExamples.fresh_cout = Some (Ok out2)
      ∧ written out2
        = "murxla:csv:1," +:+ String quote "segfault" +:+ String quote ",ff "
          +:+ endl
          +:+ "murxla:csv:10," +:+ String quote "timeout" +:+ String quote ","
          +:+ "1 2 3 4 5 6 7 8 9 a b c d e f 10 " +:+ endl.
Proof.
  split; [reflexivity|]. eexists. split; vm_compute; reflexivity.
Qed.

End SummaryNumbers.
